(** * FS25 TreeConverter: a shallow embedding of [convert_static_trees.py]

    The development follows the layout of the script: text helpers, the
    fallback name classifier, the tree type catalog, the transform engine,
    the scene walker and the serializer.

    Conventions of the embedding.
    - Python [str] values are byte strings ([string]); the case mappings
      [str.lower] and [str.upper] and the classes used by [str.split] and
      [\d] are the ASCII ones, so the model speaks about ASCII text.  A
      statement that rests on a law of the ASCII case mappings says so
      with [Str.is_ascii].
    - Python [int] is [Z].
    - Python [float] is an abstract scalar type with its arithmetic
      ([Arith]) and the functions of the [math] module ([MathLib]).  It is
      instantiated with IEEE binary64 ([PrimFloat]) where only [+] and [*]
      are involved, and with the real numbers where the trigonometric
      functions are needed.  The reals leave the rounding out; the one
      trace of the floats that changes an answer by more than rounding,
      the sign of a zero given to [math.atan2], is a parameter of
      [RealModel.mathlib_signed].
    - An [xml.etree] element is a finite tree of tag, attributes and
      children; references to elements are positions in the document. *)

From Stdlib Require Import ZArith Reals Lra Lia PrimFloat Ascii String.
From stdpp Require Import gmap strings list fin_maps.

Local Open Scope Z_scope.

(** ** Text helpers (methods of [str]) *)

Module Str.

Definition dq : string := String "034"%char EmptyString.

Definition is_upper (c : ascii) : bool :=
  let n := nat_of_ascii c in (65 <=? n)%nat && (n <=? 90)%nat.

Definition is_lower (c : ascii) : bool :=
  let n := nat_of_ascii c in (97 <=? n)%nat && (n <=? 122)%nat.

Definition is_digit (c : ascii) : bool :=
  let n := nat_of_ascii c in (48 <=? n)%nat && (n <=? 57)%nat.

(** [str.isspace] on code points below 128. *)
Definition is_space (c : ascii) : bool :=
  let n := nat_of_ascii c in
  ((9 <=? n)%nat && (n <=? 13)%nat) || ((28 <=? n)%nat && (n <=? 32)%nat).

Definition lower_char (c : ascii) : ascii :=
  if is_upper c then ascii_of_nat (nat_of_ascii c + 32) else c.

Definition upper_char (c : ascii) : ascii :=
  if is_lower c then ascii_of_nat (nat_of_ascii c - 32) else c.

Fixpoint map_chars (f : ascii → ascii) (s : string) : string :=
  match s with
  | EmptyString => EmptyString
  | String c s' => String (f c) (map_chars f s')
  end.

(** [s.lower()] and [s.upper()] on ASCII text: the letters [A] to [Z] and
    [a] to [z] change case and every other character stays.  On text
    with other characters the methods of [str] follow the Unicode tables
    and are not these functions. *)
Definition lower : string → string := map_chars lower_char.
Definition upper : string → string := map_chars upper_char.

(** [s.isascii()]: every character is below 128. *)
Fixpoint is_ascii (s : string) : bool :=
  match s with
  | EmptyString => true
  | String c s' => (nat_of_ascii c <? 128)%nat && is_ascii s'
  end.

(** [s.replace(c, '')] for a one-character [c]. *)
Fixpoint remove_char (c : ascii) (s : string) : string :=
  match s with
  | EmptyString => EmptyString
  | String d s' =>
      if Ascii.eqb c d then remove_char c s' else String d (remove_char c s')
  end.

(** [s.startswith(p)]. *)
Fixpoint startswith (s p : string) : bool :=
  match p, s with
  | EmptyString, _ => true
  | String _ _, EmptyString => false
  | String a p', String b s' => Ascii.eqb a b && startswith s' p'
  end.

(** [s[n:]]. *)
Fixpoint drop (n : nat) (s : string) : string :=
  match n, s with
  | O, _ => s
  | S n', String _ s' => drop n' s'
  | S _, EmptyString => EmptyString
  end.

(** [p in s]. *)
Fixpoint contains (s p : string) : bool :=
  startswith s p ||
  match s with
  | EmptyString => false
  | String _ s' => contains s' p
  end.

(** [s.endswith(p)]. *)
Fixpoint endswith (s p : string) : bool :=
  String.eqb s p ||
  match s with
  | EmptyString => false
  | String _ s' => endswith s' p
  end.

(** [s.split()]: the maximal runs of non-blank characters. *)
Fixpoint split_ws_aux (cur : string) (s : string) : list string :=
  let flush := match cur with EmptyString => [] | _ => [String.rev cur] end in
  match s with
  | EmptyString => flush
  | String c s' =>
      if is_space c then flush ++ split_ws_aux EmptyString s'
      else split_ws_aux (String c cur) s'
  end.

Definition split_ws (s : string) : list string := split_ws_aux EmptyString s.

(** The longest prefix of decimal digits. *)
Fixpoint take_digits (s : string) : string :=
  match s with
  | String c s' => if is_digit c then String c (take_digits s') else EmptyString
  | EmptyString => EmptyString
  end.

Definition starts_with_digit (s : string) : bool :=
  match s with
  | String c _ => is_digit c
  | EmptyString => false
  end.

(** [int(d)] for a run of decimal digits [d]. *)
Fixpoint int_of_digits_aux (acc : Z) (s : string) : Z :=
  match s with
  | EmptyString => acc
  | String c s' =>
      int_of_digits_aux (10 * acc + Z.of_nat (nat_of_ascii c - 48)) s'
  end.

Definition int_of_digits : string → Z := int_of_digits_aux 0.

(** [f"{n}"] for a non-negative [int]; negative numbers get a sign. *)
Definition digit_char (n : nat) : ascii := ascii_of_nat (48 + n).

Fixpoint nat_digits (fuel n : nat) (acc : string) : string :=
  match fuel with
  | O => acc
  | S fuel' =>
      let acc' := String (digit_char (n mod 10)) acc in
      if (n <? 10)%nat then acc' else nat_digits fuel' (n / 10) acc'
  end.

Definition str_of_int (z : Z) : string :=
  let n := Z.abs_nat z in
  let d := nat_digits (S n) n EmptyString in
  if z <? 0 then String "-"%char d else d.

(** [sep.join(l)]. *)
Fixpoint join (sep : string) (l : list string) : string :=
  match l with
  | [] => EmptyString
  | [x] => x
  | x :: l' => x +:+ sep +:+ join sep l'
  end.

End Str.

(** ** Regular expressions of the classifier

    The fragment of [re] that [TREE_PATTERNS] uses: literals, sequencing,
    alternation, [.*] and negative lookahead.  [re.search] is only used for
    its truth value, so the matcher answers whether some match exists. *)

Module Re.

Inductive re : Type :=
| Lit (s : string)
| Seq (a b : re)
| Or (a b : re)
| DotStar
| NotAhead (r : re).

Definition newline : ascii := "010"%char.

(** [.*] followed by the continuation [k]: [.] matches anything but a
    line break. *)
Fixpoint dotstar (k : string → bool) (s : string) : bool :=
  k s ||
  match s with
  | EmptyString => false
  | String c s' => negb (Ascii.eqb c newline) && dotstar k s'
  end.

(** [match_at r s k]: [r] matches a prefix of [s] such that the rest is
    accepted by [k]. *)
Fixpoint match_at (r : re) (s : string) (k : string → bool) : bool :=
  match r with
  | Lit l => Str.startswith s l && k (Str.drop (String.length l) s)
  | Seq a b => match_at a s (λ s', match_at b s' k)
  | Or a b => match_at a s k || match_at b s k
  | DotStar => dotstar k s
  | NotAhead r' => negb (match_at r' s (λ _, true)) && k s
  end.

(** [bool(re.search(r, s))]. *)
Fixpoint search (r : re) (s : string) : bool :=
  match_at r s (λ _, true) ||
  match s with
  | EmptyString => false
  | String _ s' => search r s'
  end.

(** [re.search(kw + r'[_]?(\d+)', s)]: the digits captured by the
    leftmost match, if any. *)
Definition num_at (kw s : string) : option string :=
  if Str.startswith s kw then
    let r := Str.drop (String.length kw) s in
    match r with
    | String "_"%char r' =>
        if Str.starts_with_digit r' then Some (Str.take_digits r') else None
    | _ => if Str.starts_with_digit r then Some (Str.take_digits r) else None
    end
  else None.

Fixpoint search_num (kw s : string) : option string :=
  match num_at kw s with
  | Some d => Some d
  | None =>
      match s with
      | EmptyString => None
      | String _ s' => search_num kw s'
      end
  end.

(** [(?!.*w)]. *)
Definition not_later (w : string) : re := NotAhead (Seq DotStar (Lit w)).

End Re.

(** ** Fallback classifier *)

Import Re.

(** The dictionary [TREE_PATTERNS] in insertion order, which is the order
    in which [dict.items()] yields it. *)
Definition TREE_PATTERNS : list (re * (string * Z)) :=
  [ (Lit "americanelm", ("americanElm", 5));
    (Lit "aspen", ("aspen", 6));
    (Lit "beech", ("beech", 6));
    (Or (Lit "betulaermanii") (Lit "ermanii"), ("betulaErmanii", 4));
    (Seq (Lit "birch") (not_later "ermanii"), ("birch", 5));
    (Lit "boxelder", ("boxelder", 3));
    (Lit "cherry", ("cherry", 4));
    (Lit "chineseelm", ("chineseElm", 4));
    (Or (Lit "downyserviceberry") (Lit "serviceberry"), ("downyServiceBerry", 3));
    (Lit "goldenrain", ("goldenRain", 4));
    (Or (Lit "japanesezelkova") (Lit "zelkova"), ("japaneseZelkova", 4));
    (Lit "lodgepolepine", ("lodgepolePine", 3));
    (Lit "maple", ("maple", 5));
    (Or (Lit "northerncatalpa") (Lit "catalpa"), ("northernCatalpa", 4));
    (Lit "oak", ("oak", 5));
    (Or (Or (Lit "pinussylvestris") (Lit "scotspine")) (Lit "scots_pine"),
      ("pinusSylvestris", 5));
    (Or (Lit "pinustabuliformis") (Lit "chinesepine"), ("pinusTabuliformis", 5));
    (Lit "poplar", ("poplar", 5));
    (Or (Lit "shagbarkhickory") (Lit "hickory"), ("shagbarkHickory", 4));
    (Lit "spruce", ("spruce", 5));
    (Or (Or (Lit "tiliaamurensis") (Seq (Lit "linden") (not_later "station")))
        (Lit "limetree"), ("tiliaAmurensis", 4));
    (Lit "willow", ("willow", 5));
    (Seq (Seq (Lit "pine") (not_later "sylvestris")) (not_later "tabuliformis"),
      ("lodgepolePine", 3)) ].

Definition MAX_STAGES : list (string * Z) :=
  [ ("AMERICANELM", 5); ("ASPEN", 6); ("BEECH", 6); ("BETULAERMANII", 4);
    ("BIRCH", 5); ("BOXELDER", 3); ("CHERRY", 4); ("CHINESEELM", 4);
    ("DOWNYSERVICEBERRY", 3); ("GOLDENRAIN", 4); ("JAPANESEZELKOVA", 4);
    ("LODGEPOLEPINE", 3); ("MAPLE", 5); ("NORTHERNCATALPA", 4); ("OAK", 5);
    ("PINUSSYLVESTRIS", 5); ("PINUSTABULIFORMIS", 5); ("POPLAR", 5);
    ("SHAGBARKHICKORY", 4); ("SPRUCE", 5); ("TILIAAMURENSIS", 4);
    ("WILLOW", 5) ].

(** [d.get(k, default)] on a literal dictionary with distinct keys. *)
Fixpoint dict_get {V : Type} (d : list (string * V)) (k : string) (default : V) : V :=
  match d with
  | [] => default
  | (k', v) :: d' => if String.eqb k' k then v else dict_get d' k default
  end.

(** [name.lower().replace('_', '').replace('-', '').replace(' ', '')]. *)
Definition normalize (name : string) : string :=
  Str.remove_char " "%char
    (Str.remove_char "-"%char (Str.remove_char "_"%char (Str.lower name))).

(** The loop of [detect_tree_type] over an ordered pattern table. *)
Fixpoint first_match (table : list (re * (string * Z))) (name_lower : string)
  : option (string * Z) :=
  match table with
  | [] => None
  | (pattern, (tree_type, stages)) :: rest =>
      if search pattern name_lower then Some (tree_type, stages)
      else first_match rest name_lower
  end.

Definition detect_tree_type (name : string) : option (string * Z) :=
  first_match TREE_PATTERNS (normalize name).

(** ** XML documents ([xml.etree.ElementTree])

    Only tags, attributes and the ordered children of an element are read
    by the script. *)

Local Unset Elimination Schemes.
Inductive Element : Type :=
  Elem (tag : string) (attrib : list (string * string)) (children : list Element).
Local Set Elimination Schemes.

Definition tag (e : Element) : string := let 'Elem t _ _ := e in t.
Definition attrib (e : Element) : list (string * string) := let 'Elem _ a _ := e in a.
Definition children (e : Element) : list Element := let 'Elem _ _ c := e in c.

(** [elem.get(key)]; [None] when the attribute is absent. *)
Fixpoint assoc (a : list (string * string)) (key : string) : option string :=
  match a with
  | [] => None
  | (k, v) :: a' => if String.eqb k key then Some v else assoc a' key
  end.

Definition get (e : Element) (key : string) : option string := assoc (attrib e) key.

(** [elem.get(key, default)]. *)
Definition get_or (e : Element) (key default : string) : string :=
  match get e key with
  | Some v => v
  | None => default
  end.

(** [elem.findall(t)]: the children with tag [t], in document order. *)
Definition findall (e : Element) (t : string) : list Element :=
  filter (λ c, tag c = t) (children e).

(** [elem.iter()]: the element and all its descendants, in document order. *)
Fixpoint iter (e : Element) : list Element :=
  let 'Elem _ _ cs := e in
  e :: (fix go (l : list Element) : list Element :=
          match l with
          | [] => []
          | c :: l' => iter c ++ go l'
          end) cs.

(** [elem.find('.//' + t)]: the first proper descendant with tag [t]. *)
Definition find_descendant (e : Element) (t : string) : option Element :=
  head (filter (λ c, tag c = t) (tail (iter e))).

(** Truth value of an optional string: [None] and [''] are false. *)
Definition truthy (o : option string) : bool :=
  match o with
  | Some (String _ _) => true
  | _ => false
  end.

(** ** The part of [pathlib] that the script relies on

    [path_join b r] is [str(b / r)] and [path_stem p] is [Path(p).stem].
    Their results depend on the platform's path flavour, so they are an
    interface; [plain_paths] is the instance for forward-slash paths that
    need no normalisation. *)

Class PathLib : Type := {
  path_join : string → string → string;
  path_stem : string → string
}.

Module PlainPaths.

(** The text after the last ['/']. *)
Fixpoint basename_aux (cur s : string) : string :=
  match s with
  | EmptyString => String.rev cur
  | String c s' =>
      if Ascii.eqb c "/"%char then basename_aux EmptyString s'
      else basename_aux (String c cur) s'
  end.

Definition basename : string → string := basename_aux EmptyString.

(** Cut the last suffix of a reversed name: the text up to the first dot,
    when that dot is neither the first nor the last character of the name. *)
Fixpoint cut_suffix (rev_name : string) : option string :=
  match rev_name with
  | EmptyString => None
  | String c r' =>
      if Ascii.eqb c "."%char then Some r' else cut_suffix r'
  end.

Definition stem (p : string) : string :=
  let n := basename p in
  match String.rev n with
  | String c r =>
      if Ascii.eqb c "."%char then n
      else match cut_suffix r with
           | Some (String d r') => String.rev (String d r')
           | _ => n
           end
  | EmptyString => n
  end.

Definition join (b r : string) : string :=
  if Str.startswith r "/" then r else b +:+ "/" +:+ r.

End PlainPaths.

#[global] Instance plain_paths : PathLib :=
  {| path_join := PlainPaths.join; path_stem := PlainPaths.stem |}.

(** ** Tree type catalog *)

(** A variation is the dictionary [{'filename': f}] or
    [{'filename': f, 'name': n}]. *)
Record Variation : Type := {
  var_filename : string;
  var_name : option string
}.

Record TreeTypeStage : Type := {
  stage_index : Z;
  variations : list Variation
}.

Record TreeTypeDesc : Type := {
  name : string;
  split_type : string;
  title : string;
  stages : list TreeTypeStage
}.

Definition max_stage (d : TreeTypeDesc) : Z := Z.of_nat (length (stages d)).

Record TreeTypeLoader : Type := {
  tree_types : gmap string TreeTypeDesc
}.

(** [TreeTypeLoader()]. *)
Definition new_loader : TreeTypeLoader := {| tree_types := ∅ |}.

(** What the file system holds at the path given to [load_from_xml], for
    the paths on which the call returns. *)
Inductive source : Type :=
| Missing                    (* [xml_path.exists()] is false *)
| Malformed                  (* [ET.parse] raises [ParseError] *)
| Parsed (root : Element).   (* [ET.parse(xml_path).getroot()] *)

(** [ET.parse] can also end with an exception that is not a [ParseError]:
    a [ValueError] for a multi-byte encoding that the parser does not
    support, a [LookupError] for an encoding that it does not know.
    [load_from_xml] has no handler for them. *)
Inductive parse_exn : Type := ValueError | LookupError.

(** A path as a call of [load_from_xml] meets it. *)
Inductive file : Type :=
| Source (src : source)
| Unsupported (e : parse_exn).   (* the file exists, [ET.parse] raises [e] *)

(** How a call of [load_from_xml] ends. *)
Inductive load_outcome : Type :=
| Returns (count : Z)
| Escapes (e : parse_exn).

Section Catalog.

Context `{PathLib}.

(** Resolution of the [$data/] macro against [base_directory]. *)
Definition resolve_data (base_directory : option string) (filename : string) : string :=
  match base_directory with
  | Some b =>
      if Str.startswith filename "$data/" then path_join b (Str.drop 6 filename)
      else filename
  | None => filename
  end.

(** The variations gathered for one [<stage>] element. *)
Definition stage_variations (base_directory : option string) (stage_elem : Element)
  : list Variation :=
  let filename := get stage_elem "filename" in
  if truthy filename then
    [ {| var_filename := resolve_data base_directory (get_or stage_elem "filename" EmptyString);
         var_name := None |} ]
  else
    map (λ var_elem,
           {| var_filename :=
                resolve_data base_directory (get_or var_elem "filename" EmptyString);
              var_name := Some (get_or var_elem "name" EmptyString) |})
        (findall stage_elem "variation").

(** One turn of the loop over the [<stage>] elements; the state is
    [(stages, stage_index)]. *)
Definition add_stage (base_directory : option string)
    (st : list TreeTypeStage * Z) (stage_elem : Element) : list TreeTypeStage * Z :=
  let '(stages, stage_index) := st in
  match stage_variations base_directory stage_elem with
  | [] => st
  | variations =>
      (stages ++ [ {| stage_index := stage_index; variations := variations |} ],
       stage_index + 1)
  end.

Definition parse_stages (base_directory : option string) (tree_type_elem : Element)
  : list TreeTypeStage :=
  (fold_left (add_stage base_directory) (findall tree_type_elem "stage") ([], 1)).1.

(** One turn of the loop over the [<treeType>] elements; the state is
    [(self.tree_types, count)]. *)
Definition add_tree_type (base_directory : option string)
    (st : gmap string TreeTypeDesc * Z) (tree_type_elem : Element)
  : gmap string TreeTypeDesc * Z :=
  let '(types, count) := st in
  let name := get_or tree_type_elem "name" EmptyString in
  match name with
  | EmptyString => st
  | _ =>
      let split_type := get_or tree_type_elem "splitType" (Str.upper name) in
      let title := get_or tree_type_elem "title" name in
      match parse_stages base_directory tree_type_elem with
      | [] => st
      | stages =>
          (<[ Str.upper name :=
                {| name := name; split_type := split_type;
                   title := title; stages := stages |} ]> types,
           count + 1)
      end
  end.

(** [self.load_from_xml(xml_path, base_directory)]: the loader after the
    call and the returned count. *)
Definition load_from_xml (self : TreeTypeLoader) (src : source)
    (base_directory : option string) : TreeTypeLoader * Z :=
  match src with
  | Missing => (self, 0)
  | Malformed => (self, 0)
  | Parsed root =>
      let tree_types_elem :=
        match find_descendant root "treeTypes" with
        | Some e => e
        | None => root
        end in
      let '(types, count) :=
        fold_left (add_tree_type base_directory)
                  (findall tree_types_elem "treeType") (tree_types self, 0) in
      ({| tree_types := types |}, count)
  end.

(** [self.load_from_xml(xml_path, base_directory)] with every way in which
    [ET.parse] can end: the loader after the call and how the call ends.
    An exception that escapes comes from [ET.parse], before the loader is
    touched. *)
Definition load_from_xml_call (self : TreeTypeLoader) (f : file)
    (base_directory : option string) : TreeTypeLoader * load_outcome :=
  match f with
  | Source src =>
      let '(self, count) := load_from_xml self src base_directory in
      (self, Returns count)
  | Unsupported e => (self, Escapes e)
  end.

Definition get_type (self : TreeTypeLoader) (name : string) : option TreeTypeDesc :=
  tree_types self !! Str.upper name.

Definition get_max_stage (self : TreeTypeLoader) (name : string) : Z :=
  match get_type self name with
  | Some tree_type => max_stage tree_type
  | None => dict_get MAX_STAGES (Str.upper name) 5
  end.

(** The inner loop of [find_stage_by_filename]:
    [enumerate(stage.variations, 1)]. *)
Fixpoint find_variation (base_name : string) (vars : list Variation) (var_idx : Z)
  : option Z :=
  match vars with
  | [] => None
  | variation :: rest =>
      let var_filename := var_filename variation in
      let var_base := Str.lower (path_stem var_filename) in
      if String.eqb var_base base_name || Str.contains (Str.lower var_filename) base_name
      then Some var_idx
      else find_variation base_name rest (var_idx + 1)
  end.

Fixpoint find_in_stages (base_name : string) (l : list TreeTypeStage) : option (Z * Z) :=
  match l with
  | [] => None
  | stage :: rest =>
      match find_variation base_name (variations stage) 1 with
      | Some var_idx => Some (stage_index stage, var_idx)
      | None => find_in_stages base_name rest
      end
  end.

Definition find_stage_by_filename (d : TreeTypeDesc) (filename : string) : Z * Z :=
  let base_name := Str.lower (path_stem filename) in
  match find_in_stages base_name (stages d) with
  | Some r => r
  | None => (max_stage d, 1)
  end.

Definition find_stage_and_variation (self : TreeTypeLoader)
    (tree_type_name filename : string) : Z * Z :=
  match get_type self tree_type_name with
  | Some tree_type => find_stage_by_filename tree_type filename
  | None =>
      let stage_match := search_num "stage" (Str.lower filename) in
      let var_match := search_num "var" (Str.lower filename) in
      let stage := match stage_match with
                   | Some d => Str.int_of_digits d
                   | None => get_max_stage self tree_type_name
                   end in
      let variation := match var_match with
                       | Some d => Str.int_of_digits d
                       | None => 1
                       end in
      (stage, variation)
  end.

(** The loader after a sequence of calls of [load_from_xml]. *)
Definition load_all (calls : list (source * option string)) : TreeTypeLoader :=
  fold_left (λ self call, (load_from_xml self call.1 call.2).1) calls new_loader.

End Catalog.

(** The stages of a descriptor are numbered 1, 2, 3, ... in sequence and
    none of them is without variations. *)
Definition stages_contiguous (l : list TreeTypeStage) : Prop :=
  ∀ k st, l !! k = Some st →
    stage_index st = Z.of_nat (S k) ∧ variations st ≠ [].

Definition catalog_ok (self : TreeTypeLoader) : Prop :=
  map_Forall (λ _ d, stages_contiguous (stages d) ∧ stages d ≠ []) (tree_types self).

(** ** Numbers

    The arithmetic of the script is Python's [float] arithmetic.  The
    operations are an interface so that the same definitions can be read
    over binary64 floating point and over exact arithmetic.  The integer
    literals [0] and [1] that the script mixes into its matrices stand for
    the scalars [zero] and [one]. *)

Class Arith (T : Type) : Type := {
  zero : T;
  one : T;
  add : T → T → T;
  mul : T → T → T;
  neg : T → T
}.

(** The functions of the [math] module, [abs], the comparison [<] and the
    literal [0.001]. *)
Class MathLib (T : Type) : Type := {
  cos : T → T;
  sin : T → T;
  asin : T → T;
  atan2 : T → T → T;
  radians : T → T;
  degrees : T → T;
  absolute : T → T;
  ltb : T → T → bool;
  lit_0_001 : T
}.

(** [float(s)]; [None] stands for [ValueError]. *)
Class FloatParse (T : Type) : Type := {
  of_string : string → option T
}.

(** [f"{x:.4f}"]. *)
Class FloatFormat (T : Type) : Type := {
  fmt4 : T → string
}.

Declare Scope scalar_scope.
Delimit Scope scalar_scope with sc.
Infix "+" := add : scalar_scope.
Infix "*" := mul : scalar_scope.
Notation "- x" := (neg x) : scalar_scope.

(** ** Transform engine *)

(** [range(4)]. *)
Inductive ix : Type := I0 | I1 | I2 | I3.

Definition range4 : list ix := [I0; I1; I2; I3].

Record row (T : Type) : Type := Row { c0 : T; c1 : T; c2 : T; c3 : T }.
Record matrix (T : Type) : Type := Mat { r0 : row T; r1 : row T; r2 : row T; r3 : row T }.

Arguments Row {T}.
Arguments c0 {T}.
Arguments c1 {T}.
Arguments c2 {T}.
Arguments c3 {T}.
Arguments Mat {T}.
Arguments r0 {T}.
Arguments r1 {T}.
Arguments r2 {T}.
Arguments r3 {T}.

Section Matrices.

Context {T : Type}.

Definition col (r : row T) (j : ix) : T :=
  match j with I0 => c0 r | I1 => c1 r | I2 => c2 r | I3 => c3 r end.

Definition line (m : matrix T) (i : ix) : row T :=
  match i with I0 => r0 m | I1 => r1 m | I2 => r2 m | I3 => r3 m end.

(** [m[i][j]]. *)
Definition entry (m : matrix T) (i j : ix) : T := col (line m i) j.

(** [[f(j) for j in range(4)]]. *)
Definition row_of (f : ix → T) : row T := Row (f I0) (f I1) (f I2) (f I3).

(** The matrix whose entry [i][j] is [f i j]. *)
Definition matrix_of (f : ix → ix → T) : matrix T :=
  Mat (row_of (f I0)) (row_of (f I1)) (row_of (f I2)) (row_of (f I3)).

(** [r[3] = v]. *)
Definition set_c3 (r : row T) (v : T) : row T := Row (c0 r) (c1 r) (c2 r) v.

Context `{Arith T}.
Local Open Scope scalar_scope.

(** [result[i][j]] starts at [0.0] and receives the four products in
    the order [k = 0, 1, 2, 3]. *)
Definition multiply_matrices (m1 m2 : matrix T) : matrix T :=
  matrix_of (λ i j,
    fold_left (λ acc k, acc + entry m1 i k * entry m2 k j) range4 zero).

Definition identity : matrix T :=
  Mat (Row one zero zero zero) (Row zero one zero zero)
      (Row zero zero one zero) (Row zero zero zero one).

Context `{MathLib T}.

Definition rotation_matrix (rx ry rz : T) : matrix T :=
  let rx := radians rx in
  let ry := radians ry in
  let rz := radians rz in
  let cx := cos rx in let sx := sin rx in
  let cy := cos ry in let sy := sin ry in
  let cz := cos rz in let sz := sin rz in
  Mat (Row (cy * cz) ((- cy) * sz) sy zero)
      (Row (sx * sy * cz + cx * sz) ((- sx) * sy * sz + cx * cz) ((- sx) * cy) zero)
      (Row ((- cx) * sy * cz + sx * sz) (cx * sy * sz + sx * cz) (cx * cy) zero)
      (Row zero zero zero one).

Definition transform_matrix (tx ty tz rx ry rz sx sy sz : T) : matrix T :=
  let rot := rotation_matrix rx ry rz in
  let rot0 := row_of (λ j, col (r0 rot) j * sx) in
  let rot1 := row_of (λ j, col (r1 rot) j * sy) in
  let rot2 := row_of (λ j, col (r2 rot) j * sz) in
  Mat (set_c3 rot0 tx) (set_c3 rot1 ty) (set_c3 rot2 tz) (r3 rot).

(** The builtins [min] and [max] on two arguments: the first argument is
    kept unless the second is strictly smaller (greater). *)
Definition py_min (a b : T) : T := if ltb b a then b else a.
Definition py_max (a b : T) : T := if ltb a b then b else a.

Definition extract_world_transform (m : matrix T) : (T * T * T) * (T * T * T) :=
  let x := entry m I0 I3 in
  let y := entry m I1 I3 in
  let z := entry m I2 I3 in
  let sy := entry m I0 I2 in
  let ry := asin (py_max (- one) (py_min one sy)) in
  let '(rx, rz) :=
    if ltb lit_0_001 (absolute (cos ry))
    then (atan2 (- entry m I1 I2) (entry m I2 I2),
          atan2 (- entry m I0 I1) (entry m I0 I0))
    else (atan2 (entry m I2 I1) (entry m I1 I1), zero) in
  ((x, y, z), (degrees rx, degrees ry, degrees rz)).

End Matrices.

(** ** Exceptions

    The only exception that the modelled code can raise and does not catch
    is the [IndexError] of a subscript on a short tuple. *)

Inductive exn : Type := IndexError.

Inductive result (A : Type) : Type :=
| Ok (a : A)
| Raise (e : exn).

Arguments Ok {A}.
Arguments Raise {A}.

Definition bind {A B : Type} (r : result A) (k : A → result B) : result B :=
  match r with
  | Ok a => k a
  | Raise e => Raise e
  end.

Notation "'try' x <- r ;; k" := (bind r (λ x, k))
  (at level 10, x name, r at level 99, k at level 200, only parsing).

(** [v[i]]. *)
Definition item {A : Type} (v : list A) (i : nat) : result A :=
  match v !! i with
  | Some a => Ok a
  | None => Raise IndexError
  end.

(** [[f(x) for x in l]] where [f] may fail: the first failure wins. *)
Fixpoint all_some {A B : Type} (f : A → option B) (l : list A) : option (list B) :=
  match l with
  | [] => Some []
  | a :: l' =>
      match f a with
      | None => None
      | Some b =>
          match all_some f l' with
          | None => None
          | Some bs => Some (b :: bs)
          end
      end
  end.

Section ParseVector.

Context {T : Type} `{FloatParse T}.

(** [parse_vector(value, default)]; [value] is the result of [elem.get]. *)
Definition parse_vector (value : option string) (default : list T) : list T :=
  match value with
  | Some (String c s) =>
      match all_some of_string (Str.split_ws (String c s)) with
      | Some v => v
      | None => default
      end
  | _ => default
  end.

End ParseVector.

(** ** Scene walker *)

(** A reference to an element of the scene: the child indices that lead
    from the [Scene] element down to it.  The script keeps the Python
    objects [elem] and [parent]; positions identify them. *)
Definition loc : Type := list nat.

Module Tree.

Record TreeInstance (T : Type) : Type := {
  node_name : string;
  tree_type : string;
  x : T; y : T; z : T;
  rx : T; ry : T; rz : T;
  sx : T; sy : T; sz : T;
  growth_state : Z;
  variation_index : Z;
  element : loc;
  parent : loc
}.

Arguments node_name {T}.
Arguments tree_type {T}.
Arguments x {T}.
Arguments y {T}.
Arguments z {T}.
Arguments rx {T}.
Arguments ry {T}.
Arguments rz {T}.
Arguments sx {T}.
Arguments sy {T}.
Arguments sz {T}.
Arguments growth_state {T}.
Arguments variation_index {T}.
Arguments element {T}.
Arguments parent {T}.

End Tree.

Abbreviation TreeInstance := Tree.TreeInstance.

(** The fields of [I3DTreeExtractor] that [__init__] sets from the parsed
    file: [ns] is the namespace URI held by [self.ns], if any. *)
Record I3DTreeExtractor : Type := {
  root : Element;
  ns : option string;
  tree_type_loader : option TreeTypeLoader
}.

(** The accumulators [self.trees] and [self.tree_parents]. *)
Record scan_state (T : Type) : Type := {
  trees : list (TreeInstance T);
  tree_parents : list loc
}.

Arguments trees {T}.
Arguments tree_parents {T}.

(** [s.replace(old, '')] for a non-empty [old]: occurrences are removed
    from left to right without overlap; [skip] counts the characters of a
    removed occurrence that are still to be passed over. *)
Fixpoint remove_all (old : string) (skip : nat) (s : string) : string :=
  match s with
  | EmptyString => EmptyString
  | String c s' =>
      match skip with
      | S k => remove_all old k s'
      | O =>
          if Str.startswith s old then remove_all old (String.length old - 1) s'
          else String c (remove_all old 0 s')
      end
  end.

(** The tag with the namespace prefix removed. *)
Definition local_tag (self : I3DTreeExtractor) (t : string) : string :=
  match ns self with
  | Some uri => remove_all ("{" +:+ uri +:+ "}") 0 t
  | None => t
  end.

(** [self._find_element(t)]. *)
Definition find_element (self : I3DTreeExtractor) (t : string) : option Element :=
  match ns self with
  | Some uri => find_descendant (root self) ("{" +:+ uri +:+ "}" +:+ t)
  | None => find_descendant (root self) t
  end.

(** [tag in ('TransformGroup', 'Shape', 'ReferenceNode')]. *)
Definition scanned_tag (t : string) : bool :=
  String.eqb t "TransformGroup" || String.eqb t "Shape" || String.eqb t "ReferenceNode".

(** A loop over the children of an element together with their index. *)
Definition for_children {S : Type} (f : nat → Element → S → result S)
  : list Element → nat → S → result S :=
  fix go (l : list Element) (i : nat) (st : S) : result S :=
    match l with
    | [] => Ok st
    | child :: l' =>
        try st' <- f i child st ;; go l' (Datatypes.S i) st'
    end.

Section Walker.

Context {T : Type} `{Arith T} `{MathLib T} `{FloatParse T} `{PathLib}.

Variable self : I3DTreeExtractor.

(** One turn of the loop of [_build_file_id_map]. *)
Definition file_entry (m : gmap (option string) (string * Z * Z)) (elem : Element)
  : gmap (option string) (string * Z * Z) :=
  if String.eqb (local_tag self (tag elem)) "File" then
    let file_id := get elem "fileId" in
    let filename := get_or elem "filename" EmptyString in
    if Str.contains filename "/trees/" && Str.endswith filename ".i3d" then
      let basename := path_stem filename in
      match detect_tree_type basename with
      | Some (tree_type, max_stage) =>
          let '(stage, variation) :=
            match tree_type_loader self with
            | Some loader => find_stage_and_variation loader tree_type basename
            | None =>
                (match search_num "stage" (Str.lower basename) with
                 | Some d => Str.int_of_digits d
                 | None => max_stage
                 end,
                 match search_num "var" (Str.lower basename) with
                 | Some d => Str.int_of_digits d
                 | None => 1
                 end)
            end in
          <[ file_id := (tree_type, stage, variation) ]> m
      | None => m
      end
    else m
  else m.

(** [self.file_id_to_tree_type] after [self._build_file_id_map()]. *)
Definition build_file_id_map : gmap (option string) (string * Z * Z) :=
  fold_left file_entry (iter (root self)) ∅.

Variable file_id_to_tree_type : gmap (option string) (string * Z * Z).
Variable parent_name : option string.

(** [parent_name and name.lower() == parent_name.lower()]. *)
Definition is_tree_parent (name : string) : bool :=
  match parent_name with
  | Some (String c s) => String.eqb (Str.lower name) (Str.lower (String c s))
  | _ => false
  end.

(** [not parent_name or in_tree_parent]. *)
Definition collecting (in_tree_parent : bool) : bool :=
  negb (truthy parent_name) || in_tree_parent.

(** [ref_id and ref_id in self.file_id_to_tree_type], with the entry. *)
Definition resolve_reference (ref_id : option string) : option (string * Z * Z) :=
  if truthy ref_id then file_id_to_tree_type !! ref_id else None.

Definition note_tree_parent (here : loc) (st : scan_state T) : scan_state T :=
  if bool_decide (here ∈ tree_parents st) then st
  else {| trees := trees st; tree_parents := tree_parents st ++ [here] |}.

Definition append_tree (t : TreeInstance T) (st : scan_state T) : scan_state T :=
  {| trees := trees st ++ [t]; tree_parents := tree_parents st |}.

Definition make_tree (name tree_type : string) (m : matrix T) (scale : T * T * T)
    (stage variation : Z) (here parent : loc) : TreeInstance T :=
  let '(world_pos, world_rot) := extract_world_transform m in
  let '(px, py, pz) := world_pos in
  let '(wx, wy, wz) := world_rot in
  let '(s0, s1, s2) := scale in
  {| Tree.node_name := name; Tree.tree_type := tree_type;
     Tree.x := px; Tree.y := py; Tree.z := pz;
     Tree.rx := wx; Tree.ry := wy; Tree.rz := wz;
     Tree.sx := s0; Tree.sy := s1; Tree.sz := s2;
     Tree.growth_state := stage; Tree.variation_index := variation;
     Tree.element := here; Tree.parent := parent |}.

(** The world matrix of a node: local transform composed under the
    parent's.  The subscripts on the parsed vectors may raise. *)
Definition node_matrix (elem : Element) (parent_matrix : matrix T)
  : result (matrix T * (T * T * T)) :=
  let trans := parse_vector (get elem "translation") [zero; zero; zero] in
  let rot := parse_vector (get elem "rotation") [zero; zero; zero] in
  let scale := parse_vector (get elem "scale") [one; one; one] in
  try t0 <- item trans 0 ;; try t1 <- item trans 1 ;; try t2 <- item trans 2 ;;
  try a0 <- item rot 0 ;; try a1 <- item rot 1 ;; try a2 <- item rot 2 ;;
  try s0 <- item scale 0 ;; try s1 <- item scale 1 ;; try s2 <- item scale 2 ;;
  let local_matrix := transform_matrix t0 t1 t2 a0 a1 a2 s0 s1 s2 in
  Ok (multiply_matrices parent_matrix local_matrix, (s0, s1, s2)).

(** The two classification branches of [scan_node]. *)
Definition classify (elem : Element) (here parent : loc) (world_matrix : matrix T)
    (scale : T * T * T) (in_tree_parent : bool) (st : scan_state T) : scan_state T :=
  let tag := local_tag self (tag elem) in
  let name := get_or elem "name" EmptyString in
  if String.eqb tag "ReferenceNode" then
    let ref_id := get elem "referenceId" in
    match resolve_reference ref_id with
    | Some (tree_type, stage, variation) =>
        if collecting in_tree_parent then
          append_tree (make_tree name tree_type world_matrix scale
                                 stage variation here parent) st
        else st
    | None => st
    end
  else if String.eqb tag "TransformGroup" || String.eqb tag "Shape" then
    match detect_tree_type name with
    | Some (tree_type, max_stage) =>
        if collecting in_tree_parent then
          let growth_state :=
            match search_num "stage" (Str.lower name) with
            | Some d => Str.int_of_digits d
            | None => max_stage
            end in
          let variation :=
            match search_num "var" (Str.lower name) with
            | Some d => Str.int_of_digits d
            | None => 1
            end in
          append_tree (make_tree name tree_type world_matrix scale
                                 growth_state variation here parent) st
        else st
    | None => st
    end
  else st.

Fixpoint scan_node (elem : Element) (here parent : loc) (parent_matrix : matrix T)
    (in_tree_parent : bool) (st : scan_state T) {struct elem}
  : result (scan_state T) :=
  let name := get_or elem "name" EmptyString in
  let hit := is_tree_parent name in
  let in_tree_parent := in_tree_parent || hit in
  let st := if hit then note_tree_parent here st else st in
  try ws <- node_matrix elem parent_matrix ;;
  let '(world_matrix, scale) := ws in
  let st := classify elem here parent world_matrix scale in_tree_parent st in
  let 'Elem _ _ cs := elem in
  for_children
    (λ i child st,
       if scanned_tag (local_tag self (tag child))
       then scan_node child (here ++ [i]) here world_matrix in_tree_parent st
       else Ok st)
    cs 0%nat st.

End Walker.

Section FindTrees.

Context {T : Type} `{Arith T} `{MathLib T} `{FloatParse T} `{PathLib}.

(** [self.find_trees(parent_name)]: the value returned, or the exception
    that leaves the call. *)
Definition find_trees (self : I3DTreeExtractor) (parent_name : option string)
  : result (list (TreeInstance T)) :=
  let files := build_file_id_map self in
  match find_element self "Scene" with
  | None => Ok []
  | Some scene =>
      try st <-
        for_children
          (λ i child st,
             scan_node self files parent_name child [i] [] identity
                       (negb (bool_decide (is_Some parent_name))) st)
          (children scene) 0%nat {| trees := []; tree_parents := [] |} ;;
      Ok (trees st)
  end.

End FindTrees.

(** ** Serializer *)

Section Serializer.

Context {T : Type} `{FloatFormat T}.

Definition quoted (key value : string) : string :=
  key +:+ "=" +:+ Str.dq +:+ value +:+ Str.dq.

(** The stage from which a tree of this type no longer grows. *)
Definition final_stage (loader : option TreeTypeLoader) (tree_type : string) : Z :=
  match loader with
  | Some l => get_max_stage l tree_type
  | None => dict_get MAX_STAGES (Str.upper tree_type) 5
  end.

Definition is_at_final_stage (loader : option TreeTypeLoader) (tree : TreeInstance T)
  : bool :=
  final_stage loader (Tree.tree_type tree) <=? Tree.growth_state tree.

(** The list [attrs] at the end of one turn of the loop. *)
Definition tree_attrs (loader : option TreeTypeLoader) (tree : TreeInstance T)
  : list string :=
  let pos := fmt4 (Tree.x tree) +:+ " " +:+ fmt4 (Tree.y tree) +:+ " "
             +:+ fmt4 (Tree.z tree) in
  let rot := fmt4 (Tree.rx tree) +:+ " " +:+ fmt4 (Tree.ry tree) +:+ " "
             +:+ fmt4 (Tree.rz tree) in
  let attrs :=
    [ quoted "treeType" (Str.upper (Tree.tree_type tree));
      quoted "position" pos;
      quoted "rotation" rot;
      quoted "growthStateI" (Str.str_of_int (Tree.growth_state tree)) ] in
  let attrs :=
    if Tree.variation_index tree =? 1 then attrs
    else attrs ++ [ quoted "variationIndex"
                           (Str.str_of_int (Tree.variation_index tree)) ] in
  let attrs :=
    if is_at_final_stage loader tree
    then attrs ++ [ quoted "isGrowing" "false" ]
    else attrs ++ [ quoted "isGrowing" "true" ] in
  attrs ++ [ quoted "splitShapeFileId" "-1" ].

Definition tree_line (loader : option TreeTypeLoader) (tree : TreeInstance T) : string :=
  "    <tree " +:+ Str.join " " (tree_attrs loader tree) +:+ "/>".

(** One turn of the loop; the state is
    [(lines, final_stage_count, growing_count)]. *)
Definition emit_tree (loader : option TreeTypeLoader)
    (st : list string * Z * Z) (tree : TreeInstance T) : list string * Z * Z :=
  let '(lines, final_stage_count, growing_count) := st in
  let lines := lines ++ [tree_line loader tree] in
  if is_at_final_stage loader tree
  then (lines, final_stage_count + 1, growing_count)
  else (lines, final_stage_count, growing_count + 1).

Definition xml_declaration : string :=
  "<?xml " +:+ quoted "version" "1.0" +:+ " " +:+ quoted "encoding" "utf-8"
  +:+ " " +:+ quoted "standalone" "no" +:+ "?>".

(** [generate_treeplant_xml(trees, output_path, loader)]: the lines that
    are joined into the output file and the two printed counters. *)
Definition generate_treeplant_xml (trees : list (TreeInstance T))
    (loader : option TreeTypeLoader) : list string * Z * Z :=
  let '(lines, final_stage_count, growing_count) :=
    fold_left (emit_tree loader) trees ([xml_declaration; "<treePlant>"], 0, 0) in
  (lines ++ ["</treePlant>"], final_stage_count, growing_count).

End Serializer.

(** ** Instances of the numeric interfaces *)

(** IEEE 754 binary64, the arithmetic of Python's [float]. *)
#[global] Instance float_arith : Arith PrimFloat.float :=
  {| zero := 0%float; one := 1%float;
     add := PrimFloat.add; mul := PrimFloat.mul; neg := PrimFloat.opp |}.

(** Exact arithmetic on integers; a whole number [n] is printed as
    [f"{float(n):.4f}"] prints it. *)
#[global] Instance Z_arith : Arith Z :=
  {| zero := 0; one := 1; add := Z.add; mul := Z.mul; neg := Z.opp |}.

#[global] Instance Z_format : FloatFormat Z :=
  {| fmt4 := λ n, Str.str_of_int n +:+ ".0000" |}.

Module RealModel.

Local Open Scope R_scope.

(** [math.atan2(y, x)] on the reals: the angle of the point [(x, y)] in
    the interval from [-PI] (excluded) to [PI]. *)
Definition atan2_R (y x : R) : R :=
  if Rlt_dec 0 x then atan (y / x)
  else if Rlt_dec x 0 then
         if Rle_dec 0 y then atan (y / x) + PI else atan (y / x) - PI
  else if Rlt_dec 0 y then PI / 2
  else if Rlt_dec y 0 then - (PI / 2)
  else 0.

Definition ltb_R (a b : R) : bool := if Rlt_dec a b then true else false.

#[global] Instance arith : Arith R :=
  {| zero := 0; one := 1; add := Rplus; mul := Rmult; neg := Ropp |}.

#[global] Instance mathlib : MathLib R :=
  {| cos := Rtrigo_def.cos; sin := Rtrigo_def.sin; asin := Ratan.asin;
     atan2 := atan2_R;
     radians := λ d, d * (PI / 180);
     degrees := λ r, r * (180 / PI);
     absolute := Rabs;
     ltb := ltb_R;
     lit_0_001 := 1 / 1000 |}.

(** The floats have two zeros and [math.atan2] looks at their signs: for
    a zero [y] and a negative [x] it answers [pi] when the zero is [0.0]
    and [-pi] when it is [-0.0], and for a zero [y] and a zero [x] it
    answers a zero when [x] is [0.0] and [pi] or [-pi] when [x] is
    [-0.0].  A real number has no sign at zero, so the signs are given
    apart: [signs y x] says whether the zero [y], and whether the zero
    [x], is the negative one.  [atan2_R] is the function for which every
    zero is the positive one. *)
Definition atan2_signed (signs : R → R → bool * bool) (y x : R) : R :=
  if Req_dec_T y 0 then
    if Rlt_dec x 0 then (if (signs y x).1 then - PI else PI)
    else if Rlt_dec 0 x then 0
    else if (signs y x).2 then (if (signs y x).1 then - PI else PI)
    else 0
  else atan2_R y x.

(** The functions of [math] on the reals, with the signs of the zeros
    that [atan2] meets. *)
Definition mathlib_signed (signs : R → R → bool * bool) : MathLib R :=
  {| cos := Rtrigo_def.cos; sin := Rtrigo_def.sin; asin := Ratan.asin;
     atan2 := atan2_signed signs;
     radians := λ d, d * (PI / 180);
     degrees := λ r, r * (180 / PI);
     absolute := Rabs;
     ltb := ltb_R;
     lit_0_001 := 1 / 1000 |}.

(** The decimal literals among the texts that [float] reads: an optional
    sign, digits with an optional fraction (one of the two sides of the
    point may be empty) and an optional exponent.  The spellings of
    infinity and of not-a-number have no real value and are not read. *)
Definition all_digits (s : string) : bool :=
  match s with
  | EmptyString => false
  | _ => String.eqb (Str.take_digits s) s
  end.

Definition signed_digits (s : string) : option Z :=
  match s with
  | String "-"%char d => if all_digits d then Some (- Str.int_of_digits d)%Z else None
  | String "+"%char d => if all_digits d then Some (Str.int_of_digits d) else None
  | _ => if all_digits s then Some (Str.int_of_digits s) else None
  end.

(** Mantissa and power of ten of an unsigned literal. *)
Definition unsigned_literal (s : string) : option (Z * Z) :=
  let whole := Str.take_digits s in
  let rest := Str.drop (String.length whole) s in
  let '(frac, rest) :=
    match rest with
    | String "."%char r =>
        (Str.take_digits r, Str.drop (String.length (Str.take_digits r)) r)
    | _ => (EmptyString, rest)
    end in
  if (String.length whole + String.length frac =? 0)%nat then None
  else
    let mantissa := Str.int_of_digits (whole +:+ frac) in
    let shift := (- Z.of_nat (String.length frac))%Z in
    match rest with
    | EmptyString => Some (mantissa, shift)
    | String c r =>
        if Ascii.eqb c "e"%char || Ascii.eqb c "E"%char then
          match signed_digits r with
          | Some e => Some (mantissa, (shift + e)%Z)
          | None => None
          end
        else None
    end.

Definition scaled (mantissa exponent : Z) : R :=
  if (0 <=? exponent)%Z then IZR (mantissa * 10 ^ exponent)
  else IZR mantissa / IZR (10 ^ (- exponent)).

Definition float_of_literal (s : string) : option R :=
  match s with
  | String "-"%char u => (λ me, scaled (- me.1) me.2) <$> unsigned_literal u
  | String "+"%char u => (λ me, scaled me.1 me.2) <$> unsigned_literal u
  | _ => (λ me, scaled me.1 me.2) <$> unsigned_literal s
  end.

(** [float] allows one underscore between two digits: the text without
    such underscores, [None] when an underscore stands anywhere else. *)
Fixpoint drop_underscores (after_digit : bool) (s : string) : option string :=
  match s with
  | EmptyString => Some EmptyString
  | String c s' =>
      if Ascii.eqb c "_"%char then
        if after_digit && Str.starts_with_digit s' then drop_underscores false s'
        else None
      else String c <$> drop_underscores (Str.is_digit c) s'
  end.

Definition float_of_string (s : string) : option R :=
  match drop_underscores false s with
  | Some literal => float_of_literal literal
  | None => None
  end.

#[global] Instance parse : FloatParse R :=
  {| of_string := float_of_string |}.

End RealModel.


(** ** Worked documents *)

(** [<stage filename="..."/>]. *)
Definition stage_with_file (filename : string) : Element :=
  Elem "stage" [("filename", filename)] [].

(** A descriptor file that defines the type OAK with three stages. *)
Definition oak_source_A : Element :=
  Elem "map" []
    [ Elem "treeTypes" []
        [ Elem "treeType" [("name", "OAK"); ("title", "Oak")]
            [ stage_with_file "trees/oak/oak_stage01.i3d";
              stage_with_file "trees/oak/oak_stage02.i3d";
              stage_with_file "trees/oak/oak_stage03.i3d" ] ] ].

(** A descriptor file that defines the type again, spelled [oak], with
    five stages. *)
Definition oak_source_B : Element :=
  Elem "map" []
    [ Elem "treeTypes" []
        [ Elem "treeType" [("name", "oak")]
            [ stage_with_file "$data/maps/trees/oak/oak_stage01.i3d";
              stage_with_file "$data/maps/trees/oak/oak_stage02.i3d";
              stage_with_file "$data/maps/trees/oak/oak_stage03.i3d";
              stage_with_file "$data/maps/trees/oak/oak_stage04.i3d";
              stage_with_file "$data/maps/trees/oak/oak_stage05.i3d" ] ] ].

(** The laws of exact arithmetic: a commutative semiring. *)
Abbreviation exact_arith T :=
  (semi_ring_theory (zero : T) one add mul (@eq T)).

(** Scaling along the first axis by [s], as [transform_matrix] builds it
    for the scale [(s, 1, 1)] without rotation and translation. *)
Definition scale_x {T : Type} `{Arith T} (s : T) : matrix T :=
  Mat (Row s zero zero zero) (Row zero one zero zero)
      (Row zero zero one zero) (Row zero zero zero one).

(** Translation by [t] along the first axis: the identity with [t] in the
    last column of the first row. *)
Definition translate_x {T : Type} `{Arith T} (t : T) : matrix T :=
  Mat (Row one zero zero t) (Row zero one zero zero)
      (Row zero zero one zero) (Row zero zero zero one).

(** ** Decomposition of a built transform, over the reals *)

(** [extract_world_transform(transform_matrix(t, r, (1, 1, 1)))]. *)
Definition decompose_of_build (t r : R * R * R) : (R * R * R) * (R * R * R) :=
  let '(tx, ty, tz) := t in
  let '(rx, ry, rz) := r in
  extract_world_transform (transform_matrix tx ty tz rx ry rz 1%R 1%R 1%R).

(** [extract_world_transform(m)] with the signs of the zeros that [atan2]
    meets. *)
Definition extract_signed (signs : R → R → bool * bool) (m : matrix R)
  : (R * R * R) * (R * R * R) :=
  @extract_world_transform R RealModel.arith (RealModel.mathlib_signed signs) m.

(** [extract_world_transform(transform_matrix(t, r, (1, 1, 1)))] with the
    signs of the zeros; [transform_matrix] calls no [atan2]. *)
Definition decompose_signed (signs : R → R → bool * bool) (t r : R * R * R)
  : (R * R * R) * (R * R * R) :=
  let '(tx, ty, tz) := t in
  let '(rx, ry, rz) := r in
  extract_signed signs (transform_matrix tx ty tz rx ry rz 1%R 1%R 1%R).

(** The decomposition gives back [t] and, within [eps] per angle, [r]. *)
Definition recovers_within (eps : R) (t r : R * R * R) : Prop :=
  let '(rx, ry, rz) := r in
  let '(pos, (rx', ry', rz')) := decompose_of_build t r in
  pos = t ∧
  (Rabs (rx' - rx) < eps)%R ∧ (Rabs (ry' - ry) < eps)%R ∧ (Rabs (rz' - rz) < eps)%R.

(** ** Reading the walk off the document

    The outcome of the traversal in terms of the document alone, without
    the geometry: which nodes are asked for a tree and which answer. *)

Section WalkSpec.

Variable self : I3DTreeExtractor.
Variable file_id_to_tree_type : gmap (option string) (string * Z * Z).
Variable parent_name : option string.

(** The node is a tree for [scan_node]: a reference node whose reference
    resolves, or a transform group or shape with the name of a tree,
    visited while collecting. *)
Definition yields (elem : Element) (in_tree_parent : bool) : bool :=
  let tag := local_tag self (tag elem) in
  if String.eqb tag "ReferenceNode" then
    bool_decide (is_Some (resolve_reference file_id_to_tree_type (get elem "referenceId")))
    && collecting parent_name in_tree_parent
  else if String.eqb tag "TransformGroup" || String.eqb tag "Shape" then
    bool_decide (is_Some (detect_tree_type (get_or elem "name" EmptyString)))
    && collecting parent_name in_tree_parent
  else false.

Definition named_as_parent (elem : Element) : bool :=
  is_tree_parent parent_name (get_or elem "name" EmptyString).

Definition scanned (elem : Element) : bool := scanned_tag (local_tag self (tag elem)).

(** [emitted elem flag q]: the scan of [elem], entered with the flag
    [in_tree_parent = flag], reaches the node at the relative position [q]
    and that node is a tree. *)
Fixpoint emitted (elem : Element) (in_tree_parent : bool) (q : loc) : bool :=
  let in_tree_parent := in_tree_parent || named_as_parent elem in
  match q with
  | [] => yields elem in_tree_parent
  | i :: q' =>
      match children elem !! i with
      | Some child => scanned child && emitted child in_tree_parent q'
      | None => false
      end
  end.

End WalkSpec.

(** The nodes from [elem] down to the node at the relative position [q],
    both included. *)
Fixpoint chain (elem : Element) (q : loc) : option (list Element) :=
  match q with
  | [] => Some [elem]
  | i :: q' =>
      match children elem !! i with
      | Some child => cons elem <$> chain child q'
      | None => None
      end
  end.

(** The three transform vectors of a node have their three components. *)
Definition vectors_ok {T : Type} `{Arith T} `{FloatParse T} (elem : Element) : Prop :=
  (3 ≤ length (parse_vector (get elem "translation") [zero; zero; zero]))%nat ∧
  (3 ≤ length (parse_vector (get elem "rotation") [zero; zero; zero]))%nat ∧
  (3 ≤ length (parse_vector (get elem "scale") [one; one; one]))%nat.

(** A map with one tree asset: a tree outside and a tree inside a group
    named [Trees], and in that group a reference node with the name of a
    tree whose reference is not in the file table, with a tree below it. *)
Definition demo_tree1 : Element :=
  Elem "ReferenceNode"
    [("name", "tree1"); ("referenceId", "1");
     ("translation", "10 0 20"); ("rotation", "0 45 0")] [].

Definition demo_groupA : Element :=
  Elem "TransformGroup" [("name", "groupA"); ("translation", "5 0 0")] [demo_tree1].

Definition demo_tree2 : Element :=
  Elem "ReferenceNode" [("name", "tree2"); ("referenceId", "1")] [].

Definition demo_tree3 : Element :=
  Elem "ReferenceNode" [("name", "tree3"); ("referenceId", "1")] [].

Definition demo_unresolved : Element :=
  Elem "ReferenceNode" [("name", "oak_stage03"); ("referenceId", "7")] [demo_tree3].

Definition demo_trees_group : Element :=
  Elem "TransformGroup" [("name", "Trees")] [demo_tree2; demo_unresolved].

Definition demo_scene : Element :=
  Elem "Scene" [] [demo_groupA; demo_trees_group].

Definition demo_root : Element :=
  Elem "i3D" []
    [ Elem "Files" []
        [ Elem "File" [("fileId", "1");
                       ("filename", "$data/maps/trees/oak/oak_stage05.i3d")] [] ];
      demo_scene ].

Definition demo : I3DTreeExtractor :=
  {| root := demo_root; ns := None; tree_type_loader := None |}.

(** A scene whose only node has a translation of two components. *)
Definition short_vector_root : Element :=
  Elem "i3D" []
    [ Elem "Scene" []
        [ Elem "TransformGroup" [("name", "group"); ("translation", "1 2")] [] ] ].

Definition short_vector_demo : I3DTreeExtractor :=
  {| root := short_vector_root; ns := None; tree_type_loader := None |}.

(** A group named [trees] that holds a light, and below the light a
    reference to the tree asset. *)
Definition light_tree : Element :=
  Elem "ReferenceNode" [("name", "tree1"); ("referenceId", "1")] [].

Definition light_lamp : Element :=
  Elem "Light" [("name", "lamp")] [light_tree].

Definition light_group : Element :=
  Elem "TransformGroup" [("name", "trees")] [light_lamp].

Definition light_root : Element :=
  Elem "i3D" []
    [ Elem "Files" []
        [ Elem "File" [("fileId", "1");
                       ("filename", "$data/maps/trees/oak/oak_stage05.i3d")] [] ];
      Elem "Scene" [] [light_group] ].

Definition light_demo : I3DTreeExtractor :=
  {| root := light_root; ns := None; tree_type_loader := None |}.

(** The tree of the worked map that stands at (15, 0, 20), turned by 45
    degrees, fully grown. *)
Definition demo_oak : TreeInstance Z :=
  {| Tree.node_name := "tree1"; Tree.tree_type := "oak";
     Tree.x := 15; Tree.y := 0; Tree.z := 20;
     Tree.rx := 0; Tree.ry := 45; Tree.rz := 0;
     Tree.sx := 1; Tree.sy := 1; Tree.sz := 1;
     Tree.growth_state := 5; Tree.variation_index := 1;
     Tree.element := [0; 0]%nat; Tree.parent := [0]%nat |}.

(** The world matrices of the nodes of the worked map, as the walk
    composes them. *)
Definition demo_world_groupA : matrix R :=
  multiply_matrices identity (transform_matrix 5 0 0 0 0 0 1 1 1)%R.

Definition demo_world_tree1 : matrix R :=
  multiply_matrices demo_world_groupA (transform_matrix 10 0 20 0 45 0 1 1 1)%R.

Definition unmoved : matrix R := (transform_matrix 0 0 0 0 0 0 1 1 1)%R.

Definition demo_world_tree2 : matrix R :=
  multiply_matrices (multiply_matrices identity unmoved) unmoved.

Definition demo_trees_inside : list (TreeInstance R) :=
  [ make_tree "tree2" "oak" demo_world_tree2 (1, 1, 1)%R 5 1 [1; 0]%nat [1]%nat;
    make_tree "tree3" "oak" (multiply_matrices demo_world_tree2 unmoved) (1, 1, 1)%R
              5 1 [1; 1; 0]%nat [1; 1]%nat ].

Definition demo_tree1_found : TreeInstance R :=
  make_tree "tree1" "oak" demo_world_tree1 (1, 1, 1)%R 5 1 [0; 0]%nat [0]%nat.
(** * Further definitions *)

(** ** The record that the walk builds at a node *)

Section WorldAlong.

Context {T : Type} `{Arith T} `{MathLib T} `{FloatParse T}.

(** The world matrix and the scale that [scan_node] has at the last node
    of the path [e :: rest] when it enters [e] with [parent_matrix]: the
    [world_matrix] of each node is the [parent_matrix] of the next. *)
Fixpoint world_along (parent_matrix : matrix T) (e : Element) (rest : list Element)
  : result (matrix T * (T * T * T)) :=
  match rest with
  | [] => node_matrix e parent_matrix
  | child :: rest' =>
      try ws <- node_matrix e parent_matrix ;;
      world_along ws.1 child rest'
  end.

Variable self : I3DTreeExtractor.
Variable file_id_to_tree_type : gmap (option string) (string * Z * Z).

(** The type, growth stage and variation that the two branches of
    [scan_node] give to a node, before the filter is asked: the entry of
    the file table for a reference node, the classifier and the numbers in
    the name for a transform group or shape. *)
Definition tree_data (elem : Element) : option (string * Z * Z) :=
  let tag := local_tag self (tag elem) in
  let name := get_or elem "name" EmptyString in
  if String.eqb tag "ReferenceNode" then
    resolve_reference file_id_to_tree_type (get elem "referenceId")
  else if String.eqb tag "TransformGroup" || String.eqb tag "Shape" then
    match detect_tree_type name with
    | Some (tree_type, max_stage) =>
        Some (tree_type,
              match search_num "stage" (Str.lower name) with
              | Some d => Str.int_of_digits d
              | None => max_stage
              end,
              match search_num "var" (Str.lower name) with
              | Some d => Str.int_of_digits d
              | None => 1
              end)
    | None => None
    end
  else None.

(** What is known of a tree [t] that the scan of [elem], entered at the
    position [here] below [parent] with the matrix [pm], has added. *)
Definition built_below (elem : Element) (here parent : loc) (pm : matrix T)
    (t : TreeInstance T) : Prop :=
  ∃ q r e wm scale ty stage var,
    chain elem q = Some (elem :: r) ∧
    Forall (λ n, scanned self n = true) r ∧
    last (elem :: r) = Some e ∧
    world_along pm elem r = Ok (wm, scale) ∧
    tree_data e = Some (ty, stage, var) ∧
    t = make_tree (get_or e "name" EmptyString) ty wm scale stage var
                  (here ++ q)
                  (match q with [] => parent | _ => removelast (here ++ q) end).

End WorldAlong.

(** ** Matching a file name against the catalog *)

(** The test of [find_stage_by_filename] on one variation: the stem of
    its file name is [base_name], or [base_name] occurs in its file
    name, both in small letters. *)
Definition file_matches `{PathLib} (base_name : string) (variation : Variation) : bool :=
  String.eqb (Str.lower (path_stem (var_filename variation))) base_name
  || Str.contains (Str.lower (var_filename variation)) base_name.

(** ** Document order *)

(** Document order on positions: a node comes before the nodes below it,
    and the nodes at and below a child come before those at and below
    the children after it. *)
Fixpoint loc_lt (p q : loc) : Prop :=
  match p, q with
  | [], [] => False
  | [], _ :: _ => True
  | _ :: _, [] => False
  | i :: p', j :: q' => (i < j)%nat ∨ (i = j ∧ loc_lt p' q')
  end.

(** Each position of the list comes before all the later ones. *)
Fixpoint in_document_order (l : list loc) : Prop :=
  match l with
  | [] => True
  | p :: l' => Forall (loc_lt p) l' ∧ in_document_order l'
  end.

(** ** Loading the catalog of a map *)

(** How [load_from_map] ends: with the total it returns, or with the
    [FileNotFoundError] of [ET.parse(map_xml_path)], which it does not
    catch. *)
Inductive map_outcome : Type :=
| Total (total : Z)
| FileNotFound.

Module PlainParent.

(** The reversed path after its last component and the ['/'] before it. *)
Fixpoint cut_component (rev_path : string) : option string :=
  match rev_path with
  | EmptyString => None
  | String c r => if Ascii.eqb c "/"%char then Some r else cut_component r
  end.

(** [str(Path(p).parent)] for a forward-slash path that needs no
    normalisation. *)
Definition parent (p : string) : string :=
  match cut_component (String.rev p) with
  | None => "."
  | Some EmptyString => "/"
  | Some r => String.rev r
  end.

End PlainParent.

Section LoadFromMap.

Context `{PathLib}.

(** [str(path.parent)]. *)
Variable path_parent : string → string.

(** What the file system holds at each path: a file system whose files
    [ET.parse] reads or rejects with [ParseError]. *)
Variable fs : string → source.

(** [path.exists()]. *)
Definition path_exists (p : string) : bool :=
  match fs p with
  | Missing => false
  | _ => true
  end.

(** The loop over [possible_paths] with its [break]: the first path that
    exists is loaded; the state is [(self, total)]. *)
Fixpoint load_first_existing (self : TreeTypeLoader) (map_dir : string)
    (possible_paths : list string) (total : Z) : TreeTypeLoader * Z :=
  match possible_paths with
  | [] => (self, total)
  | map_tree_types_path :: rest =>
      if path_exists map_tree_types_path then
        let '(self, loaded) :=
          load_from_xml self (fs map_tree_types_path) (Some map_dir) in
        (self, total + loaded)
      else load_first_existing self map_dir rest total
  end.

(** [self.load_from_map(map_xml_path, game_data_path)]: the loader after
    the call and the way the call ends. *)
Definition load_from_map (self : TreeTypeLoader) (map_xml_path : string)
    (game_data_path : option string) : TreeTypeLoader * map_outcome :=
  let total := 0 in
  let map_dir := path_parent map_xml_path in
  let '(self, total) :=
    match game_data_path with
    | Some game_data =>
        let base_types_path :=
          path_join (path_join game_data "maps") "maps_treeTypes.xml" in
        if path_exists base_types_path then
          let '(self, loaded) :=
            load_from_xml self (fs base_types_path) (Some game_data) in
          (self, total + loaded)
        else (self, total)
    | None => (self, total)
    end in
  match fs map_xml_path with
  | Missing => (self, FileNotFound)
  | Malformed => (self, Total total)
  | Parsed root =>
      match find_descendant root "treeTypes" with
      | Some tree_types_elem =>
          let filename := get_or tree_types_elem "filename" EmptyString in
          match filename with
          | EmptyString => (self, Total total)
          | _ =>
              let possible_paths :=
                [path_join map_dir filename]
                ++ (if Str.startswith filename "map/"
                    then [path_join map_dir (Str.drop 4 filename)]
                    else []) in
              let '(self, total) :=
                load_first_existing self map_dir possible_paths total in
              (self, Total total)
          end
      | None => (self, Total total)
      end
  end.

End LoadFromMap.

(** A map folder: [map.xml] names the tree types file with the prefix
    [map/], which is not part of the path on disk; the file defines the
    type [oak] with five stages.  The game data hold a base file that
    defines [OAK] with three stages. *)
Definition demo_map_xml : Element :=
  Elem "map" [] [ Elem "treeTypes" [("filename", "map/config/treeTypes.xml")] [] ].

Definition demo_fs (p : string) : source :=
  if String.eqb p "mods/demo/map.xml" then Parsed demo_map_xml
  else if String.eqb p "mods/demo/config/treeTypes.xml" then Parsed oak_source_B
  else if String.eqb p "game/data/maps/maps_treeTypes.xml" then Parsed oak_source_A
  else Missing.

(** ** The namespace of the document *)

(** [s.index(c)]; [None] stands for [ValueError]. *)
Fixpoint index_of (c : ascii) (s : string) : option nat :=
  match s with
  | EmptyString => None
  | String d s' => if Ascii.eqb d c then Some 0%nat else S <$> index_of c s'
  end.

(** [self._get_namespace()] on the tag of the root: the outer [None]
    stands for the [ValueError] of [tag.index], the inner one for the
    empty dictionary. *)
Definition get_namespace (root_tag : string) : option (option string) :=
  if Str.startswith root_tag "{" then
    match index_of "}"%char root_tag with
    | Some i => Some (Some (String.substring 1 (i - 1) root_tag))
    | None => None
    end
  else Some None.

(** [I3DTreeExtractor(i3d_path)] on a file that parses to [root]. *)
Definition new_extractor (root : Element) : option I3DTreeExtractor :=
  match get_namespace (tag root) with
  | Some ns => Some {| root := root; ns := ns; tree_type_loader := None |}
  | None => None
  end.

(** ** Summary *)

(** [print_summary(trees, loader)] as far as its growth status summary
    goes: the two totals printed there, or the [ZeroDivisionError] that
    the first percentage raises.  The lines printed for each type and the
    bounding box are not part of the model. *)
Inductive summary_outcome : Type :=
| Totals (total_final total_growing : Z)
| ZeroDivisionError.

Section Summary.

Context {T : Type}.

(** One turn of the grouping loop: [by_type] keeps its types in the order
    of their first tree. *)
Fixpoint group_add (tree : TreeInstance T)
    (by_type : list (string * list (TreeInstance T)))
  : list (string * list (TreeInstance T)) :=
  match by_type with
  | [] => [(Tree.tree_type tree, [tree])]
  | (tree_type, tree_list) :: rest =>
      if String.eqb tree_type (Tree.tree_type tree)
      then (tree_type, tree_list ++ [tree]) :: rest
      else (tree_type, tree_list) :: group_add tree rest
  end.

Definition group_by_type (trees : list (TreeInstance T))
  : list (string * list (TreeInstance T)) :=
  fold_left (λ by_type tree, group_add tree by_type) trees [].

(** [by_type[tree_type]] for a type that is a key. *)
Fixpoint group_of (by_type : list (string * list (TreeInstance T)))
    (tree_type : string) : list (TreeInstance T) :=
  match by_type with
  | [] => []
  | (k, tree_list) :: rest =>
      if String.eqb k tree_type then tree_list else group_of rest tree_type
  end.

(** [sorted(by_type.keys())]: the keys differ from each other, so the
    order among equal ones plays no part. *)
Fixpoint insert_sorted (s : string) (l : list string) : list string :=
  match l with
  | [] => [s]
  | x :: l' => if String.leb s x then s :: l else x :: insert_sorted s l'
  end.

Definition sorted (l : list string) : list string := foldr insert_sorted [] l.

(** One turn of the loop over the sorted types; the state is
    [(total_final, total_growing)]. *)
Definition add_type_totals (loader : option TreeTypeLoader)
    (by_type : list (string * list (TreeInstance T)))
    (st : Z * Z) (tree_type : string) : Z * Z :=
  let '(total_final, total_growing) := st in
  let tree_list := group_of by_type tree_type in
  let max_stage := final_stage loader tree_type in
  let final_count :=
    Z.of_nat (length (filter (λ t, (max_stage <=? Tree.growth_state t) = true)
                             tree_list)) in
  let growing_count := Z.of_nat (length tree_list) - final_count in
  (total_final + final_count, total_growing + growing_count).

Definition print_summary (trees : list (TreeInstance T))
    (loader : option TreeTypeLoader) : summary_outcome :=
  let by_type := group_by_type trees in
  let '(total_final, total_growing) :=
    fold_left (add_type_totals loader by_type) (sorted (fst <$> by_type)) (0, 0) in
  match trees with
  | [] => ZeroDivisionError
  | _ => Totals total_final total_growing
  end.

End Summary.
(** * Properties *)

(** ** Fallback classifier *)

Section FirstMatch.

Variable s : string.

Lemma first_match_Some table ty st :
  first_match table s = Some (ty, st) ↔
  ∃ pre pat post,
    table = pre ++ (pat, (ty, st)) :: post ∧
    search pat s = true ∧
    Forall (λ e, search e.1 s = false) pre.
Proof.
  induction table as [|[p [ty' st']] table IH]; simpl.
  - split; [discriminate|].
    intros (pre & pat & post & E & _). by destruct pre.
  - destruct (search p s) eqn:Hp.
    + split.
      * intros [= -> ->]. exists [], p, table. by repeat split.
      * intros (pre & pat & post & E & Hpat & Hpre).
        destruct pre as [|e pre]; simplify_eq/=; [done|].
        apply Forall_cons in Hpre as [Hfalse _]. simpl in Hfalse. congruence.
    + rewrite IH. split.
      * intros (pre & pat & post & -> & Hpat & Hpre).
        exists ((p, (ty', st')) :: pre), pat, post.
        repeat split; [done|]. by constructor.
      * intros (pre & pat & post & E & Hpat & Hpre).
        destruct pre as [|e pre]; simplify_eq/=; [congruence|].
        apply Forall_cons in Hpre as [_ Hpre]. eauto 6.
Qed.

Lemma first_match_None table :
  first_match table s = None ↔ Forall (λ e, search e.1 s = false) table.
Proof.
  induction table as [|[p [ty st]] table IH]; simpl.
  - split; [constructor|done].
  - destruct (search p s) eqn:Hp.
    + split; [discriminate|].
      intros [Hf _]%Forall_cons. simpl in Hf. congruence.
    + rewrite IH. split; [by constructor|]. by intros [_ ?]%Forall_cons.
Qed.

End FirstMatch.

(** The order of the table decides: a Scots pine matches both its own
    pattern and the generic pine pattern, and gets its own type. *)
Example scots_pine_needs_the_order :
  let generic := (Seq (Seq (Lit "pine") (not_later "sylvestris"))
                      (not_later "tabuliformis")) in
  search generic (normalize "Scots_Pine_01") = true ∧
  detect_tree_type "Scots_Pine_01" = Some ("pinusSylvestris", 5) ∧
  detect_tree_type "pine_stage02" = Some ("lodgepolePine", 3).
Proof. by vm_compute. Qed.


(** ** Tree type catalog *)

Section CatalogProperties.

Context `{PathLib}.


(** *** Replacement on load *)

Lemma add_tree_type_union base m1 m2 c e :
  (add_tree_type base (m1 ∪ m2, c) e).1 = (add_tree_type base (m1, c) e).1 ∪ m2 ∧
  (add_tree_type base (m1 ∪ m2, c) e).2 = (add_tree_type base (m1, c) e).2.
Proof.
  unfold add_tree_type.
  destruct (get_or e "name" EmptyString); [done|].
  destruct (parse_stages base e); [done|].
  simpl. by rewrite insert_union_l.
Qed.

Lemma fold_add_tree_type_union base es m1 m2 c :
  (fold_left (add_tree_type base) es (m1 ∪ m2, c)).1
  = (fold_left (add_tree_type base) es (m1, c)).1 ∪ m2 ∧
  (fold_left (add_tree_type base) es (m1 ∪ m2, c)).2
  = (fold_left (add_tree_type base) es (m1, c)).2.
Proof.
  revert m1 c. induction es as [|e es IH]; intros m1 c; [done|].
  cbn [fold_left].
  destruct (add_tree_type_union base m1 m2 c e) as [E1 E2].
  destruct (add_tree_type base (m1 ∪ m2, c) e) as [m' c'].
  destruct (add_tree_type base (m1, c) e) as [m'' c''].
  cbn [fst snd] in E1, E2. subst m' c'. apply IH.
Qed.

(** What a source registers does not depend on the catalog it is loaded
    into, and it takes precedence over that catalog key by key. *)
Lemma load_from_xml_union self src base :
  tree_types (load_from_xml self src base).1
  = tree_types (load_from_xml new_loader src base).1 ∪ tree_types self ∧
  (load_from_xml self src base).2 = (load_from_xml new_loader src base).2.
Proof.
  destruct src as [| |rt]; simpl.
  - by rewrite (left_id_L ∅ (∪)).
  - by rewrite (left_id_L ∅ (∪)).
  - set (es := findall _ _).
    destruct (fold_add_tree_type_union base es ∅ (tree_types self) 0) as [E1 E2].
    rewrite (left_id_L ∅ (∪)) in E1, E2.
    destruct (fold_left _ es (tree_types self, 0)) as [m c].
    destruct (fold_left _ es (∅, 0)) as [m' c'].
    cbn [fst snd tree_types] in *. by subst.
Qed.

(** *** Numbering of the stages *)

Lemma add_stage_contiguous base st e :
  stages_contiguous st.1 → st.2 = Z.of_nat (S (length st.1)) →
  stages_contiguous (add_stage base st e).1 ∧
  (add_stage base st e).2 = Z.of_nat (S (length (add_stage base st e).1)).
Proof.
  destruct st as [l i]. simpl. intros Hl Hi. unfold add_stage.
  destruct (stage_variations base e) as [|v vs] eqn:Ev; [done|].
  simpl. split.
  - intros k st Hk.
    destruct (decide (k < length l)%nat) as [Hlt|Hge].
    + rewrite lookup_app_l in Hk by done. by apply Hl.
    + rewrite lookup_app_r in Hk by lia.
      destruct (k - length l)%nat as [|n] eqn:Ek; [|done].
      simpl in Hk. injection Hk as <-. simpl.
      split; [|done]. subst i. f_equal. lia.
  - rewrite length_app. simpl. lia.
Qed.

Lemma parse_stages_contiguous base e : stages_contiguous (parse_stages base e).
Proof.
  unfold parse_stages.
  cut (∀ es st, stages_contiguous st.1 → st.2 = Z.of_nat (S (length st.1)) →
         stages_contiguous (fold_left (add_stage base) es st).1).
  { intros Hc. apply Hc; [|done]. intros k st Hk. by destruct k. }
  induction es as [|e' es IH]; intros st H1 H2; [done|].
  simpl. destruct (add_stage_contiguous base st e' H1 H2). by apply IH.
Qed.

Lemma add_tree_type_ok base m c e :
  map_Forall (λ _ d, stages_contiguous (stages d) ∧ stages d ≠ []) m →
  map_Forall (λ _ d, stages_contiguous (stages d) ∧ stages d ≠ [])
             (add_tree_type base (m, c) e).1.
Proof.
  intros Hm. unfold add_tree_type.
  destruct (get_or e "name" EmptyString) as [|a nm]; [done|].
  pose proof (parse_stages_contiguous base e) as Hc.
  destruct (parse_stages base e) as [|s ss] eqn:Es; [done|].
  simpl. apply map_Forall_insert_2; [|done]. by split.
Qed.

Lemma load_from_xml_ok self src base :
  catalog_ok self → catalog_ok (load_from_xml self src base).1.
Proof.
  unfold catalog_ok. intros Hok. destruct src as [| |rt]; simpl; [done..|].
  set (es := findall _ _). clearbody es.
  cut (∀ st, map_Forall (λ _ d, stages_contiguous (stages d) ∧ stages d ≠ []) st.1 →
         map_Forall (λ _ d, stages_contiguous (stages d) ∧ stages d ≠ [])
                    (fold_left (add_tree_type base) es st).1).
  { intros Hc. specialize (Hc (tree_types self, 0) Hok).
    by destruct (fold_left _ es _). }
  induction es as [|e es IH]; intros [m c] Hst; [done|].
  simpl. apply IH. by apply add_tree_type_ok.
Qed.

(** C9. Whatever sources are loaded, in whatever order, every descriptor of
    the catalog has its stages numbered from 1 without gaps (the k-th
    stored stage carries index k), and every stored stage has at least
    one variation: stage elements without variations are skipped without
    using up a number. *)
Theorem catalog_stages_contiguous (calls : list (source * option string)) :
  ∀ key d, tree_types (load_all calls) !! key = Some d →
    ∀ k st, stages d !! k = Some st →
      stage_index st = Z.of_nat k + 1 ∧ variations st ≠ [].
Proof.
  assert (catalog_ok (load_all calls)) as Hok.
  { unfold load_all.
    cut (∀ self, catalog_ok self →
           catalog_ok (fold_left (λ self call, (load_from_xml self call.1 call.2).1)
                                 calls self)).
    { intros Hc. apply Hc. apply map_Forall_empty. }
    induction calls as [|[src base] calls IH]; intros self Hself; [done|].
    simpl. apply IH. by apply load_from_xml_ok. }
  intros key d Hd k st Hk.
  destruct (Hok key d Hd) as [Hc _].
  destruct (Hc k st Hk) as [Hi Hv]. split; [lia|done].
Qed.

End CatalogProperties.


Lemma catalog_stages_contiguous_witness :
  ∃ d st,
    tree_types (load_all [ (Parsed oak_source_A, None); (Malformed, None);
                           (Parsed oak_source_B, Some "/game/data") ]) !! "OAK"
    = Some d ∧
    stages d !! 4%nat = Some st ∧
    stage_index st = 5 ∧ variations st ≠ [].
Proof.
  eexists _, _. split; [by vm_compute|]. split; [reflexivity|].
  unshelve eapply (catalog_stages_contiguous
            [ (Parsed oak_source_A, None); (Malformed, None);
              (Parsed oak_source_B, Some "/game/data") ] "OAK" _ _ 4%nat);
    [shelve|by vm_compute|reflexivity].
Defined.

Section CatalogPrecedence.

Context `{PathLib}.

(** C2. Loading a source replaces, it does not merge: under every key the
    catalog after the call holds the descriptor that the source alone
    registers there, whatever descriptor was there before, and keeps the
    old descriptor only under keys the source does not register.  Keys are
    the uppercased names: after source A (type OAK, three stages) the
    maximal stage of OAK is 3, and after source B on top of it (type oak,
    five stages) it is 5. *)
Theorem load_replaces_same_name :
  (∀ self src base key,
     tree_types (load_from_xml self src base).1 !! key =
     match tree_types (load_from_xml new_loader src base).1 !! key with
     | Some d => Some d
     | None => tree_types self !! key
     end) ∧
  (∀ base1 base2,
     let after_A := (load_from_xml new_loader (Parsed oak_source_A) base1).1 in
     let after_B := (load_from_xml after_A (Parsed oak_source_B) base2).1 in
     get_max_stage after_A "OAK" = 3 ∧
     get_max_stage after_B "OAK" = 5 ∧
     get_max_stage after_B "oak" = 5 ∧
     size (tree_types after_B) = 1%nat).
Proof.
  split.
  - intros self src base key.
    destruct (load_from_xml_union self src base) as [-> _].
    rewrite lookup_union.
    destruct (tree_types (load_from_xml new_loader src base).1 !! key) as [d|];
      [by destruct (tree_types self !! key)|].
    by rewrite (left_id_L None _).
  - intros base1 base2. by vm_compute.
Qed.

End CatalogPrecedence.

(** ** Serializer *)

Section SerializerProperties.

Context {T : Type} `{FloatFormat T}.

Lemma emit_tree_lines loader (trees : list (TreeInstance T)) lines f g :
  (fold_left (emit_tree loader) trees (lines, f, g)).1.1
  = lines ++ map (tree_line loader) trees.
Proof.
  revert lines f g. induction trees as [|t trees IH]; intros lines f g; simpl.
  - by rewrite app_nil_r.
  - destruct (is_at_final_stage loader t); rewrite IH, <- app_assoc; done.
Qed.

Lemma generate_lines loader (trees : list (TreeInstance T)) :
  (generate_treeplant_xml trees loader).1.1
  = [xml_declaration; "<treePlant>"] ++ map (tree_line loader) trees ++ ["</treePlant>"].
Proof.
  unfold generate_treeplant_xml.
  pose proof (emit_tree_lines loader trees [xml_declaration; "<treePlant>"] 0 0) as E.
  destruct (fold_left _ trees _) as [[lines f] g]. cbn [fst] in *. subst lines.
  by rewrite <- app_assoc.
Qed.

(** C1. The output has one record per tree, in order, and the record of a tree
    carries [isGrowing="false"] exactly when the growth stage of the tree
    is at least the maximal stage of its type, and [isGrowing="true"]
    exactly when it is below.  The maximal stage is the number of stages of
    the descriptor registered under the uppercased type name when a
    catalog is given and has one, else the entry of [MAX_STAGES], else 5. *)
Theorem growing_flag_iff_below_max_stage (loader : option TreeTypeLoader) :
  (∀ trees : list (TreeInstance T),
     (generate_treeplant_xml trees loader).1.1
     = [xml_declaration; "<treePlant>"]
         ++ map (λ t, "    <tree " +:+ Str.join " " (tree_attrs loader t) +:+ "/>") trees
         ++ ["</treePlant>"]) ∧
  (∀ t : TreeInstance T,
     let max_stage :=
       match loader ≫= (λ l, tree_types l !! Str.upper (Tree.tree_type t)) with
       | Some d => Z.of_nat (length (stages d))
       | None => dict_get MAX_STAGES (Str.upper (Tree.tree_type t)) 5
       end in
     (quoted "isGrowing" "false" ∈ tree_attrs loader t ↔ max_stage ≤ Tree.growth_state t) ∧
     (quoted "isGrowing" "true" ∈ tree_attrs loader t ↔ Tree.growth_state t < max_stage)).
Proof.
  split; [apply generate_lines|].
  intros t max_stage.
  assert (final_stage loader (Tree.tree_type t) = max_stage) as Hmax.
  { unfold final_stage, max_stage, get_max_stage, get_type.
    destruct loader as [l|]; simpl; [|done].
    by destruct (tree_types l !! _). }
  assert (quoted "isGrowing" "false" ≠ quoted "isGrowing" "true") as Hft by done.
  unfold tree_attrs, is_at_final_stage. rewrite Hmax.
  destruct (Z.leb_spec max_stage (Tree.growth_state t));
    destruct (Tree.variation_index t =? 1);
    rewrite ?elem_of_app, ?elem_of_cons, ?elem_of_nil;
    (split;
     (split;
      [ intros Hin; first [lia | exfalso; revert Hin; cbv [quoted Str.dq String.append];
                                 intuition congruence]
      | intros Hz; first [lia | tauto] ])).
Qed.

End SerializerProperties.

(** The record of a fully grown oak, and of the same tree two stages
    earlier and in its second variation. *)
Example oak_record :
  tree_line None demo_oak
  = "    <tree " +:+ quoted "treeType" "OAK" +:+ " "
    +:+ quoted "position" "15.0000 0.0000 20.0000" +:+ " "
    +:+ quoted "rotation" "0.0000 45.0000 0.0000" +:+ " "
    +:+ quoted "growthStateI" "5" +:+ " "
    +:+ quoted "isGrowing" "false" +:+ " "
    +:+ quoted "splitShapeFileId" "-1" +:+ "/>".
Proof. reflexivity. Qed.

(** ** Transform engine: composition *)

Section ExactComposition.

Context {T : Type} `{Arith T}.
Hypothesis exact : exact_arith T.

Add Ring exact_ring : exact.

Local Open Scope scalar_scope.

Lemma multiply_entry (m1 m2 : matrix T) i j :
  entry (multiply_matrices m1 m2) i j
  = zero + entry m1 i I0 * entry m2 I0 j + entry m1 i I1 * entry m2 I1 j
    + entry m1 i I2 * entry m2 I2 j + entry m1 i I3 * entry m2 I3 j.
Proof. by destruct i, j. Qed.

Lemma matrix_ext (m1 m2 : matrix T) :
  (∀ i j, entry m1 i j = entry m2 i j) → m1 = m2.
Proof.
  intros E.
  destruct m1 as [[] [] [] []], m2 as [[] [] [] []].
  pose proof (E I0 I0). pose proof (E I0 I1). pose proof (E I0 I2). pose proof (E I0 I3).
  pose proof (E I1 I0). pose proof (E I1 I1). pose proof (E I1 I2). pose proof (E I1 I3).
  pose proof (E I2 I0). pose proof (E I2 I1). pose proof (E I2 I2). pose proof (E I2 I3).
  pose proof (E I3 I0). pose proof (E I3 I1). pose proof (E I3 I2). pose proof (E I3 I3).
  simpl in *. congruence.
Qed.

(** Over exact arithmetic, that is when the scalars form a commutative
    semiring as the reals and the integers do, the product computed by
    [multiply_matrices] is associative. *)
Lemma multiply_matrices_assoc_ring (A B C : matrix T) :
  multiply_matrices (multiply_matrices A B) C
  = multiply_matrices A (multiply_matrices B C).
Proof.
  apply matrix_ext. intros i j.
  rewrite !multiply_entry. ring.
Qed.

(** The identity is neutral on both sides over exact arithmetic. *)
Lemma multiply_identity_l (A : matrix T) : multiply_matrices identity A = A.
Proof.
  apply matrix_ext. intros i j. rewrite multiply_entry.
  destruct i; simpl; ring.
Qed.

End ExactComposition.

Lemma Z_exact : exact_arith Z.
Proof. constructor; intros; simpl; lia. Qed.

Example multiply_matrices_assoc_integers :
  multiply_matrices (multiply_matrices (scale_x 2) (scale_x 3)) (scale_x 5)
  = multiply_matrices (scale_x 2) (multiply_matrices (scale_x 3) (scale_x 5)).
Proof. apply (multiply_matrices_assoc_ring Z_exact). Qed.

#[local] Set Warnings "-inexact-float".

(** With binary64 scalars the two groupings of a product can differ in the
    last place: scaling by 0.1, 0.2 and 0.3 gives 0.006000000000000001 on
    the left and 0.006 on the right. *)
Lemma multiply_matrices_float_not_assoc :
  multiply_matrices (multiply_matrices (scale_x 0.1%float) (scale_x 0.2%float))
                    (scale_x 0.3%float)
  ≠ multiply_matrices (scale_x 0.1%float)
                      (multiply_matrices (scale_x 0.2%float) (scale_x 0.3%float)).
Proof.
  intros E.
  apply (f_equal (λ m, PrimFloat.eqb (entry m I0 I0) 0.006%float)) in E.
  vm_compute in E. discriminate.
Qed.

(** C8 (as amended). The product computed by [multiply_matrices] is
    associative when the arithmetic of the scalars is exact, a
    commutative semiring.  On binary64 scalars it is not, and the two
    groupings need not be close to each other: for the translations by
    1e16, -1e16 and 1 along the first axis the product grouped to the
    left has 1.0 in the place of the translation, the product grouped to
    the right has 0.0. *)
Theorem multiply_matrices_assoc_exact :
  (∀ (T : Type) (A : Arith T),
     exact_arith T →
     ∀ a b c : matrix T,
       multiply_matrices (multiply_matrices a b) c
       = multiply_matrices a (multiply_matrices b c)) ∧
  entry (multiply_matrices
           (multiply_matrices (translate_x 1e16%float) (translate_x (-1e16)%float))
           (translate_x 1%float)) I0 I3 = 1%float ∧
  entry (multiply_matrices
           (translate_x 1e16%float)
           (multiply_matrices (translate_x (-1e16)%float) (translate_x 1%float)))
        I0 I3 = 0%float.
Proof.
  split; [|split; reflexivity].
  intros T A exact a b c. apply (multiply_matrices_assoc_ring exact).
Qed.

#[local] Set Warnings "+inexact-float".

(** ** Transform engine: decomposition of a built transform

    The angles are real numbers here: [math.cos] and its companions are the
    functions of the real analysis library, and rounding is left out. *)

Module RealTransform.

Local Open Scope R_scope.
Local Abbreviation rcos := Rtrigo_def.cos.
Local Abbreviation rsin := Rtrigo_def.sin.

Lemma sin_period_Z x k : rsin (x + 2 * IZR k * PI) = rsin x.
Proof.
  destruct (Z_le_gt_dec 0 k) as [Hk|Hk].
  - rewrite <- (Z2Nat.id k) by lia. rewrite <- INR_IZR_INZ. apply sin_period.
  - rewrite <- (sin_period (x + 2 * IZR k * PI) (Z.to_nat (- k))).
    f_equal. rewrite INR_IZR_INZ, Z2Nat.id by lia. rewrite opp_IZR. ring.
Qed.

Lemma cos_period_Z x k : rcos (x + 2 * IZR k * PI) = rcos x.
Proof.
  destruct (Z_le_gt_dec 0 k) as [Hk|Hk].
  - rewrite <- (Z2Nat.id k) by lia. rewrite <- INR_IZR_INZ. apply cos_period.
  - rewrite <- (cos_period (x + 2 * IZR k * PI) (Z.to_nat (- k))).
    f_equal. rewrite INR_IZR_INZ, Z2Nat.id by lia. rewrite opp_IZR. ring.
Qed.

Lemma principal_angle a : ∃ k : Z, - PI < a + 2 * IZR k * PI <= PI.
Proof.
  pose proof PI_RGT_0 as Hpi.
  set (r := (- a - PI) / (2 * PI)).
  destruct (archimed r) as [H1 H2].
  exists (up r).
  assert (r * (2 * PI) = - a - PI) as Hr by (unfold r; field; lra).
  split; nra.
Qed.

Lemma atan2_polar k t :
  0 < k -> - PI < t <= PI ->
  RealModel.atan2_R (k * rsin t) (k * rcos t) = t.
Proof.
  intros Hk [Hlo Hhi]. pose proof PI_RGT_0 as Hpi.
  unfold RealModel.atan2_R.
  destruct (Rtotal_order t (- (PI / 2))) as [Ha|[Ha|Ha]].
  - (* third quadrant *)
    set (p := t + PI).
    assert (0 < p < PI / 2) as Hp by (unfold p; lra).
    assert (rsin t = - rsin p) as Hs by (unfold p; rewrite neg_sin; ring).
    assert (rcos t = - rcos p) as Hc by (unfold p; rewrite neg_cos; ring).
    assert (0 < rsin p) by (apply sin_gt_0; lra).
    assert (0 < rcos p) by (apply cos_gt_0; lra).
    rewrite Hs, Hc.
    destruct (Rlt_dec 0 (k * - rcos p)); [nra|].
    destruct (Rlt_dec (k * - rcos p) 0); [|nra].
    destruct (Rle_dec 0 (k * - rsin p)); [nra|].
    replace (k * - rsin p / (k * - rcos p)) with (tan p) by (unfold tan; field; lra).
    rewrite atan_tan by lra. unfold p. ring.
  - subst t. rewrite sin_neg, cos_neg, sin_PI2, cos_PI2.
    destruct (Rlt_dec 0 (k * 0)); [lra|].
    destruct (Rlt_dec (k * 0) 0); [lra|].
    destruct (Rlt_dec 0 (k * - (1))); [lra|].
    destruct (Rlt_dec (k * - (1)) 0); [done|lra].
  - destruct (Rtotal_order t (PI / 2)) as [Hb|[Hb|Hb]].
    + assert (0 < rcos t) by (apply cos_gt_0; lra).
      destruct (Rlt_dec 0 (k * rcos t)); [|nra].
      replace (k * rsin t / (k * rcos t)) with (tan t) by (unfold tan; field; lra).
      apply atan_tan; lra.
    + subst t. rewrite sin_PI2, cos_PI2.
      destruct (Rlt_dec 0 (k * 0)); [lra|].
      destruct (Rlt_dec (k * 0) 0); [lra|].
      destruct (Rlt_dec 0 (k * 1)); [done|lra].
    + set (p := t - PI).
      assert (- (PI / 2) < p <= 0) as Hp by (unfold p; lra).
      assert (t = p + PI) as Ht by (unfold p; ring).
      assert (rsin t = - rsin p) as Hs by (rewrite Ht, neg_sin; ring).
      assert (rcos t = - rcos p) as Hc by (rewrite Ht, neg_cos; ring).
      assert (0 < rcos p) by (apply cos_gt_0; lra).
      assert (rsin p <= 0).
      { destruct (Req_dec p 0) as [->|Hne]; [rewrite sin_0; lra|].
        apply Rlt_le. rewrite <- (Ropp_involutive p), sin_neg.
        assert (0 < rsin (- p)) by (apply sin_gt_0; lra). lra. }
      rewrite Hs, Hc.
      destruct (Rlt_dec 0 (k * - rcos p)); [nra|].
      destruct (Rlt_dec (k * - rcos p) 0); [|nra].
      destruct (Rle_dec 0 (k * - rsin p)); [|nra].
      replace (k * - rsin p / (k * - rcos p)) with (tan p) by (unfold tan; field; lra).
      rewrite atan_tan by lra. unfold p. ring.
Qed.
Lemma sin_one_degree : 1 / 1000 < rsin (PI / 180).
Proof.
  pose proof PI2_3_2. pose proof PI_4.
  assert (rsin (1/60) <= rsin (PI/180)) by (apply sin_incr_1; lra).
  assert (sin_lb (1/60) <= rsin (1/60)) by (apply SIN; lra).
  assert (1/1000 < sin_lb (1/60)).
  { unfold sin_lb, sin_approx, sin_term. 
    cbn [sum_f_R0 Nat.mul Nat.add pow].
    rewrite !INR_IZR_INZ.
    change (Z.of_nat (fact 1)) with 1%Z.
    change (Z.of_nat (fact 3)) with 6%Z.
    change (Z.of_nat (fact 5)) with 120%Z.
    change (Z.of_nat (fact 7)) with 5040%Z.
    lra. }
  lra.
Qed.

Lemma cos_above_threshold b :
  - (89 * (PI / 180)) < b < 89 * (PI / 180) -> 1 / 1000 < rcos b.
Proof.
  intros [Hlo Hhi]. pose proof PI_RGT_0.
  pose proof sin_one_degree as H1.
  assert (rcos (Rabs b) = rcos b) as E2.
  { unfold Rabs. destruct (Rcase_abs b); [apply cos_neg|done]. }
  assert (rcos (89 * (PI / 180)) = rsin (PI / 180)) as E.
  { rewrite <- (cos_shift (PI / 180)). f_equal. field. }
  assert (rcos (89 * (PI / 180)) < rcos (Rabs b)).
  { apply cos_decreasing_1; unfold Rabs; destruct (Rcase_abs b); lra. }
  lra.
Qed.

Lemma decompose_transform_R tx ty tz rx ry rz :
  -89 < ry < 89 ->
  ∃ k l : Z,
    extract_world_transform (transform_matrix tx ty tz rx ry rz 1 1 1)
    = ((tx, ty, tz), (rx + 360 * IZR k, ry, rz + 360 * IZR l)) /\
    -180 < rx + 360 * IZR k <= 180 /\ -180 < rz + 360 * IZR l <= 180.
Proof.
  intros Hry. pose proof PI_RGT_0 as Hpi.
  set (a := rx * (PI / 180)). set (b := ry * (PI / 180)). set (c := rz * (PI / 180)).
  destruct (principal_angle a) as [k Hk]. destruct (principal_angle c) as [l Hl].
  exists k, l.
  assert (- (89 * (PI / 180)) < b < 89 * (PI / 180)) as Hb by (unfold b; split; nra).
  pose proof (cos_above_threshold b Hb) as Hcos.
  cbv [extract_world_transform transform_matrix rotation_matrix entry col line
       row_of set_c3 r0 r1 r2 r3 c0 c1 c2 c3 py_max py_min
       cos sin asin atan2 radians degrees absolute ltb lit_0_001
       zero one add mul neg RealModel.mathlib RealModel.arith RealModel.ltb_R].
  fold a b c.
  assert (- (PI / 2) < b < PI / 2) as Hb2 by lra.
  assert (-1 < rsin b < 1) as Hsin.
  { assert (rsin (- (PI / 2)) < rsin b) as H1 by (apply sin_increasing_1; lra).
    assert (rsin b < rsin (PI / 2)) as H2 by (apply sin_increasing_1; lra).
    rewrite sin_neg in H1. rewrite sin_PI2 in H1, H2. lra. }
  rewrite !Rmult_1_r.
  destruct (Rlt_dec (rsin b) 1) as [_|?]; [|lra].
  destruct (Rlt_dec (- (1)) (rsin b)) as [_|?]; [|lra].
  rewrite asin_sin by lra.
  rewrite (Rabs_pos_eq (rcos b)) by lra.
  destruct (Rlt_dec (1 / 1000) (rcos b)) as [_|?]; [|lra].
  replace (- (- rsin a * rcos b)) with (rcos b * rsin (a + 2 * IZR k * PI))
    by (rewrite sin_period_Z; ring).
  replace (rcos a * rcos b) with (rcos b * rcos (a + 2 * IZR k * PI))
    by (rewrite cos_period_Z; ring).
  replace (- (- rcos b * rsin c)) with (rcos b * rsin (c + 2 * IZR l * PI))
    by (rewrite sin_period_Z; ring).
  replace (rcos b * rcos c) with (rcos b * rcos (c + 2 * IZR l * PI))
    by (rewrite cos_period_Z; ring).
  rewrite !atan2_polar by (done || lra).
  assert ((a + 2 * IZR k * PI) * (180 / PI) = rx + 360 * IZR k) as Ea
    by (unfold a; field; lra).
  assert ((c + 2 * IZR l * PI) * (180 / PI) = rz + 360 * IZR l) as Ec
    by (unfold c; field; lra).
  assert (b * (180 / PI) = ry) as Eb by (unfold b; field; lra).
  rewrite Ea, Ec, Eb. split; [done|].
  rewrite <- Ea, <- Ec.
  assert (0 < 180 / PI) as Hq by (apply Rdiv_lt_0_compat; lra).
  assert (PI * (180 / PI) = 180) as Hq2 by (field; lra).
  split; split; nra.
Qed.

(** On the negative x axis [atan2_signed] answers [PI] or [-PI]; anywhere
    else it is the angle of the point. *)
Lemma atan2_signed_polar signs k t :
  0 < k -> - PI < t <= PI ->
  RealModel.atan2_signed signs (k * rsin t) (k * rcos t) = t ∨
  (t = PI ∧ RealModel.atan2_signed signs (k * rsin t) (k * rcos t) = - PI).
Proof.
  intros Hk Ht. pose proof PI_RGT_0 as Hpi.
  pose proof (atan2_polar k t Hk Ht) as E.
  unfold RealModel.atan2_signed.
  destruct (Req_dec_T (k * rsin t) 0) as [Hy|Hy]; [|by left].
  rewrite Hy in E. unfold RealModel.atan2_R in E.
  destruct (Rlt_dec (k * rcos t) 0) as [Hx|Hx].
  - destruct (Rlt_dec 0 (k * rcos t)) as [?|_]; [lra|].
    destruct (Rle_dec 0 0) as [_|?]; [|lra].
    unfold Rdiv in E. rewrite Rmult_0_l, atan_0, Rplus_0_l in E.
    destruct (signs (k * rsin t) (k * rcos t)).1; [right|left]; done.
  - destruct (Rlt_dec 0 (k * rcos t)) as [Hx'|Hx'].
    + unfold Rdiv in E. rewrite Rmult_0_l, atan_0 in E. by left.
    + exfalso. assert (k * rcos t = 0) as Hx0 by lra.
      pose proof (sin2_cos2 t) as Hsc. unfold Rsqr in Hsc.
      assert (rsin t = 0) by nra. assert (rcos t = 0) by nra. nra.
Qed.

Lemma atan2_signed_angle signs r a :
  0 < r ->
  ∃ k : Z,
    RealModel.atan2_signed signs (r * rsin a) (r * rcos a) = a + 2 * IZR k * PI ∧
    - PI <= a + 2 * IZR k * PI <= PI.
Proof.
  intros Hr. pose proof PI_RGT_0 as Hpi.
  destruct (principal_angle a) as [k Hk].
  rewrite <- (sin_period_Z a k), <- (cos_period_Z a k).
  destruct (atan2_signed_polar signs r _ Hr Hk) as [E|[E1 E2]].
  - exists k. split; [done|lra].
  - exists (k - 1)%Z. rewrite E2, minus_IZR. split; lra.
Qed.

Lemma decompose_transform_signed signs tx ty tz rx ry rz :
  -89 < ry < 89 ->
  ∃ k l : Z,
    extract_signed signs (transform_matrix tx ty tz rx ry rz 1 1 1)
    = ((tx, ty, tz), (rx + 360 * IZR k, ry, rz + 360 * IZR l)) /\
    -180 <= rx + 360 * IZR k <= 180 /\ -180 <= rz + 360 * IZR l <= 180.
Proof.
  intros Hry. pose proof PI_RGT_0 as Hpi.
  set (a := rx * (PI / 180)). set (b := ry * (PI / 180)). set (c := rz * (PI / 180)).
  assert (- (89 * (PI / 180)) < b < 89 * (PI / 180)) as Hb by (unfold b; split; nra).
  pose proof (cos_above_threshold b Hb) as Hcos.
  assert (- (PI / 2) < b < PI / 2) as Hb2 by lra.
  assert (-1 < rsin b < 1) as Hsin.
  { assert (rsin (- (PI / 2)) < rsin b) as H1 by (apply sin_increasing_1; lra).
    assert (rsin b < rsin (PI / 2)) as H2 by (apply sin_increasing_1; lra).
    rewrite sin_neg in H1. rewrite sin_PI2 in H1, H2. lra. }
  assert (extract_signed signs (transform_matrix tx ty tz rx ry rz 1 1 1)
          = ((tx, ty, tz),
             (RealModel.atan2_signed signs (rcos b * rsin a) (rcos b * rcos a)
              * (180 / PI),
              ry,
              RealModel.atan2_signed signs (rcos b * rsin c) (rcos b * rcos c)
              * (180 / PI)))) as E.
  { cbv [extract_signed extract_world_transform transform_matrix rotation_matrix
         entry col line row_of set_c3 r0 r1 r2 r3 c0 c1 c2 c3 py_max py_min
         cos sin asin atan2 radians degrees absolute ltb lit_0_001
         zero one add mul neg RealModel.mathlib RealModel.mathlib_signed
         RealModel.arith RealModel.ltb_R].
    fold a b c.
    rewrite !Rmult_1_r.
    destruct (Rlt_dec (rsin b) 1) as [_|?]; [|lra].
    destruct (Rlt_dec (- (1)) (rsin b)) as [_|?]; [|lra].
    rewrite asin_sin by lra.
    rewrite (Rabs_pos_eq (rcos b)) by lra.
    destruct (Rlt_dec (1 / 1000) (rcos b)) as [_|?]; [|lra].
    replace (- (- rsin a * rcos b)) with (rcos b * rsin a) by ring.
    replace (rcos a * rcos b) with (rcos b * rcos a) by ring.
    replace (- (- rcos b * rsin c)) with (rcos b * rsin c) by ring.
    assert (b * (180 / PI) = ry) as -> by (unfold b; field; lra).
    done. }
  destruct (atan2_signed_angle signs (rcos b) a) as (k & Ek & Hk); [lra|].
  destruct (atan2_signed_angle signs (rcos b) c) as (l & El & Hl); [lra|].
  exists k, l. rewrite E, Ek, El.
  assert ((a + 2 * IZR k * PI) * (180 / PI) = rx + 360 * IZR k) as Ea
    by (unfold a; field; lra).
  assert ((c + 2 * IZR l * PI) * (180 / PI) = rz + 360 * IZR l) as Ec
    by (unfold c; field; lra).
  rewrite Ea, Ec. split; [done|].
  rewrite <- Ea, <- Ec.
  assert (0 < 180 / PI) as Hq by (apply Rdiv_lt_0_compat; lra).
  assert (PI * (180 / PI) = 180) as Hq2 by (field; lra).
  split; split; nra.
Qed.



(** Angles that already lie in the interval are recovered as they are. *)
Lemma decompose_recovers_principal (tx ty tz rx ry rz eps : R) :
  -89 < ry < 89 → -180 < rx <= 180 → -180 < rz <= 180 → 0 < eps →
  recovers_within eps (tx, ty, tz) (rx, ry, rz).
Proof.
  intros Hy Hx Hz Heps.
  destruct (decompose_transform_R tx ty tz rx ry rz Hy) as (k & l & E & Hk & Hl).
  assert (k = 0%Z) as ->.
  { assert (IZR (-1) < IZR k) as H1%lt_IZR by lra.
    assert (IZR k < IZR 1) as H2%lt_IZR by lra. lia. }
  assert (l = 0%Z) as ->.
  { assert (IZR (-1) < IZR l) as H1%lt_IZR by lra.
    assert (IZR l < IZR 1) as H2%lt_IZR by lra. lia. }
  unfold recovers_within, decompose_of_build. rewrite E.
  rewrite !Rmult_0_r, !Rplus_0_r, !Rminus_diag, Rabs_R0. done.
Qed.


End RealTransform.

(** ** Scene walker *)

Lemma Element_ind' (P : Element → Prop) :
  (∀ t a cs, Forall P cs → P (Elem t a cs)) → ∀ e, P e.
Proof.
  intros step. fix rec 1. intros [t a cs]. apply step.
  induction cs as [|c cs IH]; constructor; [apply rec|exact IH].
Qed.

Lemma chain_head elem q ch : chain elem q = Some ch → ∃ r, ch = elem :: r.
Proof.
  destruct q as [|i q]; simpl.
  - intros [= <-]. by eexists.
  - destruct (children elem !! i) as [c|]; [|done].
    destruct (chain c q) as [r|]; [|done]. intros [= <-]. by eexists.
Qed.

Section WalkerProperties.

Context {T : Type} `{Arith T} `{MathLib T} `{FloatParse T} `{PathLib}.

Variable self : I3DTreeExtractor.
Variable files : gmap (option string) (string * Z * Z).
Variable parent_name : option string.

Local Abbreviation scan := (scan_node (T:=T) self files parent_name).
Local Abbreviation tree_at new p := (∃ t : TreeInstance T, t ∈ new ∧ Tree.element t = p).

Lemma classify_trees elem here parent wm scale flag (st : scan_state T) :
  ∃ new, trees (classify self files parent_name elem here parent wm scale flag st)
         = trees st ++ new ∧
    ∀ p, tree_at new p ↔ p = here ∧ yields self files parent_name elem flag = true.
Proof.
  unfold classify, yields.
  destruct (String.eqb (local_tag self (tag elem)) "ReferenceNode").
  - destruct (resolve_reference files (get elem "referenceId")) as [[[ty stg] var]|] eqn:Er.
    + destruct (collecting parent_name flag).
      * eexists [_]. split; [done|]. intros p. split.
        -- intros (t & ->%list_elem_of_singleton & <-).
           unfold make_tree. destruct (extract_world_transform wm) as [[[? ?] ?] [[? ?] ?]].
           destruct scale as [[? ?] ?]. split; [done|].
           rewrite bool_decide_eq_true_2; [done|by eexists].
        -- intros [-> _]. eexists. split; [apply list_elem_of_singleton; done|].
           unfold make_tree. destruct (extract_world_transform wm) as [[[? ?] ?] [[? ?] ?]].
           by destruct scale as [[? ?] ?].
      * exists []. rewrite app_nil_r. split; [done|]. intros p. split.
        -- intros (t & Ht & _). by apply elem_of_nil in Ht.
        -- intros [_ Hy]. by rewrite andb_false_r in Hy.
    + exists []. rewrite app_nil_r. split; [done|]. intros p. split.
      * intros (t & Ht & _). by apply elem_of_nil in Ht.
      * intros [_ Hy]. rewrite bool_decide_eq_false_2 in Hy; [done|]. by intros [? ?].
  - destruct (String.eqb (local_tag self (tag elem)) "TransformGroup"
              || String.eqb (local_tag self (tag elem)) "Shape").
    + destruct (detect_tree_type (get_or elem "name" EmptyString)) as [[ty mx]|] eqn:Ed.
      * destruct (collecting parent_name flag).
        -- eexists [_]. split; [done|]. intros p. split.
           ++ intros (t & ->%list_elem_of_singleton & <-).
              unfold make_tree. destruct (extract_world_transform wm) as [[[? ?] ?] [[? ?] ?]].
              destruct scale as [[? ?] ?]. split; [done|].
              rewrite bool_decide_eq_true_2; [done|by eexists].
           ++ intros [-> _]. eexists. split; [apply list_elem_of_singleton; done|].
              unfold make_tree. destruct (extract_world_transform wm) as [[[? ?] ?] [[? ?] ?]].
              by destruct scale as [[? ?] ?].
        -- exists []. rewrite app_nil_r. split; [done|]. intros p. split.
           ++ intros (t & Ht & _). by apply elem_of_nil in Ht.
           ++ intros [_ Hy]. by rewrite andb_false_r in Hy.
      * exists []. rewrite app_nil_r. split; [done|]. intros p. split.
        -- intros (t & Ht & _). by apply elem_of_nil in Ht.
        -- intros [_ Hy]. rewrite bool_decide_eq_false_2 in Hy; [done|]. by intros [? ?].
    + exists []. rewrite app_nil_r. split; [done|]. intros p. split.
      * intros (t & Ht & _). by apply elem_of_nil in Ht.
      * by intros [_ ?].
Qed.

Local Abbreviation scan_spec e :=
  (∀ here parent pm flag (st st' : scan_state T),
     scan e here parent pm flag st = Ok st' →
     ∃ new, trees st' = trees st ++ new ∧
       ∀ p, tree_at new p ↔
            ∃ q, p = here ++ q ∧ emitted self files parent_name e flag q = true).

Lemma tree_at_app (new1 new2 : list (TreeInstance T)) p :
  tree_at (new1 ++ new2) p ↔ tree_at new1 p ∨ tree_at new2 p.
Proof.
  split.
  - intros (t & [Ht|Ht]%elem_of_app & E); eauto.
  - intros [(t & Ht & E)|(t & Ht & E)]; exists t; rewrite elem_of_app; eauto.
Qed.

Lemma for_children_trees (ok : Element → bool) here par wm flag F cs :
  (∀ i c st, F i c st = if ok c then scan c (here ++ [i]) par wm flag st else Ok st) →
  Forall (λ e, scan_spec e) cs →
  ∀ i0 (st st' : scan_state T),
    for_children F cs i0 st = Ok st' →
    ∃ new, trees st' = trees st ++ new ∧
      ∀ p, tree_at new p ↔
           ∃ j c q, cs !! j = Some c ∧ ok c = true ∧
                    p = here ++ (i0 + j)%nat :: q ∧
                    emitted self files parent_name c flag q = true.
Proof.
  intros HF Hcs. induction Hcs as [|c cs Hc _ IH]; intros i0 st st' Hrun.
  - simpl in Hrun. injection Hrun as <-. exists []. rewrite app_nil_r.
    split; [done|]. intros p. split.
    + intros (t & Ht & _). by apply elem_of_nil in Ht.
    + by intros (j & c & q & Hj & _).
  - simpl in Hrun. rewrite HF in Hrun.
    destruct (ok c) eqn:Hok.
    + destruct (scan c (here ++ [i0]) par wm flag st) as [st1|] eqn:Hscan; [|done].
      simpl in Hrun.
      destruct (Hc _ _ _ _ _ _ Hscan) as (new1 & E1 & C1).
      destruct (IH _ _ _ Hrun) as (new2 & E2 & C2).
      exists (new1 ++ new2). split; [by rewrite E2, E1, app_assoc|].
      intros p. rewrite tree_at_app, C1, C2. split.
      * intros [(q & -> & Hq)|(j & c' & q & Hj & Hok' & -> & Hq)].
        -- exists 0%nat, c, q. rewrite <- app_assoc, Nat.add_0_r. done.
        -- exists (S j), c', q. rewrite Nat.add_succ_r. done.
      * intros (j & c' & q & Hj & Hok' & -> & Hq). destruct j as [|j].
        -- left. exists q. simpl in Hj. injection Hj as <-.
           rewrite <- app_assoc, Nat.add_0_r. done.
        -- right. exists j, c', q. rewrite Nat.add_succ_r. done.
    + simpl in Hrun.
      destruct (IH _ _ _ Hrun) as (new2 & E2 & C2).
      exists new2. split; [done|].
      intros p. rewrite C2. split.
      * intros (j & c' & q & Hj & Hok' & -> & Hq).
        exists (S j), c', q. rewrite Nat.add_succ_r. done.
      * intros (j & c' & q & Hj & Hok' & -> & Hq). destruct j as [|j].
        -- simpl in Hj. injection Hj as <-. congruence.
        -- exists j, c', q. rewrite Nat.add_succ_r. done.
Qed.

Lemma scan_node_trees e : scan_spec e.
Proof.
  induction e as [t a cs IH] using Element_ind'.
  intros here parent pm flag st st' Hrun.
  simpl in Hrun.
  destruct (node_matrix (Elem t a cs) pm) as [[wm scale]|] eqn:Hm; [|done].
  simpl in Hrun.
  set (flag' := flag || is_tree_parent parent_name (get_or (Elem t a cs) "name" EmptyString)) in *.
  set (st0 := if is_tree_parent parent_name (get_or (Elem t a cs) "name" EmptyString)
              then note_tree_parent here st else st) in *.
  assert (trees st0 = trees st) as Est0.
  { unfold st0, note_tree_parent. destruct (is_tree_parent _ _); [|done].
    by destruct (bool_decide _). }
  destruct (classify_trees (Elem t a cs) here parent wm scale flag' st0)
    as (new1 & E1 & C1).
  eapply (for_children_trees (scanned self) here here wm flag') in Hrun
      as (new2 & E2 & C2); [|done|done].
  exists (new1 ++ new2). split; [by rewrite E2, E1, Est0, app_assoc|].
  intros p. rewrite tree_at_app, C1, C2. split.
  - intros [[-> Hy]|(j & c & q & Hj & Hok & -> & Hq)].
    + exists []. by rewrite app_nil_r.
    + exists (j :: q). split; [done|]. simpl. rewrite Hj, Hok. done.
  - intros (q & -> & Hq). destruct q as [|j q].
    + left. rewrite app_nil_r. done.
    + right. simpl in Hq. destruct (cs !! j) as [c|] eqn:Hj; [|done].
      apply andb_prop in Hq as [Hok Hq]. by exists j, c, q.
Qed.

End WalkerProperties.

Section WalkSpecProperties.

Variable self : I3DTreeExtractor.
Variable files : gmap (option string) (string * Z * Z).
Variable parent_name : option string.

Local Abbreviation named := (named_as_parent parent_name).

Lemma emitted_chain e flag q :
  emitted self files parent_name e flag q = true ↔
  ∃ ch e', chain e q = Some ch ∧
           Forall (λ n, scanned self n = true) (tail ch) ∧
           last ch = Some e' ∧
           yields self files parent_name e' (flag || existsb named ch) = true.
Proof.
  revert e flag. induction q as [|i q IH]; intros e flag; simpl.
  - split.
    + intros Hy. exists [e], e. simpl. rewrite orb_false_r. by repeat split.
    + intros (ch & e' & [= <-] & _ & [= <-] & Hy). simpl in Hy.
      by rewrite orb_false_r in Hy.
  - destruct (children e !! i) as [c|]; [|split; [done|by intros (? & ? & ? & _)]].
    rewrite andb_true_iff, IH. split.
    + intros (Hc & ch & e' & Hch & Hsc & Hlast & Hy).
      destruct (chain_head _ _ _ Hch) as [r ->].
      exists (e :: c :: r), e'. rewrite Hch. simpl in *.
      repeat split; [by constructor|done|by rewrite orb_assoc].
    + intros (ch & e' & Hch & Hsc & Hlast & Hy).
      destruct (chain c q) as [ch'|] eqn:Hch'; [|done].
      simpl in Hch. injection Hch as <-.
      destruct (chain_head _ _ _ Hch') as [r ->].
      simpl in Hsc. apply Forall_cons in Hsc as [Hc Hsc].
      split; [done|]. exists (c :: r), e'.
      simpl in *. repeat split; [done..|by rewrite <- orb_assoc].
Qed.

Lemma chain_snoc c q ch e j child :
  chain c q = Some ch → last ch = Some e → children e !! j = Some child →
  chain c (q ++ [j]) = Some (ch ++ [child]).
Proof.
  revert c ch. induction q as [|i q IH]; intros c ch; simpl.
  - intros [= <-] [= <-] Hj. by rewrite Hj.
  - destruct (children c !! i) as [c'|]; [|done].
    destruct (chain c' q) as [ch'|] eqn:Hch'; [|done].
    simpl. intros [= <-] Hlast Hj.
    destruct (chain_head _ _ _ Hch') as [r ->].
    rewrite (IH c' (c' :: r)); done.
Qed.

End WalkSpecProperties.

Section FindTreesProperties.

Context {T : Type} `{Arith T} `{MathLib T} `{FloatParse T} `{PathLib}.

Local Abbreviation tree_at new p := (∃ t : TreeInstance T, t ∈ new ∧ Tree.element t = p).

(** The trees returned by [find_trees] are the nodes that the walk reaches
    from a child of the scene and that are trees there. *)
Lemma find_trees_trees self parent_name scene (found : list (TreeInstance T)) :
  find_trees self parent_name = Ok found →
  find_element self "Scene" = Some scene →
  ∀ p, tree_at found p ↔
       ∃ i c q, children scene !! i = Some c ∧ p = i :: q ∧
                emitted self (build_file_id_map self) parent_name c
                        (negb (bool_decide (is_Some parent_name))) q = true.
Proof.
  unfold find_trees. intros Hrun Hscene. rewrite Hscene in Hrun.
  destruct (for_children _ (children scene) 0%nat _) as [st|] eqn:Hloop; [|done].
  simpl in Hrun. injection Hrun as <-.
  eapply (for_children_trees self (build_file_id_map self) parent_name
            (λ _, true) [] []) in Hloop as (new & E & C).
  - simpl in E. subst new. intros p. rewrite C. split.
    + intros (j & c & q & Hj & _ & -> & Hq). by exists j, c, q.
    + intros (j & c & q & Hj & -> & Hq). by exists j, c, q.
  - done.
  - apply Forall_forall. intros e _. apply scan_node_trees.
Qed.

(** C4 (as amended). With a subtree filter [pn], a reference node that the
    walk reaches (a child of the scene, or a node below one through
    transform groups, shapes and reference nodes only) and whose reference
    resolves is among the returned trees exactly when some node on the way
    from the scene down to it, the node itself included, has a name equal
    to [pn] up to case.  A match anywhere above is enough, whatever lies
    between, and without a match the node is left out. *)
Theorem subtree_filter_collects_below_match
    self (pn : string) (found : list (TreeInstance T)) scene i c q ch e :
  pn ≠ EmptyString →
  find_trees self (Some pn) = Ok found →
  find_element self "Scene" = Some scene →
  children scene !! i = Some c →
  chain c q = Some ch →
  Forall (λ n, scanned self n = true) (tail ch) →
  last ch = Some e →
  local_tag self (tag e) = "ReferenceNode" →
  is_Some (resolve_reference (build_file_id_map self) (get e "referenceId")) →
  tree_at found (i :: q) ↔
  Exists (λ n, Str.lower (get_or n "name" EmptyString) = Str.lower pn) ch.
Proof.
  intros Hpn Hrun Hscene Hc Hch Hsc Hlast Htag Hres.
  rewrite (find_trees_trees _ _ _ _ Hrun Hscene).
  assert (∀ n, named_as_parent (Some pn) n = true ↔
               Str.lower (get_or n "name" EmptyString) = Str.lower pn) as Hnamed.
  { intros n. unfold named_as_parent, is_tree_parent.
    destruct pn as [|a s]; [done|]. apply String.eqb_eq. }
  assert (yields self (build_file_id_map self) (Some pn) e
                 (negb (bool_decide (is_Some (Some pn)))
                  || existsb (named_as_parent (Some pn)) ch) = true
          ↔ Exists (λ n, Str.lower (get_or n "name" EmptyString) = Str.lower pn) ch)
    as Hyield.
  { unfold yields. rewrite Htag. simpl String.eqb. cbv iota.
    rewrite bool_decide_eq_true_2 by done.
    unfold collecting. destruct pn as [|a s]; [done|]. simpl truthy.
    rewrite bool_decide_eq_true_2 by (by eexists). simpl negb. simpl orb at 1.
    rewrite andb_true_l. simpl orb.
    rewrite existsb_exists, Exists_exists. split.
    - intros (n & Hin & Hn). exists n. split; [by apply list_elem_of_In|by apply Hnamed].
    - intros (n & Hin & Hn). exists n. split; [by apply list_elem_of_In|by apply Hnamed]. }
  split.
  - intros (i' & c' & q' & Hc' & [= <- <-] & Hq).
    rewrite Hc in Hc'. injection Hc' as <-.
    apply emitted_chain in Hq as (ch' & e' & Hch' & _ & Hlast' & Hy).
    rewrite Hch in Hch'. injection Hch' as <-.
    rewrite Hlast in Hlast'. injection Hlast' as <-.
    by apply Hyield.
  - intros Hex. exists i, c, q. repeat split; [done|].
    apply emitted_chain. exists ch, e. repeat split; [done..|]. by apply Hyield.
Qed.

(** C10. A reference node that the walk reaches and whose reference does not
    resolve gives no tree, whatever its name is: the name is never put to
    the classifier.  The walk goes on below it all the same: a child of
    it is among the returned trees exactly when that child is a tree. *)
Theorem unresolved_reference_gives_no_tree
    self parent_name (found : list (TreeInstance T)) scene i c q ch e :
  find_trees self parent_name = Ok found →
  find_element self "Scene" = Some scene →
  children scene !! i = Some c →
  chain c q = Some ch →
  Forall (λ n, scanned self n = true) (tail ch) →
  last ch = Some e →
  local_tag self (tag e) = "ReferenceNode" →
  resolve_reference (build_file_id_map self) (get e "referenceId") = None →
  ¬ tree_at found (i :: q) ∧
  ∀ j child,
    children e !! j = Some child →
    scanned self child = true →
    (tree_at found (i :: q ++ [j]) ↔
     yields self (build_file_id_map self) parent_name child
            (negb (bool_decide (is_Some parent_name))
             || existsb (named_as_parent parent_name) (ch ++ [child])) = true).
Proof.
  intros Hrun Hscene Hc Hch Hsc Hlast Htag Hres.
  split.
  - rewrite (find_trees_trees _ _ _ _ Hrun Hscene).
    intros (i' & c' & q' & Hc' & [= <- <-] & Hq).
    rewrite Hc in Hc'. injection Hc' as <-.
    apply emitted_chain in Hq as (ch' & e' & Hch' & _ & Hlast' & Hy).
    rewrite Hch in Hch'. injection Hch' as <-.
    rewrite Hlast in Hlast'. injection Hlast' as <-.
    unfold yields in Hy. rewrite Htag, Hres in Hy. simpl in Hy. done.
  - intros j child Hj Hchild.
    rewrite (find_trees_trees _ _ _ _ Hrun Hscene).
    pose proof (chain_snoc _ _ _ _ _ _ Hch Hlast Hj) as Hch2.
    destruct (chain_head _ _ _ Hch) as [r ->].
    split.
    + intros (i' & c' & q' & Hc' & [= <- <-] & Hq).
      rewrite Hc in Hc'. injection Hc' as <-.
      apply emitted_chain in Hq as (ch' & e' & Hch' & _ & Hlast' & Hy).
      rewrite Hch2 in Hch'. injection Hch' as <-.
      change (c :: r ++ [child]) with ((c :: r) ++ [child]) in Hlast'.
      rewrite last_snoc in Hlast'. by injection Hlast' as <-.
    + intros Hy. exists i, c, (q ++ [j]). repeat split; [done|].
      apply emitted_chain. exists ((c :: r) ++ [child]), child.
      repeat split; [done| |apply last_snoc|done].
      simpl. simpl in Hsc. apply Forall_app. split; [done|]. by constructor.
Qed.

End FindTreesProperties.

(** *** When the walk returns *)

Section WalkReturns.

Context {T : Type} `{Arith T} `{MathLib T} `{FloatParse T} `{PathLib}.

Lemma item_in_range {A : Type} (v : list A) (i : nat) :
  (i < length v)%nat → ∃ a, item v i = Ok a.
Proof.
  intros Hi. unfold item. destruct (lookup_lt_is_Some_2 v i Hi) as [a ->]. by eexists.
Qed.

Lemma item_out_of_range {A : Type} (v : list A) (i : nat) :
  (length v ≤ i)%nat → item v i = Raise IndexError.
Proof. intros Hi. unfold item. by rewrite lookup_ge_None_2. Qed.

Lemma node_matrix_returns (e : Element) (pm : matrix T) :
  vectors_ok e → ∃ r, node_matrix e pm = Ok r.
Proof.
  intros (Ht & Hr & Hs). unfold node_matrix.
  destruct (item_in_range (parse_vector (get e "translation") [zero; zero; zero]) 0)
    as [? ->]; [lia|].
  destruct (item_in_range (parse_vector (get e "translation") [zero; zero; zero]) 1)
    as [? ->]; [lia|].
  destruct (item_in_range (parse_vector (get e "translation") [zero; zero; zero]) 2)
    as [? ->]; [lia|].
  destruct (item_in_range (parse_vector (get e "rotation") [zero; zero; zero]) 0)
    as [? ->]; [lia|].
  destruct (item_in_range (parse_vector (get e "rotation") [zero; zero; zero]) 1)
    as [? ->]; [lia|].
  destruct (item_in_range (parse_vector (get e "rotation") [zero; zero; zero]) 2)
    as [? ->]; [lia|].
  destruct (item_in_range (parse_vector (get e "scale") [one; one; one]) 0)
    as [? ->]; [lia|].
  destruct (item_in_range (parse_vector (get e "scale") [one; one; one]) 1)
    as [? ->]; [lia|].
  destruct (item_in_range (parse_vector (get e "scale") [one; one; one]) 2)
    as [? ->]; [lia|].
  by eexists.
Qed.

(** A vector of one or two numbers is not replaced by the default, and
    the subscripts of [scan_node] raise on it. *)
Lemma node_matrix_short_translation (e : Element) (pm : matrix T) :
  (length (parse_vector (get e "translation") [zero; zero; zero]) < 3)%nat →
  node_matrix e pm = Raise IndexError.
Proof.
  intros Hlen. unfold node_matrix.
  destruct (parse_vector (get e "translation") [zero; zero; zero])
    as [|a [|b [|c v]]]; simpl in *; try done. lia.
Qed.

Lemma for_children_returns {S : Type} (F : nat → Element → S → result S) cs :
  Forall (λ c, ∀ i st, ∃ st', F i c st = Ok st') cs →
  ∀ i st, ∃ st', for_children F cs i st = Ok st'.
Proof.
  induction 1 as [|c cs Hc _ IH]; intros i st; simpl; [by eexists|].
  destruct (Hc i st) as [st1 ->]. simpl. apply IH.
Qed.

Lemma iter_children (P : Element → Prop) t a cs :
  Forall P (iter (Elem t a cs)) →
  P (Elem t a cs) ∧ Forall (λ c, Forall P (iter c)) cs.
Proof.
  simpl. intros [He Hcs]%Forall_cons. split; [done|]. clear He.
  induction cs as [|c cs IH]; [constructor|].
  apply Forall_app in Hcs as [Hc Hcs]. constructor; [done|by apply IH].
Qed.

Lemma scan_node_returns self files parent_name e :
  Forall (vectors_ok (T:=T)) (iter e) →
  ∀ here parent pm flag (st : scan_state T),
    ∃ st', scan_node self files parent_name e here parent pm flag st = Ok st'.
Proof.
  induction e as [t a cs IH] using Element_ind'.
  intros [He Hcs]%iter_children here parent pm flag st.
  simpl. destruct (node_matrix_returns (Elem t a cs) pm He) as [[wm scale] ->].
  simpl. apply for_children_returns.
  apply Forall_forall. intros c Hc i st1.
  destruct (scanned_tag _); [|by eexists].
  rewrite Forall_forall in IH, Hcs. by apply IH; [|apply Hcs].
Qed.

Lemma find_trees_returns self parent_name :
  (∀ scene, find_element self "Scene" = Some scene →
            Forall (λ c, Forall (vectors_ok (T:=T)) (iter c)) (children scene)) →
  ∃ found : list (TreeInstance T), find_trees self parent_name = Ok found.
Proof.
  intros Hok. unfold find_trees.
  destruct (find_element self "Scene") as [scene|]; [|by eexists].
  specialize (Hok scene eq_refl).
  edestruct (for_children_returns (S:=scan_state T)) as [st ->]; [|by eexists].
  apply Forall_forall. intros c Hc i st.
  apply scan_node_returns. rewrite Forall_forall in Hok. by apply Hok.
Qed.

End WalkReturns.

(** Without a filter the walk returns the three trees in document order;
    with the filter [trees] it returns the two inside the group. *)
Example demo_find_trees :
  find_trees demo None = Ok (demo_tree1_found :: demo_trees_inside) ∧
  find_trees demo (Some "trees") = Ok demo_trees_inside ∧
  find_trees demo (Some "TREES") = Ok demo_trees_inside ∧
  find_trees demo (Some "forest") = Ok ([] : list (TreeInstance R)).
Proof. repeat split; reflexivity. Qed.

Lemma subtree_filter_collects_below_match_witness :
  find_trees demo (Some "trees") = Ok demo_trees_inside ∧
  (∃ t, t ∈ demo_trees_inside ∧ Tree.element t = [1; 0]%nat) ∧
  ¬ (∃ t, t ∈ demo_trees_inside ∧ Tree.element t = [0; 0]%nat).
Proof.
  assert (find_trees demo (Some "trees") = Ok demo_trees_inside) as Hfound
    by reflexivity.
  split; [exact Hfound|]. split.
  - apply (subtree_filter_collects_below_match demo "trees" demo_trees_inside
             demo_scene 1 demo_trees_group [0%nat] [demo_trees_group; demo_tree2]
             demo_tree2);
      [done|exact Hfound|reflexivity|reflexivity|reflexivity| |reflexivity|reflexivity| |].
    + repeat constructor.
    + vm_compute. by eexists.
    + apply Exists_cons_hd. reflexivity.
  - intros Hin.
    apply (subtree_filter_collects_below_match demo "trees" demo_trees_inside
             demo_scene 0 demo_groupA [0%nat] [demo_groupA; demo_tree1]
             demo_tree1) in Hin;
      [|done|exact Hfound|reflexivity|reflexivity|reflexivity| |reflexivity|reflexivity|].
    + apply Exists_cons in Hin as [Hin|Hin]; [vm_compute in Hin; discriminate|].
      apply Exists_cons in Hin as [Hin|Hin]; [vm_compute in Hin; discriminate|].
      by apply Exists_nil in Hin.
    + repeat constructor.
    + vm_compute. by eexists.
Defined.

(** The walk goes down only through transform groups, shapes and
    reference nodes.  A resolvable reference node below a light is not
    reached, although the light stands in a group named as the filter
    asks: nothing is returned. *)
Lemma reference_below_light_is_missed :
  chain light_group [0; 0]%nat = Some [light_group; light_lamp; light_tree] ∧
  local_tag light_demo (tag light_tree) = "ReferenceNode" ∧
  is_Some (resolve_reference (build_file_id_map light_demo)
                             (get light_tree "referenceId")) ∧
  Exists (λ n, Str.lower (get_or n "name" EmptyString) = Str.lower "trees")
         [light_group; light_lamp; light_tree] ∧
  find_trees (T:=R) light_demo (Some "trees") = Ok [].
Proof.
  split; [reflexivity|]. split; [reflexivity|].
  split; [vm_compute; by eexists|].
  split; [by apply Exists_cons_hd|].
  by vm_compute.
Qed.

Lemma unresolved_reference_gives_no_tree_witness :
  detect_tree_type "oak_stage03" = Some ("oak", 5) ∧
  find_trees demo None = Ok (demo_tree1_found :: demo_trees_inside) ∧
  ¬ (∃ t, t ∈ demo_tree1_found :: demo_trees_inside ∧ Tree.element t = [1; 1]%nat) ∧
  (∃ t, t ∈ demo_tree1_found :: demo_trees_inside ∧ Tree.element t = [1; 1; 0]%nat).
Proof.
  assert (find_trees demo None = Ok (demo_tree1_found :: demo_trees_inside)) as Hfound
    by reflexivity.
  split; [reflexivity|]. split; [exact Hfound|].
  destruct (unresolved_reference_gives_no_tree demo None
              (demo_tree1_found :: demo_trees_inside) demo_scene 1
              demo_trees_group [1%nat] [demo_trees_group; demo_unresolved]
              demo_unresolved) as [Hnone Hbelow];
    [exact Hfound|reflexivity|reflexivity|reflexivity| |reflexivity|reflexivity| |].
  - repeat constructor.
  - reflexivity.
  - split; [exact Hnone|].
    apply (Hbelow 0%nat demo_tree3); [reflexivity|reflexivity|]. by vm_compute.
Defined.

Section ParseVectorProperties.

Context {T : Type} `{FloatParse T}.

Lemma all_some_None {A B : Type} (f : A → option B) (l : list A) :
  all_some f l = None ↔ ∃ a, a ∈ l ∧ f a = None.
Proof.
  induction l as [|a l IH]; simpl.
  - split; [done|]. intros (a & Ha & _). by apply elem_of_nil in Ha.
  - destruct (f a) as [b|] eqn:Ea.
    + destruct (all_some f l) as [bs|].
      * split; [done|]. intros (a' & [->|Ha']%elem_of_cons & Hf); [congruence|].
        destruct IH as [_ IH]. discriminate IH. eauto.
      * split; [|done]. intros _. destruct IH as [IH _].
        destruct (IH eq_refl) as (a' & Ha' & Hf). exists a'. split; [|done].
        by apply elem_of_cons; right.
    + split; [|done]. intros _. exists a. split; [|done]. by apply elem_of_cons; left.
Qed.

Lemma all_some_length {A B : Type} (f : A → option B) (l : list A) (bs : list B) :
  all_some f l = Some bs → length bs = length l.
Proof.
  revert bs. induction l as [|a l IH]; intros bs; simpl.
  - by intros [= <-].
  - destruct (f a); [|done]. destruct (all_some f l) as [bs'|]; [|done].
    intros [= <-]. simpl. by rewrite (IH bs').
Qed.

(** Text that [float] rejects, an empty attribute and a missing attribute
    all give the default. *)
Lemma parse_vector_falls_back (value : option string) (default : list T) :
  (value = None ∨ value = Some EmptyString ∨
   ∃ s tok, value = Some s ∧ tok ∈ Str.split_ws s ∧ of_string tok = None) →
  parse_vector value default = default.
Proof.
  intros [->|[->|(s & tok & -> & Htok & Hbad)]]; [done..|].
  unfold parse_vector. destruct s as [|c s]; [done|].
  assert (all_some of_string (Str.split_ws (String c s)) = None) as ->; [|done].
  apply all_some_None. eauto.
Qed.

(** Numbers are kept however many they are: the result has one component
    for each piece of the text. *)
Lemma parse_vector_keeps_numbers (s : string) (default : list T) :
  s ≠ EmptyString →
  Forall (λ tok, is_Some (of_string tok)) (Str.split_ws s) →
  length (parse_vector (Some s) default) = length (Str.split_ws s).
Proof.
  intros Hs Hall. unfold parse_vector. destruct s as [|c s]; [done|].
  destruct (all_some of_string (Str.split_ws (String c s))) as [v|] eqn:Ev.
  - by apply all_some_length in Ev.
  - apply all_some_None in Ev as (tok & Htok & Hbad).
    rewrite Forall_forall in Hall. destruct (Hall tok Htok) as [? ?]. congruence.
Qed.

End ParseVectorProperties.

(** C6. A translation of two numbers is parsed as it stands, no default takes
    its place, and the walk ends with the [IndexError] of the subscript
    [trans[2]]: the call of [find_trees] does not return. *)
Lemma short_vector_aborts_find_trees :
  parse_vector (Some "1 2") [0; 0; 0]%R = [1; 2]%R ∧
  parse_vector (Some "1 x") [0; 0; 0]%R = [0; 0; 0]%R ∧
  find_trees (T:=R) short_vector_demo None = Raise IndexError.
Proof. by vm_compute. Qed.

(** ** The worked map, end to end *)

Lemma R_exact : exact_arith R.
Proof. constructor; intros; simpl; ring. Qed.

(** Under the group moved by (5, 0, 0), the node at (10, 0, 20) turned by
    45 degrees about the second axis has the world transform of a node at
    (15, 0, 20) with the same turn. *)
Lemma demo_world_tree1_eq :
  demo_world_tree1 = (transform_matrix 15 0 20 0 45 0 1 1 1)%R.
Proof.
  unfold demo_world_tree1, demo_world_groupA. rewrite (multiply_identity_l R_exact).
  apply matrix_ext. intros i j. rewrite multiply_entry.
  destruct i, j;
    cbv [transform_matrix rotation_matrix entry col line row_of set_c3
         r0 r1 r2 r3 c0 c1 c2 c3 cos sin radians zero one add mul neg
         RealModel.mathlib RealModel.arith];
    rewrite ?Rmult_0_l, ?cos_0, ?sin_0; ring.
Qed.

(** The first tree of the worked map: an oak at (15, 0, 20), turned by
    (0, 45, 0), in its fifth and final stage. *)
Example demo_tree1_record :
  Tree.tree_type demo_tree1_found = "oak" ∧
  (Tree.x demo_tree1_found, Tree.y demo_tree1_found, Tree.z demo_tree1_found)
  = (15, 0, 20)%R ∧
  (Tree.rx demo_tree1_found, Tree.ry demo_tree1_found, Tree.rz demo_tree1_found)
  = (0, 45, 0)%R ∧
  Tree.growth_state demo_tree1_found = 5 ∧
  is_at_final_stage None demo_tree1_found = true.
Proof.
  assert (extract_world_transform demo_world_tree1 = ((15, 0, 20), (0, 45, 0))%R) as E.
  { rewrite demo_world_tree1_eq.
    destruct (RealTransform.decompose_transform_R 15 0 20 0 45 0)
      as (k & l & E & Hk & Hl); [lra|].
    assert (k = 0%Z) as ->.
    { assert (IZR (-1) < IZR k)%R as H1%lt_IZR by lra.
      assert (IZR k < IZR 1)%R as H2%lt_IZR by lra. lia. }
    assert (l = 0%Z) as ->.
    { assert (IZR (-1) < IZR l)%R as H1%lt_IZR by lra.
      assert (IZR l < IZR 1)%R as H2%lt_IZR by lra. lia. }
    rewrite E. repeat f_equal; lra. }
  unfold demo_tree1_found, make_tree. rewrite E. by repeat split.
Qed.

(** * Further properties *)

(** ** Serializer: counters and optional attribute *)

Section SerializerCounters.

Context {T : Type} `{FloatFormat T}.

Lemma emit_tree_counts loader (trees : list (TreeInstance T)) lines f g :
  (fold_left (emit_tree loader) trees (lines, f, g)).1.2
  = f + Z.of_nat (length (filter (λ t, is_at_final_stage loader t = true) trees)) ∧
  (fold_left (emit_tree loader) trees (lines, f, g)).2
  = g + Z.of_nat (length (filter (λ t, is_at_final_stage loader t = false) trees)).
Proof.
  revert lines f g. induction trees as [|t trees IH]; intros lines f g; simpl.
  - split; lia.
  - rewrite !filter_cons. destruct (is_at_final_stage loader t) eqn:E.
    + destruct (IH (lines ++ [tree_line loader t]) (f + 1) g) as [-> ->].
      rewrite decide_True by done. rewrite decide_False by done. simpl. split; lia.
    + destruct (IH (lines ++ [tree_line loader t]) f (g + 1)) as [-> ->].
      rewrite decide_False by done. rewrite decide_True by done. simpl. split; lia.
Qed.

Lemma final_stage_attr loader (t : TreeInstance T) :
  (quoted "isGrowing" "false" ∈ tree_attrs loader t ↔ is_at_final_stage loader t = true) ∧
  (quoted "isGrowing" "true" ∈ tree_attrs loader t ↔ is_at_final_stage loader t = false).
Proof.
  unfold tree_attrs.
  destruct (is_at_final_stage loader t); destruct (Tree.variation_index t =? 1);
    rewrite ?elem_of_app, ?elem_of_cons, ?elem_of_nil;
    (split;
     (split;
      [ intros Hin; first [done | exfalso; revert Hin; cbv [quoted Str.dq String.append];
                                  intuition congruence]
      | intros Hz; first [done | tauto] ])).
Qed.

Lemma split_by_bool {A : Type} (f : A → bool) (l : list A) :
  (length (filter (λ a, f a = true) l) + length (filter (λ a, f a = false) l))%nat
  = length l.
Proof.
  induction l as [|a l IH]; [done|]. rewrite !filter_cons.
  destruct (f a).
  - rewrite decide_True by done. rewrite decide_False by done. simpl. lia.
  - rewrite decide_False by done. rewrite decide_True by done. simpl. lia.
Qed.

(** X1. The two counters that [generate_treeplant_xml] reports split the trees:
    the first counts the trees written with [isGrowing="false"], the second
    those written with [isGrowing="true"], together they count every tree,
    and the file has one line per tree besides its three fixed lines. *)
Theorem generate_counters_partition (loader : option TreeTypeLoader)
    (trees : list (TreeInstance T)) :
  let '(lines, final_stage_count, growing_count) := generate_treeplant_xml trees loader in
  final_stage_count
  = Z.of_nat (length (filter (λ t, quoted "isGrowing" "false" ∈ tree_attrs loader t) trees)) ∧
  growing_count
  = Z.of_nat (length (filter (λ t, quoted "isGrowing" "true" ∈ tree_attrs loader t) trees)) ∧
  final_stage_count + growing_count = Z.of_nat (length trees) ∧
  length lines = (length trees + 3)%nat.
Proof.
  unfold generate_treeplant_xml.
  pose proof (emit_tree_counts loader trees [xml_declaration; "<treePlant>"] 0 0) as [Ef Eg].
  pose proof (emit_tree_lines loader trees [xml_declaration; "<treePlant>"] 0 0) as El.
  destruct (fold_left _ trees _) as [[lines f] g]. cbn [fst snd] in *. subst.
  assert (filter (λ t, quoted "isGrowing" "false" ∈ tree_attrs loader t) trees
          = filter (λ t, is_at_final_stage loader t = true) trees) as ->
    by (apply list_filter_iff; intros t; apply final_stage_attr).
  assert (filter (λ t, quoted "isGrowing" "true" ∈ tree_attrs loader t) trees
          = filter (λ t, is_at_final_stage loader t = false) trees) as ->
    by (apply list_filter_iff; intros t; apply final_stage_attr).
  pose proof (split_by_bool (is_at_final_stage loader) trees).
  repeat split; [lia..|].
  rewrite !length_app, length_map. simpl. lia.
Qed.

(** X2. A record carries the attribute [variationIndex] exactly when the
    variation of the tree is not 1, and then with that number; it has six
    attributes without it and seven with it. *)
Theorem variation_attribute_only_when_not_one (loader : option TreeTypeLoader)
    (t : TreeInstance T) :
  (quoted "variationIndex" (Str.str_of_int (Tree.variation_index t)) ∈ tree_attrs loader t
   ↔ Tree.variation_index t ≠ 1) ∧
  ((∃ v, quoted "variationIndex" v ∈ tree_attrs loader t) ↔ Tree.variation_index t ≠ 1) ∧
  length (tree_attrs loader t) = if Tree.variation_index t =? 1 then 6%nat else 7%nat.
Proof.
  unfold tree_attrs.
  destruct (Z.eqb_spec (Tree.variation_index t) 1) as [E|E];
    destruct (is_at_final_stage loader t);
    (split; [|split; [|done]]).
  all: split.
  all: try (intros _; done).
  all: try (intros _; rewrite !elem_of_app, !elem_of_cons; tauto).
  all: try (intros _; eexists; rewrite !elem_of_app, !elem_of_cons;
            left; left; right; left; reflexivity).
  all: try (intros Hin; exfalso; revert Hin;
            rewrite ?elem_of_app, ?elem_of_cons, ?elem_of_nil;
            cbv [quoted Str.dq String.append]; intuition congruence).
  all: intros [v Hin]; exfalso; revert Hin;
       rewrite ?elem_of_app, ?elem_of_cons, ?elem_of_nil;
       cbv [quoted Str.dq String.append]; intuition congruence.
Qed.

End SerializerCounters.

(** ** Classifier: agreement with the stage table, letter case and separators *)

Lemma TREE_PATTERNS_in_MAX_STAGES :
  Forall (λ e : re * (string * Z),
            dict_get MAX_STAGES (Str.upper e.2.1) 5 = e.2.2 ∧ 3 ≤ e.2.2 ≤ 6)
         TREE_PATTERNS.
Proof. repeat constructor; by vm_compute. Qed.

(** X3. Whatever name the classifier recognises, the maximal stage it answers
    is the one that [MAX_STAGES] holds for the recognised type, so it is
    the stage from which the serializer without a catalog, and an empty
    catalog, write the tree as fully grown; it lies between 3 and 6. *)
Theorem classifier_agrees_with_max_stages (name ty : string) (st : Z) :
  detect_tree_type name = Some (ty, st) →
  dict_get MAX_STAGES (Str.upper ty) 5 = st ∧
  final_stage None ty = st ∧
  get_max_stage new_loader ty = st ∧
  3 ≤ st ≤ 6.
Proof.
  intros (pre & pat & post & E & _ & _)%first_match_Some.
  pose proof TREE_PATTERNS_in_MAX_STAGES as Hall. rewrite E in Hall.
  apply Forall_app in Hall as [_ Hall]. apply Forall_cons in Hall as [[H1 H2] _].
  simpl in H1, H2. repeat split; try done; try lia.
Qed.

Lemma classifier_agrees_with_max_stages_witness :
  detect_tree_type "Aspen_stage02" = Some ("aspen", 6) ∧
  dict_get MAX_STAGES (Str.upper "aspen") 5 = 6 ∧
  final_stage None "aspen" = 6 ∧
  get_max_stage new_loader "aspen" = 6 ∧
  3 ≤ 6 ≤ 6.
Proof.
  split; [reflexivity|].
  apply (classifier_agrees_with_max_stages "Aspen_stage02" "aspen" 6). reflexivity.
Defined.

Lemma lower_char_idem c : Str.lower_char (Str.lower_char c) = Str.lower_char c.
Proof. by destruct c as [[] [] [] [] [] [] [] []]. Qed.

Lemma lower_upper_char c : Str.lower_char (Str.upper_char c) = Str.lower_char c.
Proof. by destruct c as [[] [] [] [] [] [] [] []]. Qed.

Lemma upper_char_idem c : Str.upper_char (Str.upper_char c) = Str.upper_char c.
Proof. by destruct c as [[] [] [] [] [] [] [] []]. Qed.

Lemma upper_lower_char c : Str.upper_char (Str.lower_char c) = Str.upper_char c.
Proof. by destruct c as [[] [] [] [] [] [] [] []]. Qed.

Lemma map_chars_compose f g h s :
  (∀ c, f (g c) = h c) → Str.map_chars f (Str.map_chars g s) = Str.map_chars h s.
Proof. intros E. induction s as [|c s IH]; simpl; [done|]. by rewrite E, IH. Qed.

Lemma lower_idem s : Str.lower (Str.lower s) = Str.lower s.
Proof. apply map_chars_compose, lower_char_idem. Qed.

Lemma lower_upper s : Str.lower (Str.upper s) = Str.lower s.
Proof. apply map_chars_compose, lower_upper_char. Qed.

Lemma upper_idem s : Str.upper (Str.upper s) = Str.upper s.
Proof. apply map_chars_compose, upper_char_idem. Qed.

Lemma upper_lower s : Str.upper (Str.lower s) = Str.upper s.
Proof. apply map_chars_compose, upper_lower_char. Qed.

Lemma remove_char_idem c s : Str.remove_char c (Str.remove_char c s) = Str.remove_char c s.
Proof.
  induction s as [|d s IH]; simpl; [done|].
  destruct (Ascii.eqb c d) eqn:E; [done|]. simpl. by rewrite E, IH.
Qed.

Lemma remove_char_comm a b s :
  Str.remove_char a (Str.remove_char b s) = Str.remove_char b (Str.remove_char a s).
Proof.
  induction s as [|d s IH]; simpl; [done|].
  destruct (Ascii.eqb b d) eqn:Eb, (Ascii.eqb a d) eqn:Ea; simpl;
    rewrite ?Ea, ?Eb, ?IH; done.
Qed.

Lemma lower_remove_char c s :
  (∀ d, Ascii.eqb c (Str.lower_char d) = Ascii.eqb c d) →
  Str.lower (Str.remove_char c s) = Str.remove_char c (Str.lower s).
Proof.
  intros Hc. unfold Str.lower. induction s as [|d s IH]; simpl; [done|].
  rewrite Hc. destruct (Ascii.eqb c d); [done|]. simpl. by rewrite IH.
Qed.

Lemma normalize_idem s : normalize (normalize s) = normalize s.
Proof.
  unfold normalize.
  rewrite !lower_remove_char by (by intros [[] [] [] [] [] [] [] []]).
  rewrite lower_idem.
  set (x := Str.lower s).
  rewrite (remove_char_comm "_" " "), (remove_char_comm "_" "-"), remove_char_idem.
  rewrite (remove_char_comm "-" " "), remove_char_idem.
  by rewrite remove_char_idem.
Qed.

(** X4. For a name of ASCII characters the classifier does not look at
    letter case, underscores, hyphens or blanks: the name, the name in
    capitals, the name in small letters and the name with those
    separators taken out are classified alike. *)
Theorem classifier_ignores_case_and_separators (name : string) :
  Str.is_ascii name = true →
  detect_tree_type (Str.upper name) = detect_tree_type name ∧
  detect_tree_type (Str.lower name) = detect_tree_type name ∧
  detect_tree_type (normalize name) = detect_tree_type name ∧
  detect_tree_type (Str.remove_char "_" name) = detect_tree_type name ∧
  detect_tree_type (Str.remove_char "-" name) = detect_tree_type name ∧
  detect_tree_type (Str.remove_char " " name) = detect_tree_type name.
Proof.
  intros _. unfold detect_tree_type. repeat split; f_equal.
  - unfold normalize. by rewrite lower_upper.
  - unfold normalize. by rewrite lower_idem.
  - apply normalize_idem.
  - unfold normalize.
    rewrite lower_remove_char by (by intros [[] [] [] [] [] [] [] []]).
    by rewrite remove_char_idem.
  - unfold normalize.
    rewrite lower_remove_char by (by intros [[] [] [] [] [] [] [] []]).
    by rewrite (remove_char_comm "_" "-"), remove_char_idem.
  - unfold normalize.
    rewrite lower_remove_char by (by intros [[] [] [] [] [] [] [] []]).
    rewrite (remove_char_comm "_" " "), (remove_char_comm "-" " ").
    by rewrite remove_char_idem.
Qed.

Lemma classifier_ignores_case_and_separators_witness :
  detect_tree_type (Str.upper "Pinus-Sylvestris Stage_03")
  = detect_tree_type "Pinus-Sylvestris Stage_03" ∧
  detect_tree_type (Str.lower "Pinus-Sylvestris Stage_03")
  = detect_tree_type "Pinus-Sylvestris Stage_03" ∧
  detect_tree_type (normalize "Pinus-Sylvestris Stage_03")
  = detect_tree_type "Pinus-Sylvestris Stage_03" ∧
  detect_tree_type (Str.remove_char "_" "Pinus-Sylvestris Stage_03")
  = detect_tree_type "Pinus-Sylvestris Stage_03" ∧
  detect_tree_type (Str.remove_char "-" "Pinus-Sylvestris Stage_03")
  = detect_tree_type "Pinus-Sylvestris Stage_03" ∧
  detect_tree_type (Str.remove_char " " "Pinus-Sylvestris Stage_03")
  = detect_tree_type "Pinus-Sylvestris Stage_03".
Proof.
  apply (classifier_ignores_case_and_separators "Pinus-Sylvestris Stage_03").
  reflexivity.
Defined.

(** ** Transform vectors *)

Section ParseVectorMore.

Context {T : Type} `{FloatParse T}.

Lemma all_some_Forall2 {A B : Type} (f : A → option B) (l : list A) (bs : list B) :
  all_some f l = Some bs → Forall2 (λ a b, f a = Some b) l bs.
Proof.
  revert bs. induction l as [|a l IH]; intros bs; simpl.
  - intros [= <-]. constructor.
  - destruct (f a) as [b|] eqn:Ea; [|done].
    destruct (all_some f l) as [bs'|]; [|done].
    intros [= <-]. constructor; [done|]. by apply IH.
Qed.

(** X5. [parse_vector] answers with the default when the attribute is absent,
    when it is empty, and when one of its pieces is not a number for
    [float], wherever that piece stands and whatever the other pieces are. *)
Theorem parse_vector_default_cases (value : option string) (default : list T) :
  (value = None ∨ value = Some EmptyString ∨
   ∃ s tok, value = Some s ∧ tok ∈ Str.split_ws s ∧ of_string tok = None) →
  parse_vector value default = default.
Proof. apply parse_vector_falls_back. Qed.

(** X6. When every piece of a non-empty attribute is a number for [float],
    [parse_vector] answers with those numbers, one for each piece and in
    the order of the text, however many they are: the default and its
    length play no part. *)
Theorem parse_vector_reads_every_number (s : string) (default : list T) :
  s ≠ EmptyString →
  Forall (λ tok, is_Some (of_string tok)) (Str.split_ws s) →
  Forall2 (λ tok x, of_string tok = Some x)
          (Str.split_ws s) (parse_vector (Some s) default) ∧
  length (parse_vector (Some s) default) = length (Str.split_ws s).
Proof.
  intros Hs Hall. split; [|by apply parse_vector_keeps_numbers].
  unfold parse_vector. destruct s as [|c s]; [done|].
  destruct (all_some of_string (Str.split_ws (String c s))) as [v|] eqn:Ev.
  - by apply all_some_Forall2.
  - apply all_some_None in Ev as (tok & Htok & Hbad).
    rewrite Forall_forall in Hall. destruct (Hall tok Htok) as [? ?]. congruence.
Qed.

End ParseVectorMore.

Lemma parse_vector_default_cases_witness :
  (Some "0 4x 0" = None ∨ Some "0 4x 0" = Some EmptyString ∨
   ∃ s tok, Some "0 4x 0" = Some s ∧ tok ∈ Str.split_ws s
            ∧ RealModel.float_of_string tok = None) ∧
  parse_vector (Some "0 4x 0") [1; 1; 1]%R = [1; 1; 1]%R.
Proof.
  assert (Some "0 4x 0" = None ∨ Some "0 4x 0" = Some EmptyString ∨
          ∃ s tok, Some "0 4x 0" = Some s ∧ tok ∈ Str.split_ws s
                   ∧ RealModel.float_of_string tok = None) as Hcase.
  { right. right. exists "0 4x 0", "4x". split; [reflexivity|].
    split; [|reflexivity]. change (Str.split_ws "0 4x 0") with ["0"; "4x"; "0"].
    apply elem_of_cons. right. apply elem_of_cons. by left. }
  split; [exact Hcase|].
  apply (@parse_vector_default_cases R RealModel.parse (Some "0 4x 0") [1; 1; 1]%R Hcase).
Defined.

Lemma parse_vector_reads_every_number_witness :
  "1.5 -2 3e2 4" ≠ EmptyString ∧
  Forall (λ tok, is_Some (RealModel.float_of_string tok)) (Str.split_ws "1.5 -2 3e2 4") ∧
  length (parse_vector (T:=R) (Some "1.5 -2 3e2 4") [0; 0; 0]%R) = 4%nat.
Proof.
  assert (Forall (λ tok, is_Some (RealModel.float_of_string tok))
                 (Str.split_ws "1.5 -2 3e2 4")) as Hall.
  { repeat constructor; by eexists. }
  split; [done|]. split; [exact Hall|].
  apply (@parse_vector_reads_every_number R RealModel.parse "1.5 -2 3e2 4" [0; 0; 0]%R);
    done.
Defined.

(** ** Catalog: keys, growth of the catalog, stage lookup *)

Section CatalogMore.

Context `{PathLib}.

Lemma load_all_ind (P : TreeTypeLoader → Prop) :
  P new_loader →
  (∀ self src base, P self → P (load_from_xml self src base).1) →
  ∀ calls, P (load_all calls).
Proof.
  intros Hnew Hstep calls. unfold load_all.
  cut (∀ self, P self →
         P (fold_left (λ self call, (load_from_xml self call.1 call.2).1) calls self)).
  { intros Hc. by apply Hc. }
  induction calls as [|[src base] calls IH]; intros self Hself; [done|].
  simpl. apply IH. by apply Hstep.
Qed.

Lemma fold_add_tree_type_inv (P : string → TreeTypeDesc → Prop) base es st :
  (∀ e m c, map_Forall P m → map_Forall P (add_tree_type base (m, c) e).1) →
  map_Forall P st.1 →
  map_Forall P (fold_left (add_tree_type base) es st).1.
Proof.
  intros Hstep. revert st. induction es as [|e es IH]; intros [m c] Hst; [done|].
  simpl. apply IH. by apply Hstep.
Qed.

Lemma load_from_xml_inv (P : string → TreeTypeDesc → Prop) self src base :
  (∀ e m c, map_Forall P m → map_Forall P (add_tree_type base (m, c) e).1) →
  map_Forall P (tree_types self) →
  map_Forall P (tree_types (load_from_xml self src base).1).
Proof.
  intros Hstep Hself. destruct src as [| |rt]; simpl; [done..|].
  set (es := findall _ _).
  pose proof (fold_add_tree_type_inv P base es (tree_types self, 0) Hstep Hself) as Hf.
  by destruct (fold_left _ es _).
Qed.

Lemma add_tree_type_keyed base e m c :
  map_Forall (λ k d, k = Str.upper (name d) ∧ name d ≠ EmptyString) m →
  map_Forall (λ k d, k = Str.upper (name d) ∧ name d ≠ EmptyString)
             (add_tree_type base (m, c) e).1.
Proof.
  intros Hm. unfold add_tree_type.
  destruct (get_or e "name" EmptyString) as [|a nm] eqn:En; [done|].
  destruct (parse_stages base e) as [|s ss]; [done|].
  simpl. apply map_Forall_insert_2; [|done]. by split.
Qed.

Lemma load_all_keyed calls :
  map_Forall (λ k d, k = Str.upper (name d) ∧ name d ≠ EmptyString)
             (tree_types (load_all calls)).
Proof.
  apply (load_all_ind (λ l, map_Forall _ (tree_types l))).
  - apply map_Forall_empty.
  - intros self src base Hself. apply load_from_xml_inv; [|done].
    intros e m c. apply add_tree_type_keyed.
Qed.

Lemma load_all_ok calls : catalog_ok (load_all calls).
Proof.
  apply (load_all_ind catalog_ok).
  - apply map_Forall_empty.
  - intros self src base. apply load_from_xml_ok.
Qed.

(** X7. Every descriptor of the catalog is stored under the capitals of its
    own name, which is not empty, so [get_type] finds it under that name;
    when the name is of ASCII characters, [get_type] finds it under every
    ASCII spelling that differs from the name in letter case only.  Its
    maximal stage is its number of stages and is at least 1. *)
Theorem registered_type_found_by_name (calls : list (source * option string))
    (key : string) (d : TreeTypeDesc) :
  tree_types (load_all calls) !! key = Some d →
  key = Str.upper (name d) ∧
  name d ≠ EmptyString ∧
  get_type (load_all calls) (name d) = Some d ∧
  (∀ spelling,
     Str.is_ascii (name d) = true → Str.is_ascii spelling = true →
     Str.lower spelling = Str.lower (name d) →
     get_type (load_all calls) spelling = Some d) ∧
  get_max_stage (load_all calls) (name d) = Z.of_nat (length (stages d)) ∧
  1 ≤ get_max_stage (load_all calls) (name d).
Proof.
  intros Hd.
  destruct (load_all_keyed calls key d Hd) as [-> Hname].
  destruct (load_all_ok calls _ d Hd) as [_ Hne].
  unfold get_max_stage, get_type. rewrite Hd.
  repeat split; try done.
  - intros spelling _ _ Hcase.
    by rewrite <- (upper_lower spelling), Hcase, upper_lower.
  - unfold max_stage. destruct (stages d); [done|]. simpl. lia.
Qed.

Lemma fold_add_tree_type_count base es m c :
  c ≤ (fold_left (add_tree_type base) es (m, c)).2 ≤ c + Z.of_nat (length es) ∧
  (size (fold_left (add_tree_type base) es (m, c)).1
   ≤ size m + Z.to_nat ((fold_left (add_tree_type base) es (m, c)).2 - c))%nat ∧
  ((fold_left (add_tree_type base) es (m, c)).2 = c →
   (fold_left (add_tree_type base) es (m, c)).1 = m).
Proof.
  revert m c. induction es as [|e es IH]; intros m c.
  - simpl. repeat split; try lia; done.
  - cbn [fold_left length].
    assert ((add_tree_type base (m, c) e = (m, c)) ∨
            ∃ k d, add_tree_type base (m, c) e = (<[k:=d]> m, c + 1)) as [->|(k & d & ->)].
    { unfold add_tree_type. destruct (get_or e "name" EmptyString); [by left|].
      destruct (parse_stages base e); [by left|]. right. by eexists _, _. }
    + destruct (IH m c) as (H1 & H2 & H3). repeat split; try lia. done.
    + destruct (IH (<[k:=d]> m) (c + 1)) as (H1 & H2 & H3).
      assert (size (<[k:=d]> m) ≤ S (size m))%nat as Hs.
      { destruct (m !! k) eqn:Ek.
        - rewrite map_size_insert_Some by (by eexists). lia.
        - rewrite map_size_insert_None by done. lia. }
      repeat split; try lia.
Qed.

(** X8. A call of [load_from_xml] never takes a type out of the catalog.  The
    count it returns is not negative, the catalog grows by at most that
    count (an entry that replaces a type is counted but adds nothing), and
    a count of 0 means that the catalog is exactly as it was. *)
Theorem load_only_adds (self : TreeTypeLoader) (src : source) (base : option string) :
  let after := (load_from_xml self src base).1 in
  let count := (load_from_xml self src base).2 in
  (∀ key, is_Some (tree_types self !! key) → is_Some (tree_types after !! key)) ∧
  0 ≤ count ∧
  (size (tree_types after) ≤ size (tree_types self) + Z.to_nat count)%nat ∧
  (count = 0 → after = self).
Proof.
  intros after count. split.
  - intros key [d Hd]. unfold after.
    destruct (load_from_xml_union self src base) as [-> _].
    rewrite lookup_union. rewrite Hd.
    by destruct (tree_types (load_from_xml new_loader src base).1 !! key).
  - unfold after, count. destruct src as [| |rt]; simpl.
    + repeat split; try done. lia.
    + repeat split; try done. lia.
    + set (es := findall _ _).
      pose proof (fold_add_tree_type_count base es (tree_types self) 0) as (H1 & H2 & H3).
      destruct (fold_left _ es _) as [m c]. cbn [fst snd tree_types] in *.
      rewrite Z.sub_0_r in H2. repeat split; try lia.
      intros Hc. rewrite (H3 Hc). by destruct self.
Qed.

Lemma find_variation_range base_name vars idx v :
  find_variation base_name vars idx = Some v →
  idx ≤ v < idx + Z.of_nat (length vars).
Proof.
  revert idx. induction vars as [|x vars IH]; intros idx; simpl; [done|].
  destruct (_ || _).
  - intros [= <-]. lia.
  - intros Hv%IH. lia.
Qed.

Lemma find_in_stages_range base_name l s v :
  find_in_stages base_name l = Some (s, v) →
  ∃ k st, l !! k = Some st ∧ s = stage_index st ∧
          1 ≤ v ≤ Z.of_nat (length (variations st)).
Proof.
  induction l as [|st l IH]; simpl; [done|].
  destruct (find_variation base_name (variations st) 1) as [v'|] eqn:Ev.
  - intros [= <- <-]. exists 0%nat, st. apply find_variation_range in Ev.
    repeat split; try done; lia.
  - intros (k & st' & Hk & Hs & Hv)%IH. by exists (S k), st'.
Qed.

(** X9. For a type of the catalog, the stage and variation that
    [find_stage_and_variation] answers for any file name are a stage of
    that type and, whether a variation matched or the default was taken,
    a variation that this stage has: the stage lies between 1 and the
    maximal stage and the variation between 1 and the number of
    variations of the stage. *)
Theorem find_stage_and_variation_in_range (calls : list (source * option string))
    (tree_type_name filename : string) (d : TreeTypeDesc) (stage variation : Z) :
  get_type (load_all calls) tree_type_name = Some d →
  find_stage_and_variation (load_all calls) tree_type_name filename
  = (stage, variation) →
  1 ≤ stage ≤ get_max_stage (load_all calls) tree_type_name ∧
  ∃ st, stages d !! Z.to_nat (stage - 1) = Some st ∧
        stage_index st = stage ∧
        1 ≤ variation ≤ Z.of_nat (length (variations st)).
Proof.
  intros Hd. unfold find_stage_and_variation, get_max_stage. rewrite Hd.
  destruct (load_all_ok calls _ d Hd) as [Hc Hne].
  unfold find_stage_by_filename, max_stage.
  destruct (find_in_stages _ (stages d)) as [[s v]|] eqn:Ef.
  - intros [= <- <-].
    apply find_in_stages_range in Ef as (k & st & Hk & -> & Hv).
    destruct (Hc k st Hk) as [Hi Hvar].
    pose proof (lookup_lt_Some _ _ _ Hk).
    split; [lia|]. exists st. rewrite Hi.
    replace (Z.to_nat (Z.of_nat (S k) - 1)) with k by lia.
    repeat split; try done; lia.
  - intros [= <- <-].
    destruct (stages d) as [|s0 ss] eqn:Es; [done|].
    assert (is_Some ((s0 :: ss) !! length ss)) as [st Hst]
      by (apply lookup_lt_is_Some; simpl; lia).
    destruct (Hc _ st Hst) as [Hi Hvar].
    split; [simpl length; lia|]. exists st.
    replace (Z.to_nat (Z.of_nat (length (s0 :: ss)) - 1)) with (length ss)
      by (simpl length; lia).
    repeat split; try done; try (simpl length; lia).
    destruct (variations st); [done|]. simpl length. lia.
Qed.

Lemma find_variation_Some base_name vars idx v :
  find_variation base_name vars idx = Some v →
  ∃ j x, vars !! j = Some x ∧ v = idx + Z.of_nat j ∧
         file_matches base_name x = true ∧
         ∀ j' x', (j' < j)%nat → vars !! j' = Some x' →
                  file_matches base_name x' = false.
Proof.
  revert idx. induction vars as [|x vars IH]; intros idx; simpl; [done|].
  fold (file_matches base_name x).
  destruct (file_matches base_name x) eqn:Ex.
  - intros [= <-]. exists 0%nat, x. repeat split; [lia|done|]. intros; lia.
  - intros (j & y & Hj & -> & Hy & Hmin)%IH.
    exists (S j), y. repeat split; [done|lia|done|].
    intros [|j'] x' Hlt; simpl; [by intros [= <-]|].
    apply Hmin. lia.
Qed.

Lemma find_variation_None base_name vars idx :
  find_variation base_name vars idx = None →
  ∀ j x, vars !! j = Some x → file_matches base_name x = false.
Proof.
  revert idx. induction vars as [|x vars IH]; intros idx; simpl; [done|].
  fold (file_matches base_name x).
  destruct (file_matches base_name x) eqn:Ex; [done|].
  intros Hn [|j] y; simpl; [by intros [= <-]|]. by apply (IH _ Hn).
Qed.

Lemma find_in_stages_Some base_name l s v :
  find_in_stages base_name l = Some (s, v) →
  ∃ k st j x,
    l !! k = Some st ∧ s = stage_index st ∧
    variations st !! j = Some x ∧ v = Z.of_nat j + 1 ∧
    file_matches base_name x = true ∧
    ∀ k' st' j' x',
      l !! k' = Some st' → variations st' !! j' = Some x' →
      (k' < k ∨ k' = k ∧ j' < j)%nat → file_matches base_name x' = false.
Proof.
  induction l as [|st l IH]; simpl; [done|].
  destruct (find_variation base_name (variations st) 1) as [v'|] eqn:Ev.
  - intros [= <- <-].
    apply find_variation_Some in Ev as (j & x & Hj & -> & Hx & Hmin).
    exists 0%nat, st, j, x. repeat split; [done|lia|done|].
    intros [|k'] st' j' x'; simpl; [|lia].
    intros [= <-] Hj' [?|[_ ?]]; [lia|]. by apply (Hmin j').
  - intros (k & st0 & j & x & Hk & -> & Hj & -> & Hx & Hmin)%IH.
    exists (S k), st0, j, x. repeat split; [done..|].
    intros [|k'] st' j' x'; simpl.
    + intros [= <-] Hj' _. by apply (find_variation_None _ _ _ Ev j').
    + intros Hk' Hj' Hlt. apply (Hmin k' st' j' x'); [done..|lia].
Qed.

Lemma find_in_stages_None base_name l :
  find_in_stages base_name l = None →
  ∀ k st j x, l !! k = Some st → variations st !! j = Some x →
              file_matches base_name x = false.
Proof.
  induction l as [|st l IH]; simpl; [done|].
  destruct (find_variation base_name (variations st) 1) as [v'|] eqn:Ev; [done|].
  intros Hn [|k] st' j x; simpl.
  - intros [= <-]. by apply (find_variation_None _ _ _ Ev).
  - by apply IH.
Qed.

(** X10. Asking a type of the catalog for the file of one of its own
    variations never ends in the default.  The answer names a stored
    variation whose file matches the one asked for, under the test of
    [find_stage_by_filename], and it is the first such in the order of
    the stages and, within a stage, of the variations: no stored
    variation before it matches, and the variation asked for is not
    before it. *)
Theorem own_file_is_found (calls : list (source * option string))
    (tree_type_name : string) (d : TreeTypeDesc)
    (k j : nat) (st : TreeTypeStage) (v : Variation) (stage variation : Z) :
  get_type (load_all calls) tree_type_name = Some d →
  stages d !! k = Some st →
  variations st !! j = Some v →
  find_stage_and_variation (load_all calls) tree_type_name (var_filename v)
  = (stage, variation) →
  ∃ (k' j' : nat) (st' : TreeTypeStage) (v' : Variation),
    stage = Z.of_nat k' + 1 ∧ variation = Z.of_nat j' + 1 ∧
    stages d !! k' = Some st' ∧ variations st' !! j' = Some v' ∧
    file_matches (Str.lower (path_stem (var_filename v))) v' = true ∧
    (k' < k ∨ k' = k ∧ j' ≤ j)%nat ∧
    ∀ k'' j'' st'' v'',
      stages d !! k'' = Some st'' → variations st'' !! j'' = Some v'' →
      (k'' < k' ∨ k'' = k' ∧ j'' < j')%nat →
      file_matches (Str.lower (path_stem (var_filename v))) v'' = false.
Proof.
  intros Hd Hk Hj. unfold find_stage_and_variation. rewrite Hd.
  destruct (load_all_ok calls _ d Hd) as [Hc _].
  unfold find_stage_by_filename.
  assert (file_matches (Str.lower (path_stem (var_filename v))) v = true) as Hself.
  { unfold file_matches. by rewrite String.eqb_refl. }
  destruct (find_in_stages _ (stages d)) as [[s w]|] eqn:Ef.
  - intros [= <- <-].
    apply find_in_stages_Some in Ef
      as (k' & st' & j' & v' & Hk' & -> & Hj' & -> & Hv' & Hmin).
    destruct (Hc k' st' Hk') as [-> _].
    exists k', j', st', v'.
    split; [lia|]. split; [done|]. split; [done|]. split; [done|].
    split; [done|]. split.
    + destruct (decide (k < k' ∨ k = k' ∧ j < j')%nat) as [Hlt|Hge]; [|lia].
      rewrite (Hmin k st j v Hk Hj Hlt) in Hself. done.
    + intros k'' j'' st'' v'' H1 H2 H3. by apply (Hmin k'' st'' j'' v'').
  - rewrite (find_in_stages_None _ _ Ef k st j v Hk Hj) in Hself. done.
Qed.

End CatalogMore.

Lemma registered_type_found_by_name_witness :
  get_type (load_all [(Parsed oak_source_A, None)]) "oAk"
  = Some {| name := "OAK"; split_type := "OAK"; title := "Oak";
            stages := parse_stages None
                        (Elem "treeType" [("name", "OAK"); ("title", "Oak")]
                           [ stage_with_file "trees/oak/oak_stage01.i3d";
                             stage_with_file "trees/oak/oak_stage02.i3d";
                             stage_with_file "trees/oak/oak_stage03.i3d" ]) |} ∧
  get_max_stage (load_all [(Parsed oak_source_A, None)]) "OAK" = 3.
Proof.
  destruct (registered_type_found_by_name [(Parsed oak_source_A, None)] "OAK"
              {| name := "OAK"; split_type := "OAK"; title := "Oak";
                 stages := parse_stages None
                        (Elem "treeType" [("name", "OAK"); ("title", "Oak")]
                           [ stage_with_file "trees/oak/oak_stage01.i3d";
                             stage_with_file "trees/oak/oak_stage02.i3d";
                             stage_with_file "trees/oak/oak_stage03.i3d" ]) |})
    as (_ & _ & _ & Hcase & Hmax & _); [by vm_compute|].
  split; [|exact Hmax].
  apply Hcase; reflexivity.
Defined.

(** The descriptor that [oak_source_A] registers. *)
Lemma find_stage_and_variation_in_range_witness :
  1 ≤ 3 ≤ get_max_stage (load_all [(Parsed oak_source_A, None)]) "oak" ∧
  ∃ st, parse_stages None
          (Elem "treeType" [("name", "OAK"); ("title", "Oak")]
             [ stage_with_file "trees/oak/oak_stage01.i3d";
               stage_with_file "trees/oak/oak_stage02.i3d";
               stage_with_file "trees/oak/oak_stage03.i3d" ])
        !! Z.to_nat (3 - 1) = Some st ∧
        stage_index st = 3 ∧ 1 ≤ 1 ≤ Z.of_nat (length (variations st)).
Proof.
  apply (find_stage_and_variation_in_range
           [(Parsed oak_source_A, None)] "oak" "maps/trees/birch_stage07.i3d"
           {| name := "OAK"; split_type := "OAK"; title := "Oak";
              stages := parse_stages None
                        (Elem "treeType" [("name", "OAK"); ("title", "Oak")]
                           [ stage_with_file "trees/oak/oak_stage01.i3d";
                             stage_with_file "trees/oak/oak_stage02.i3d";
                             stage_with_file "trees/oak/oak_stage03.i3d" ]) |}
           3 1); by vm_compute.
Defined.

Lemma own_file_is_found_witness :
  ∃ (k' j' : nat) (st' : TreeTypeStage) (v' : Variation),
    2 = Z.of_nat k' + 1 ∧ 1 = Z.of_nat j' + 1 ∧
    parse_stages None
      (Elem "treeType" [("name", "OAK"); ("title", "Oak")]
         [ stage_with_file "trees/oak/oak_stage01.i3d";
           stage_with_file "trees/oak/oak_stage02.i3d";
           stage_with_file "trees/oak/oak_stage03.i3d" ]) !! k' = Some st' ∧
    variations st' !! j' = Some v' ∧
    file_matches (Str.lower (path_stem "trees/oak/oak_stage02.i3d")) v' = true ∧
    (k' < 1 ∨ k' = 1 ∧ j' ≤ 0)%nat ∧
    ∀ k'' j'' st'' v'',
      parse_stages None
        (Elem "treeType" [("name", "OAK"); ("title", "Oak")]
           [ stage_with_file "trees/oak/oak_stage01.i3d";
             stage_with_file "trees/oak/oak_stage02.i3d";
             stage_with_file "trees/oak/oak_stage03.i3d" ]) !! k'' = Some st'' →
      variations st'' !! j'' = Some v'' →
      (k'' < k' ∨ k'' = k' ∧ j'' < j')%nat →
      file_matches (Str.lower (path_stem "trees/oak/oak_stage02.i3d")) v'' = false.
Proof.
  apply (own_file_is_found
           [(Parsed oak_source_A, None)] "Oak"
           {| name := "OAK"; split_type := "OAK"; title := "Oak";
              stages := parse_stages None
                        (Elem "treeType" [("name", "OAK"); ("title", "Oak")]
                           [ stage_with_file "trees/oak/oak_stage01.i3d";
                             stage_with_file "trees/oak/oak_stage02.i3d";
                             stage_with_file "trees/oak/oak_stage03.i3d" ]) |}
           1 0
           {| stage_index := 2;
              variations := [ {| var_filename := "trees/oak/oak_stage02.i3d";
                                 var_name := None |} ] |}
           {| var_filename := "trees/oak/oak_stage02.i3d"; var_name := None |}
           2 1); by vm_compute.
Defined.

(** ** Transform engine: laws of the composition *)

Section AffineComposition.

Context {T : Type} `{Arith T} `{MathLib T}.
Hypothesis exact : exact_arith T.

Add Ring affine_ring : exact.

Local Open Scope scalar_scope.


(** X12. Over exact arithmetic the position that [extract_world_transform]
    reads off the world matrix of a node is the parent's matrix applied
    to the node's own translation; the rotation and the scale of the node
    have no part in it. *)
Theorem world_position_is_parent_applied_to_translation
    (P : matrix T) (tx ty tz rx ry rz sx sy sz : T) :
  (extract_world_transform
     (multiply_matrices P (transform_matrix tx ty tz rx ry rz sx sy sz))).1
  = (entry P I0 I0 * tx + entry P I0 I1 * ty + entry P I0 I2 * tz + entry P I0 I3,
     entry P I1 I0 * tx + entry P I1 I1 * ty + entry P I1 I2 * tz + entry P I1 I3,
     entry P I2 I0 * tx + entry P I2 I1 * ty + entry P I2 I2 * tz + entry P I2 I3).
Proof.
  unfold extract_world_transform.
  destruct (ltb lit_0_001 _); cbn [fst]; rewrite !multiply_entry;
    repeat f_equal; cbn [transform_matrix rotation_matrix entry col line
                         set_c3 row_of r0 r1 r2 r3 c0 c1 c2 c3]; ring.
Qed.

End AffineComposition.


Lemma world_position_is_parent_applied_to_translation_witness :
  ((extract_world_transform
      (multiply_matrices (scale_x 2) (transform_matrix 10 0 20 0 45 0 1 1 1))).1
   = (entry (scale_x 2) I0 I0 * 10 + entry (scale_x 2) I0 I1 * 0
      + entry (scale_x 2) I0 I2 * 20 + entry (scale_x 2) I0 I3,
      entry (scale_x 2) I1 I0 * 10 + entry (scale_x 2) I1 I1 * 0
      + entry (scale_x 2) I1 I2 * 20 + entry (scale_x 2) I1 I3,
      entry (scale_x 2) I2 I0 * 10 + entry (scale_x 2) I2 I1 * 0
      + entry (scale_x 2) I2 I2 * 20 + entry (scale_x 2) I2 I3))%R.
Proof.
  apply (world_position_is_parent_applied_to_translation R_exact).
Defined.

Module RealTransformMore.

Local Open Scope R_scope.
Local Abbreviation rcos := Rtrigo_def.cos.
Local Abbreviation rsin := Rtrigo_def.sin.



Lemma atan2_R_range (y x : R) : - PI < RealModel.atan2_R y x <= PI.
Proof.
  pose proof PI_RGT_0 as Hpi. pose proof (atan_bound (y / x)) as Hb.
  unfold RealModel.atan2_R.
  destruct (Rlt_dec 0 x) as [Hx|Hx]; [lra|].
  destruct (Rlt_dec x 0) as [Hx'|Hx'].
  - assert (/ x < 0) as Hinv by (by apply Rinv_lt_0_compat).
    destruct (Rle_dec 0 y) as [Hy|Hy].
    + assert (y / x <= 0) as Hq by (unfold Rdiv; nra).
      assert (atan (y / x) <= 0).
      { destruct Hq as [Hq|Hq]; [|rewrite Hq, atan_0; lra].
        pose proof (atan_increasing _ _ Hq) as Hi. rewrite atan_0 in Hi. lra. }
      lra.
    + assert (0 < y / x) as Hq by (unfold Rdiv; nra).
      pose proof (atan_increasing _ _ Hq) as Hi. rewrite atan_0 in Hi. lra.
  - destruct (Rlt_dec 0 y); [lra|]. destruct (Rlt_dec y 0); lra.
Qed.

Lemma atan2_signed_range signs (y x : R) :
  - PI <= RealModel.atan2_signed signs y x <= PI.
Proof.
  pose proof PI_RGT_0 as Hpi. pose proof (atan2_R_range y x).
  unfold RealModel.atan2_signed.
  destruct (Req_dec_T y 0); [|lra].
  destruct (Rlt_dec x 0); [destruct (signs y x).1; lra|].
  destruct (Rlt_dec 0 x); [lra|].
  destruct (signs y x).2; [destruct (signs y x).1; lra|lra].
Qed.


End RealTransformMore.

(** ** Scene walker: the walk without a filter *)

Section WalkerFilter.

Context {T : Type} `{Arith T} `{MathLib T} `{FloatParse T} `{PathLib}.

Local Abbreviation tree_at new p := (∃ t : TreeInstance T, t ∈ new ∧ Tree.element t = p).

Lemma for_children_ext {S : Type} (F G : nat → Element → S → result S) cs :
  Forall (λ c, ∀ i st, F i c st = G i c st) cs →
  ∀ i st, for_children F cs i st = for_children G cs i st.
Proof.
  induction 1 as [|c cs Hc _ IH]; intros i st; simpl; [done|].
  rewrite Hc. destruct (G i c st); simpl; [apply IH|done].
Qed.

Lemma scan_node_without_filter self files (pn pn' : option string) e :
  truthy pn = false → truthy pn' = false →
  ∀ here parent pm flag flag' (st : scan_state T),
    scan_node self files pn e here parent pm flag st
    = scan_node self files pn' e here parent pm flag' st.
Proof.
  intros Hpn Hpn'.
  assert (∀ n, is_tree_parent pn n = false) as Hno.
  { intros n. unfold is_tree_parent. by destruct pn as [[|? ?]|]. }
  assert (∀ n, is_tree_parent pn' n = false) as Hno'.
  { intros n. unfold is_tree_parent. by destruct pn' as [[|? ?]|]. }
  induction e as [t a cs IH] using Element_ind'.
  intros here parent pm flag flag' st. simpl.
  rewrite Hno, Hno'.
  destruct (node_matrix (Elem t a cs) pm) as [[wm scale]|]; [|done]. simpl.
  assert (∀ f f', classify self files pn (Elem t a cs) here parent wm scale f st
                  = classify self files pn' (Elem t a cs) here parent wm scale f' st)
    as Hcl.
  { intros f f'. unfold classify, collecting. by rewrite Hpn, Hpn'. }
  rewrite (Hcl (flag || false) (flag' || false)).
  apply for_children_ext.
  eapply Forall_impl; [exact IH|]. intros c Hc i st1. simpl.
  destruct (scanned_tag _); [apply Hc|done].
Qed.

(** X15. An empty filter is no filter: [find_trees] called with the empty
    string as [parent_name] gives what it gives when called without a
    [parent_name], be it the list of trees or the exception. *)
Theorem empty_filter_is_no_filter (self : I3DTreeExtractor) :
  find_trees (T:=T) self (Some EmptyString) = find_trees self None.
Proof.
  unfold find_trees. destruct (find_element self "Scene") as [scene|]; [|done].
  f_equal. apply for_children_ext. apply Forall_forall. intros c _ i st.
  by apply scan_node_without_filter.
Qed.

(** X16. Without a filter, a node that the walk reaches (a child of the
    scene, or a node below one through transform groups, shapes and
    reference nodes only) is among the returned trees exactly when it is
    a reference node whose reference resolves, or a transform group or
    shape whose name the classifier recognises. *)
Theorem unfiltered_walk_collects_every_tree
    self (found : list (TreeInstance T)) scene i c q ch e :
  find_trees self None = Ok found →
  find_element self "Scene" = Some scene →
  children scene !! i = Some c →
  chain c q = Some ch →
  Forall (λ n, scanned self n = true) (tail ch) →
  last ch = Some e →
  tree_at found (i :: q) ↔
  (local_tag self (tag e) = "ReferenceNode" ∧
   is_Some (resolve_reference (build_file_id_map self) (get e "referenceId"))) ∨
  ((local_tag self (tag e) = "TransformGroup" ∨ local_tag self (tag e) = "Shape") ∧
   local_tag self (tag e) ≠ "ReferenceNode" ∧
   is_Some (detect_tree_type (get_or e "name" EmptyString))).
Proof.
  intros Hrun Hscene Hc Hch Hsc Hlast.
  rewrite (find_trees_trees _ _ _ _ Hrun Hscene).
  assert (∀ flag, yields self (build_file_id_map self) None e flag = true ↔
    (local_tag self (tag e) = "ReferenceNode" ∧
     is_Some (resolve_reference (build_file_id_map self) (get e "referenceId"))) ∨
    ((local_tag self (tag e) = "TransformGroup" ∨ local_tag self (tag e) = "Shape") ∧
     local_tag self (tag e) ≠ "ReferenceNode" ∧
     is_Some (detect_tree_type (get_or e "name" EmptyString)))) as Hyield.
  { intros flag. unfold yields, collecting. simpl truthy. simpl negb. simpl orb.
    rewrite !andb_true_r.
    destruct (String.eqb_spec (local_tag self (tag e)) "ReferenceNode") as [Et|Et].
    - rewrite bool_decide_eq_true. split; [by left|].
      intros [[_ ?]|(_ & ? & _)]; done.
    - destruct (String.eqb_spec (local_tag self (tag e)) "TransformGroup") as [Eg|Eg];
        [|destruct (String.eqb_spec (local_tag self (tag e)) "Shape") as [Es|Es]];
        simpl orb; cbv iota.
      + rewrite bool_decide_eq_true. split; [by right; auto|].
        intros [[? _]|(_ & _ & ?)]; done.
      + rewrite bool_decide_eq_true. split; [by right; auto|].
        intros [[? _]|(_ & _ & ?)]; done.
      + split; [done|]. intros [[? _]|([?|?] & _)]; done. }
  split.
  - intros (i' & c' & q' & Hc' & [= <- <-] & Hq).
    rewrite Hc in Hc'. injection Hc' as <-.
    apply emitted_chain in Hq as (ch' & e' & Hch' & _ & Hlast' & Hy).
    rewrite Hch in Hch'. injection Hch' as <-.
    rewrite Hlast in Hlast'. injection Hlast' as <-.
    by apply Hyield in Hy.
  - intros Hy. exists i, c, q. repeat split; [done|].
    apply emitted_chain. exists ch, e. repeat split; [done..|]. by apply Hyield.
Qed.

End WalkerFilter.

Lemma unfiltered_walk_collects_every_tree_witness :
  (∃ t, t ∈ demo_tree1_found :: demo_trees_inside ∧ Tree.element t = [0; 0]%nat) ↔
  (local_tag demo (tag demo_tree1) = "ReferenceNode" ∧
   is_Some (resolve_reference (build_file_id_map demo) (get demo_tree1 "referenceId"))) ∨
  ((local_tag demo (tag demo_tree1) = "TransformGroup"
    ∨ local_tag demo (tag demo_tree1) = "Shape") ∧
   local_tag demo (tag demo_tree1) ≠ "ReferenceNode" ∧
   is_Some (detect_tree_type (get_or demo_tree1 "name" EmptyString))).
Proof.
  apply (unfiltered_walk_collects_every_tree demo
           (demo_tree1_found :: demo_trees_inside)
           demo_scene 0 demo_groupA [0%nat] [demo_groupA; demo_tree1] demo_tree1);
    try reflexivity.
  repeat constructor.
Defined.

(** ** Scene walker: the records of the trees *)

Lemma loc_lt_app (here p q : loc) : loc_lt (here ++ p) (here ++ q) ↔ loc_lt p q.
Proof.
  induction here as [|i here IH]; simpl; [done|]. rewrite IH. split; [|by right].
  intros [?|[_ ?]]; [lia|done].
Qed.

Lemma loc_lt_irrefl (p : loc) : ¬ loc_lt p p.
Proof. induction p as [|i p IH]; simpl; [tauto|]. intros [?|[_ ?]]; [lia|done]. Qed.

Lemma in_document_order_app (l1 l2 : list loc) :
  in_document_order (l1 ++ l2) ↔
  in_document_order l1 ∧ in_document_order l2 ∧
  ∀ p q, p ∈ l1 → q ∈ l2 → loc_lt p q.
Proof.
  induction l1 as [|x l1 IH]; simpl.
  - split; [intros ?; repeat split; [done|]|by intros (_ & ? & _)].
    intros p q Hp. by apply elem_of_nil in Hp.
  - rewrite IH, Forall_app, !Forall_forall. split.
    + intros ((H1 & H2) & H3 & H4 & H5). repeat split; try done.
      intros p q [->|Hp]%elem_of_cons Hq; [by apply H2|by apply H5].
    + intros ((H1 & H2) & H3 & H4). repeat split; try done.
      * intros q Hq. apply H4; [by apply elem_of_cons; left|done].
      * intros p q Hp Hq. apply H4; [by apply elem_of_cons; right|done].
Qed.

Lemma in_document_order_NoDup (l : list loc) : in_document_order l → NoDup l.
Proof.
  induction l as [|x l IH]; simpl; [constructor|].
  intros [Hx Hl]. constructor; [|by apply IH].
  intros Hin. rewrite Forall_forall in Hx. by apply (loc_lt_irrefl x), Hx.
Qed.

Lemma in_document_order_lookup (l : list loc) i j p q :
  in_document_order l → l !! i = Some p → l !! j = Some q → (i < j)%nat →
  loc_lt p q.
Proof.
  revert i j. induction l as [|x l IH]; intros i j; simpl; [done|].
  intros [Hx Hl] Hi Hj Hlt. destruct i as [|i], j as [|j]; try lia; simpl in *.
  - injection Hi as <-. rewrite Forall_forall in Hx. apply Hx.
    by apply list_elem_of_lookup_2 in Hj.
  - apply (IH i j); [done..|lia].
Qed.

Section WalkerRecords.

Context {T : Type} `{Arith T} `{MathLib T} `{FloatParse T} `{PathLib}.

Variable self : I3DTreeExtractor.
Variable files : gmap (option string) (string * Z * Z).
Variable parent_name : option string.

Local Abbreviation scan := (scan_node (T:=T) self files parent_name).

Lemma make_tree_fields name ty (wm : matrix T) scale stage var here parent :
  let t := make_tree name ty wm scale stage var here parent in
  Tree.node_name t = name ∧ Tree.tree_type t = ty ∧
  ((Tree.x t, Tree.y t, Tree.z t), (Tree.rx t, Tree.ry t, Tree.rz t))
  = extract_world_transform wm ∧
  (Tree.sx t, Tree.sy t, Tree.sz t) = scale ∧
  Tree.growth_state t = stage ∧ Tree.variation_index t = var ∧
  Tree.element t = here ∧ Tree.parent t = parent.
Proof.
  unfold make_tree.
  destruct (extract_world_transform wm) as [[[? ?] ?] [[? ?] ?]].
  by destruct scale as [[? ?] ?].
Qed.

(** The two branches of [scan_node] in one. *)
Lemma classify_tree_data elem here parent wm scale flag (st : scan_state T) :
  classify self files parent_name elem here parent wm scale flag st
  = match tree_data self files elem with
    | Some (ty, stage, var) =>
        if collecting parent_name flag
        then append_tree (make_tree (get_or elem "name" EmptyString) ty wm scale
                                    stage var here parent) st
        else st
    | None => st
    end.
Proof.
  unfold classify, tree_data.
  destruct (String.eqb (local_tag self (tag elem)) "ReferenceNode").
  - by destruct (resolve_reference _ _) as [[[? ?] ?]|].
  - destruct (_ || _); [|done].
    by destruct (detect_tree_type _) as [[? ?]|].
Qed.

Local Abbreviation layout_spec e :=
  (∀ here parent pm flag (st st' : scan_state T),
     scan e here parent pm flag st = Ok st' →
     ∃ new, trees st' = trees st ++ new ∧
       in_document_order (Tree.element <$> new) ∧
       ∀ t, t ∈ new → built_below self files e here parent pm t).

Lemma built_below_element e here parent pm t :
  built_below self files e here parent pm t → ∃ q, Tree.element t = here ++ q.
Proof.
  intros (q & r & e' & wm & scale & ty & stage & var & _ & _ & _ & _ & _ & ->).
  exists q. apply make_tree_fields.
Qed.

Lemma for_children_layout (ok : Element → bool) here wm flag F cs :
  (∀ i c st, F i c st = if ok c then scan c (here ++ [i]) here wm flag st else Ok st) →
  Forall (λ e, layout_spec e) cs →
  ∀ i0 (st st' : scan_state T),
    for_children F cs i0 st = Ok st' →
    ∃ new, trees st' = trees st ++ new ∧
      in_document_order (Tree.element <$> new) ∧
      ∀ t, t ∈ new →
           ∃ j c, cs !! j = Some c ∧ ok c = true ∧
                  built_below self files c (here ++ [(i0 + j)%nat]) here wm t.
Proof.
  intros HF Hcs. induction Hcs as [|c cs Hc _ IH]; intros i0 st st' Hrun.
  - simpl in Hrun. injection Hrun as <-. exists []. rewrite app_nil_r.
    split; [done|]. split; [done|]. intros t Ht. by apply elem_of_nil in Ht.
  - simpl in Hrun. rewrite HF in Hrun.
    destruct (ok c) eqn:Hok.
    + destruct (scan c (here ++ [i0]) here wm flag st) as [st1|] eqn:Hscan; [|done].
      simpl in Hrun.
      destruct (Hc _ _ _ _ _ _ Hscan) as (new1 & E1 & N1 & C1).
      destruct (IH _ _ _ Hrun) as (new2 & E2 & N2 & C2).
      exists (new1 ++ new2). split; [by rewrite E2, E1, app_assoc|]. split.
      * rewrite fmap_app. apply in_document_order_app. split; [done|]. split; [done|].
        intros p p' (t1 & -> & Ht1)%list_elem_of_fmap (t2 & -> & Ht2)%list_elem_of_fmap.
        destruct (built_below_element _ _ _ _ _ (C1 t1 Ht1)) as [q1 Eq1].
        destruct (C2 t2 Ht2) as (j & c' & _ & _ & Hb).
        destruct (built_below_element _ _ _ _ _ Hb) as [q2 Eq2].
        rewrite Eq1, Eq2, <- !app_assoc. apply loc_lt_app. simpl. left. lia.
      * intros t [Ht|Ht]%elem_of_app.
        -- exists 0%nat, c. rewrite Nat.add_0_r. repeat split; [done|]. by apply C1.
        -- destruct (C2 t Ht) as (j & c' & Hj & Hok' & Hb).
           exists (S j), c'. rewrite Nat.add_succ_r. done.
    + simpl in Hrun.
      destruct (IH _ _ _ Hrun) as (new2 & E2 & N2 & C2).
      exists new2. split; [done|]. split; [done|].
      intros t Ht. destruct (C2 t Ht) as (j & c' & Hj & Hok' & Hb).
      exists (S j), c'. rewrite Nat.add_succ_r. done.
Qed.

Lemma scan_node_layout e : layout_spec e.
Proof.
  induction e as [tg a cs IH] using Element_ind'.
  intros here parent pm flag st st' Hrun.
  simpl in Hrun.
  destruct (node_matrix (Elem tg a cs) pm) as [[wm scale]|] eqn:Hm; [|done].
  simpl in Hrun.
  set (flag' := flag || is_tree_parent parent_name
                          (get_or (Elem tg a cs) "name" EmptyString)) in *.
  set (st0 := if is_tree_parent parent_name (get_or (Elem tg a cs) "name" EmptyString)
              then note_tree_parent here st else st) in *.
  assert (trees st0 = trees st) as Est0.
  { unfold st0, note_tree_parent. destruct (is_tree_parent _ _); [|done].
    by destruct (bool_decide _). }
  eapply (for_children_layout (scanned self) here wm flag') in Hrun
      as (new2 & E2 & N2 & C2); [|done|done].
  rewrite classify_tree_data in E2.
  assert (∀ t, t ∈ new2 → ∃ j q, Tree.element t = here ++ j :: q) as Hdeep.
  { intros t Ht. destruct (C2 t Ht) as (j & c & _ & _ & Hb).
    destruct (built_below_element _ _ _ _ _ Hb) as [q Eq].
    exists (0 + j)%nat, q. by rewrite Eq, <- app_assoc. }
  assert (∀ t, t ∈ new2 → built_below self files (Elem tg a cs) here parent pm t) as Hbelow.
  { intros t Ht. destruct (C2 t Ht) as (j & c & Hj & Hok & Hb).
    destruct Hb as (q & r & e & wm' & scale' & ty & stage & var
                    & Hch & Hsc & Hlast & Hw & Hd & ->).
    exists (j :: q), (c :: r), e, wm', scale', ty, stage, var.
    simpl in Hj. repeat split.
    - simpl. rewrite Hj, Hch. done.
    - by constructor.
    - done.
    - simpl. rewrite Hm. done.
    - done.
    - rewrite <- !app_assoc. simpl. f_equal.
      destruct q as [|i q]; [|done].
      by rewrite removelast_last. }
  destruct (tree_data self files (Elem tg a cs)) as [[[ty stage] var]|] eqn:Hd;
    [destruct (collecting parent_name flag')|].
  - eexists (_ :: new2). split; [|split].
    + rewrite E2. simpl. by rewrite Est0, <- app_assoc.
    + rewrite fmap_cons. split; [|done].
      apply Forall_forall. intros p (t & -> & Ht)%list_elem_of_fmap.
      destruct (Hdeep t Ht) as (j & q & Eq).
      pose proof (make_tree_fields
        (get_or (Elem tg a cs) "name" EmptyString) ty wm scale stage var here parent)
        as (_ & _ & _ & _ & _ & _ & Ee & _).
      rewrite Ee, Eq. rewrite <- (app_nil_r here) at 1. by apply loc_lt_app.
    + intros t [->|Ht]%elem_of_cons; [|by apply Hbelow].
      exists [], [], (Elem tg a cs), wm, scale, ty, stage, var.
      rewrite app_nil_r. by repeat split.
  - exists new2. split; [by rewrite E2, Est0|]. by split.
  - exists new2. split; [by rewrite E2, Est0|]. by split.
Qed.

End WalkerRecords.

Section FindTreesRecords.

Context {T : Type} `{Arith T} `{MathLib T} `{FloatParse T} `{PathLib}.

Lemma find_trees_layout self parent_name scene (found : list (TreeInstance T)) :
  find_trees self parent_name = Ok found →
  find_element self "Scene" = Some scene →
  in_document_order (Tree.element <$> found) ∧
  ∀ t, t ∈ found →
       ∃ i c, children scene !! i = Some c ∧
              built_below self (build_file_id_map self) c [i] [] identity t.
Proof.
  unfold find_trees. intros Hrun Hscene. rewrite Hscene in Hrun.
  destruct (for_children _ (children scene) 0%nat _) as [st|] eqn:Hloop; [|done].
  simpl in Hrun. injection Hrun as <-.
  eapply (for_children_layout self (build_file_id_map self) parent_name
            (λ _, true) []) in Hloop as (new & E & N & C).
  - simpl in E. subst new. split; [done|].
    intros t Ht. destruct (C t Ht) as (j & c & Hj & _ & Hb). by exists j, c.
  - done.
  - apply Forall_forall. intros e _. apply scan_node_layout.
Qed.

Lemma world_along_last (pm : matrix T) c r e wm scale :
  world_along pm c r = Ok (wm, scale) → last (c :: r) = Some e →
  ∃ pm', node_matrix e pm' = Ok (wm, scale).
Proof.
  revert pm c. induction r as [|c' r IH]; intros pm c; simpl.
  - intros Hm [= <-]. by exists pm.
  - destruct (node_matrix c pm) as [[wm0 s0]|]; [|done]. simpl.
    intros Hw Hlast. by apply (IH wm0 c').
Qed.

Lemma node_matrix_scale (e : Element) (pm wm : matrix T) s0 s1 s2 :
  node_matrix e pm = Ok (wm, (s0, s1, s2)) →
  item (parse_vector (get e "scale") [one; one; one]) 0 = Ok s0 ∧
  item (parse_vector (get e "scale") [one; one; one]) 1 = Ok s1 ∧
  item (parse_vector (get e "scale") [one; one; one]) 2 = Ok s2.
Proof.
  unfold node_matrix.
  repeat (match goal with
          | |- context [bind (item ?v ?i) _] => destruct (item v i); [|done]
          end; cbn [bind]).
  by intros [= _ <- <- <-].
Qed.

(** X17. Every tree that [find_trees] returns is the record that [scan_node]
    builds at one node of the document: a node reached from a child of
    the scene through transform groups, shapes and reference nodes, whose
    type, stage and variation are those of its file entry or, for a group
    or shape, of the classifier; its position and rotation are read off
    the product of the local matrices from that child down to the node,
    and it records the node's place and the place above as element and
    parent. *)
Theorem found_tree_is_built_along_its_path
    self parent_name scene (found : list (TreeInstance T)) (t : TreeInstance T) :
  find_trees self parent_name = Ok found →
  find_element self "Scene" = Some scene →
  t ∈ found →
  ∃ i c q r e wm scale ty stage var,
    children scene !! i = Some c ∧
    chain c q = Some (c :: r) ∧
    Forall (λ n, scanned self n = true) r ∧
    last (c :: r) = Some e ∧
    world_along identity c r = Ok (wm, scale) ∧
    tree_data self (build_file_id_map self) e = Some (ty, stage, var) ∧
    t = make_tree (get_or e "name" EmptyString) ty wm scale stage var
                  (i :: q) (removelast (i :: q)).
Proof.
  intros Hrun Hscene Ht.
  destruct (find_trees_layout _ _ _ _ Hrun Hscene) as [_ Hall].
  destruct (Hall t Ht) as (i & c & Hc & q & r & e & wm & scale & ty & stage & var
                           & Hch & Hsc & Hlast & Hw & Hd & ->).
  exists i, c, q, r, e, wm, scale, ty, stage, var.
  repeat split; try done. by destruct q.
Qed.

(** X18. The trees that [find_trees] returns stand for pairwise different
    nodes, and the parent recorded in each is the node directly above the
    recorded element: the element is one of the parent's children. *)
Theorem found_trees_are_distinct_children
    self parent_name (found : list (TreeInstance T)) :
  find_trees self parent_name = Ok found →
  NoDup (Tree.element <$> found) ∧
  ∀ t, t ∈ found → ∃ j, Tree.element t = Tree.parent t ++ [j].
Proof.
  intros Hrun.
  destruct (find_element self "Scene") as [scene|] eqn:Hscene.
  - destruct (find_trees_layout _ _ _ _ Hrun Hscene) as [Hnd Hall].
    split; [by apply in_document_order_NoDup|]. intros t Ht.
    destruct (Hall t Ht) as (i & c & Hc & q & r & e & wm & scale & ty & stage & var
                             & Hch & Hsc & Hlast & Hw & Hd & ->).
    pose proof (make_tree_fields (get_or e "name" EmptyString) ty wm scale stage var
                  ([i] ++ q) (match q with [] => [] | _ => removelast ([i] ++ q) end))
      as (_ & _ & _ & _ & _ & _ & -> & ->).
    exists (List.last (i :: q) 0%nat).
    destruct q as [|i' q]; [done|].
    by apply (app_removelast_last (l:=[i] ++ i' :: q)).
  - unfold find_trees in Hrun. rewrite Hscene in Hrun. injection Hrun as <-.
    split; [constructor|]. intros t Ht. by apply elem_of_nil in Ht.
Qed.

(** X19. The name and the scale of a returned tree are the name and the
    scale attribute of its own node (each absent or unreadable scale
    gives 1 1 1): the scales of the groups above the node enter its
    position, but never its scale. *)
Theorem found_tree_has_its_own_scale
    self parent_name scene (found : list (TreeInstance T)) (t : TreeInstance T) :
  find_trees self parent_name = Ok found →
  find_element self "Scene" = Some scene →
  t ∈ found →
  ∃ i c q ch e,
    Tree.element t = i :: q ∧
    children scene !! i = Some c ∧ chain c q = Some ch ∧ last ch = Some e ∧
    Tree.node_name t = get_or e "name" EmptyString ∧
    item (parse_vector (get e "scale") [one; one; one]) 0 = Ok (Tree.sx t) ∧
    item (parse_vector (get e "scale") [one; one; one]) 1 = Ok (Tree.sy t) ∧
    item (parse_vector (get e "scale") [one; one; one]) 2 = Ok (Tree.sz t).
Proof.
  intros Hrun Hscene Ht.
  destruct (find_trees_layout _ _ _ _ Hrun Hscene) as [_ Hall].
  destruct (Hall t Ht) as (i & c & Hc & q & r & e & wm & scale & ty & stage & var
                           & Hch & Hsc & Hlast & Hw & Hd & ->).
  pose proof (make_tree_fields (get_or e "name" EmptyString) ty wm scale stage var
                ([i] ++ q) (match q with [] => [] | _ => removelast ([i] ++ q) end))
    as (En & _ & _ & Es & _ & _ & Ee & _).
  destruct (world_along_last _ _ _ _ _ _ Hw Hlast) as [pm' Hm].
  destruct scale as [[s0 s1] s2].
  apply node_matrix_scale in Hm as (H0' & H1' & H2').
  injection Es as E0 E1 E2.
  exists i, c, q, (c :: r), e.
  repeat split; try done.
  - rewrite H0'. f_equal. symmetry. exact E0.
  - rewrite H1'. f_equal. symmetry. exact E1.
  - rewrite H2'. f_equal. symmetry. exact E2.
Qed.

(** X28. The trees come out in document order: of two trees of the list
    that [find_trees] returns, the earlier one stands for a node that is
    above the node of the later one or comes before it in the document. *)
Theorem found_trees_are_in_document_order
    self parent_name (found : list (TreeInstance T)) (i j : nat)
    (t1 t2 : TreeInstance T) :
  find_trees self parent_name = Ok found →
  found !! i = Some t1 → found !! j = Some t2 → (i < j)%nat →
  loc_lt (Tree.element t1) (Tree.element t2).
Proof.
  intros Hrun Hi Hj Hlt.
  destruct (find_element self "Scene") as [scene|] eqn:Hscene.
  - destruct (find_trees_layout _ _ _ _ Hrun Hscene) as [Hord _].
    apply (in_document_order_lookup (Tree.element <$> found) i j); [done| | |done].
    + by rewrite list_lookup_fmap, Hi.
    + by rewrite list_lookup_fmap, Hj.
  - unfold find_trees in Hrun. rewrite Hscene in Hrun. injection Hrun as <-. done.
Qed.

End FindTreesRecords.

Lemma found_tree_is_built_along_its_path_witness :
  ∃ i c q r e wm scale ty stage var,
    children demo_scene !! i = Some c ∧
    chain c q = Some (c :: r) ∧
    Forall (λ n, scanned demo n = true) r ∧
    last (c :: r) = Some e ∧
    world_along identity c r = Ok (wm, scale) ∧
    tree_data demo (build_file_id_map demo) e = Some (ty, stage, var) ∧
    demo_tree1_found
    = make_tree (get_or e "name" EmptyString) ty wm scale stage var
                (i :: q) (removelast (i :: q)).
Proof.
  apply (found_tree_is_built_along_its_path demo None demo_scene
           (demo_tree1_found :: demo_trees_inside) demo_tree1_found);
    [reflexivity|reflexivity|constructor].
Defined.

Lemma found_trees_are_distinct_children_witness :
  NoDup (Tree.element <$> demo_tree1_found :: demo_trees_inside) ∧
  ∀ t, t ∈ demo_tree1_found :: demo_trees_inside →
       ∃ j, Tree.element t = Tree.parent t ++ [j].
Proof.
  apply (found_trees_are_distinct_children demo None). reflexivity.
Defined.

Lemma found_tree_has_its_own_scale_witness :
  ∃ i c q ch e,
    Tree.element demo_tree1_found = i :: q ∧
    children demo_scene !! i = Some c ∧ chain c q = Some ch ∧ last ch = Some e ∧
    Tree.node_name demo_tree1_found = get_or e "name" EmptyString ∧
    item (parse_vector (get e "scale") [one; one; one]) 0
    = Ok (Tree.sx demo_tree1_found) ∧
    item (parse_vector (get e "scale") [one; one; one]) 1
    = Ok (Tree.sy demo_tree1_found) ∧
    item (parse_vector (get e "scale") [one; one; one]) 2
    = Ok (Tree.sz demo_tree1_found).
Proof.
  apply (found_tree_has_its_own_scale demo None demo_scene
           (demo_tree1_found :: demo_trees_inside) demo_tree1_found);
    [reflexivity|reflexivity|constructor].
Defined.

(** ** Scene walker: the table of the tree files *)

Section FileTable.

Context `{PathLib}.

Variable self : I3DTreeExtractor.

(** The element is one that [_build_file_id_map] enters in the table. *)
Local Abbreviation tree_file elem :=
  (local_tag self (tag elem) = "File" ∧
   Str.contains (get_or elem "filename" EmptyString) "/trees/" = true ∧
   Str.endswith (get_or elem "filename" EmptyString) ".i3d" = true ∧
   is_Some (detect_tree_type (path_stem (get_or elem "filename" EmptyString)))).

Lemma file_entry_cases m elem :
  (tree_file elem ∧
   ∃ ty mx stage var,
     detect_tree_type (path_stem (get_or elem "filename" EmptyString)) = Some (ty, mx) ∧
     file_entry self m elem = <[ get elem "fileId" := (ty, stage, var) ]> m) ∨
  (¬ tree_file elem ∧ file_entry self m elem = m).
Proof.
  unfold file_entry.
  destruct (String.eqb_spec (local_tag self (tag elem)) "File") as [Et|Et];
    [|right; split; [by intros [? _]|done]].
  destruct (Str.contains _ "/trees/");
    [|right; split; [by intros (_ & ? & _)|done]].
  destruct (Str.endswith _ ".i3d");
    [|right; split; [by intros (_ & _ & ? & _)|done]].
  simpl andb. cbv iota.
  destruct (detect_tree_type _) as [[ty mx]|] eqn:Ed;
    [|right; split; [by intros (_ & _ & _ & [? ?])|done]].
  left. split; [by repeat split; eauto|].
  destruct (match tree_type_loader self with Some _ => _ | None => _ end)
    as [stage var].
  by exists ty, mx, stage, var.
Qed.

Lemma fold_file_entry_sound l m id ty stage var :
  fold_left (file_entry self) l m !! id = Some (ty, stage, var) →
  m !! id = Some (ty, stage, var) ∨
  ∃ elem mx, elem ∈ l ∧ tree_file elem ∧ get elem "fileId" = id ∧
    detect_tree_type (path_stem (get_or elem "filename" EmptyString)) = Some (ty, mx).
Proof.
  revert m. induction l as [|e l IH]; intros m; simpl; [by left|].
  intros [Hm|(elem & mx & Hin & Hrest)]%IH.
  - destruct (file_entry_cases m e)
      as [(Hq & ty' & mx & stage' & var' & Hd & E)|(_ & E)];
      rewrite E in Hm; [|by left].
    destruct (decide (get e "fileId" = id)) as [<-|Hne].
    + rewrite lookup_insert_eq in Hm. injection Hm as -> -> ->.
      right. exists e, mx. split; [by apply elem_of_cons; left|done].
    + rewrite lookup_insert_ne in Hm by done. by left.
  - right. exists elem, mx. split; [by apply elem_of_cons; right|done].
Qed.

Lemma fold_file_entry_keeps l m id :
  is_Some (m !! id) → is_Some (fold_left (file_entry self) l m !! id).
Proof.
  revert m. induction l as [|e l IH]; intros m Hm; simpl; [done|].
  apply IH.
  destruct (file_entry_cases m e)
    as [(_ & ty' & mx & stage' & var' & _ & ->)|(_ & ->)]; [|done].
  destruct (decide (get e "fileId" = id)) as [<-|Hne].
  - by rewrite lookup_insert_eq.
  - by rewrite lookup_insert_ne.
Qed.

Lemma fold_file_entry_complete l m elem :
  elem ∈ l → tree_file elem →
  is_Some (fold_left (file_entry self) l m !! get elem "fileId").
Proof.
  revert m. induction l as [|e l IH]; intros m Hin Hq; [by apply elem_of_nil in Hin|].
  apply elem_of_cons in Hin as [<-|Hin]; simpl; [|by apply IH].
  apply fold_file_entry_keeps.
  destruct (file_entry_cases m elem)
    as [(_ & ty' & mx & stage' & var' & _ & ->)|(Hn & _)]; [|done].
  by rewrite lookup_insert_eq.
Qed.

(** X20. The table of [_build_file_id_map] holds the tree files of the
    document and nothing else.  Each entry comes from a [File] element
    with that [fileId] whose [filename] contains [/trees/], ends in
    [.i3d] and has a stem that the classifier recognises as the type of
    the entry; and the [fileId] of every such element has an entry. *)
Theorem file_table_holds_the_tree_files :
  (∀ id ty stage var,
     build_file_id_map self !! id = Some (ty, stage, var) →
     ∃ elem mx,
       elem ∈ iter (root self) ∧
       local_tag self (tag elem) = "File" ∧
       get elem "fileId" = id ∧
       Str.contains (get_or elem "filename" EmptyString) "/trees/" = true ∧
       Str.endswith (get_or elem "filename" EmptyString) ".i3d" = true ∧
       detect_tree_type (path_stem (get_or elem "filename" EmptyString))
       = Some (ty, mx)) ∧
  (∀ elem,
     elem ∈ iter (root self) →
     local_tag self (tag elem) = "File" →
     Str.contains (get_or elem "filename" EmptyString) "/trees/" = true →
     Str.endswith (get_or elem "filename" EmptyString) ".i3d" = true →
     is_Some (detect_tree_type (path_stem (get_or elem "filename" EmptyString))) →
     is_Some (build_file_id_map self !! get elem "fileId")).
Proof.
  split.
  - intros id ty stage var
      [Hm|(elem & mx & Hin & (Ht & Hc & He & _) & Hid & Hd)]%fold_file_entry_sound.
    + by rewrite lookup_empty in Hm.
    + by exists elem, mx.
  - intros elem Hin Ht Hc He Hd. by apply fold_file_entry_complete.
Qed.

Lemma file_table_entry_classified id ty stage var :
  build_file_id_map self !! id = Some (ty, stage, var) →
  ∃ name mx, detect_tree_type name = Some (ty, mx).
Proof.
  intros [Hm|(elem & mx & _ & _ & _ & Hd)]%fold_file_entry_sound.
  - by rewrite lookup_empty in Hm.
  - eauto.
Qed.

Lemma detect_tree_type_stage_table name ty mx :
  detect_tree_type name = Some (ty, mx) →
  final_stage None ty = mx ∧ 3 ≤ mx ≤ 6.
Proof.
  intros (pre & pat & post & E & _ & _)%first_match_Some.
  pose proof TREE_PATTERNS_in_MAX_STAGES as Hall. rewrite E in Hall.
  apply Forall_app in Hall as [_ Hall]. apply Forall_cons in Hall as [[H1 H2] _].
  simpl in H1, H2. split; [done|lia].
Qed.

Lemma tree_data_classified files e ty stage var :
  (∀ id ty stage var, files !! id = Some (ty, stage, var) →
                      ∃ name mx, detect_tree_type name = Some (ty, mx)) →
  tree_data self files e = Some (ty, stage, var) →
  ∃ name mx, detect_tree_type name = Some (ty, mx).
Proof.
  intros Hfiles. unfold tree_data.
  destruct (String.eqb _ "ReferenceNode").
  - unfold resolve_reference. destruct (truthy _); [|done]. apply Hfiles.
  - destruct (_ || _); [|done].
    destruct (detect_tree_type _) as [[ty' mx]|] eqn:Ed; [|done].
    intros [= <- _ _]. eauto.
Qed.

End FileTable.

Section FoundTypes.

Context {T : Type} `{Arith T} `{MathLib T} `{FloatParse T} `{PathLib}.

(** X21. Every tree that [find_trees] returns has a type of the pattern
    table: some name is classified as that type, so [MAX_STAGES] has the
    type and the serializer without a catalog takes the final stage, 3
    to 6, from the table and never from its default. *)
Theorem found_tree_type_is_classified
    self parent_name (found : list (TreeInstance T)) (t : TreeInstance T) :
  find_trees self parent_name = Ok found →
  t ∈ found →
  ∃ name mx,
    detect_tree_type name = Some (Tree.tree_type t, mx) ∧
    final_stage None (Tree.tree_type t) = mx ∧
    is_at_final_stage None t = (mx <=? Tree.growth_state t) ∧
    3 ≤ mx ≤ 6.
Proof.
  intros Hrun Ht.
  destruct (find_element self "Scene") as [scene|] eqn:Hscene.
  - destruct (find_trees_layout _ _ _ _ Hrun Hscene) as [_ Hall].
    destruct (Hall t Ht) as (i & c & Hc & q & r & e & wm & scale & ty & stage & var
                             & Hch & Hsc & Hlast & Hw & Hd & ->).
    pose proof (make_tree_fields (get_or e "name" EmptyString) ty wm scale stage var
                  ([i] ++ q) (match q with [] => [] | _ => removelast ([i] ++ q) end))
      as (_ & Ety & _).
    apply tree_data_classified in Hd as (name & mx & Hname).
    + destruct (detect_tree_type_stage_table _ _ _ Hname) as [Hfinal Hrange].
      exists name, mx. unfold is_at_final_stage. rewrite Ety. by rewrite Hfinal.
    + intros id ty' stage' var' Hid.
      destruct (file_table_entry_classified self id ty' stage' var' Hid)
        as (name & mx & Hname). eauto.
  - unfold find_trees in Hrun. rewrite Hscene in Hrun. injection Hrun as <-.
    by apply elem_of_nil in Ht.
Qed.

End FoundTypes.

Lemma found_tree_type_is_classified_witness :
  ∃ name mx,
    detect_tree_type name = Some (Tree.tree_type demo_tree1_found, mx) ∧
    final_stage None (Tree.tree_type demo_tree1_found) = mx ∧
    is_at_final_stage None demo_tree1_found
    = (mx <=? Tree.growth_state demo_tree1_found) ∧
    3 ≤ mx ≤ 6.
Proof.
  apply (found_tree_type_is_classified demo None
           (demo_tree1_found :: demo_trees_inside) demo_tree1_found);
    [reflexivity|constructor].
Defined.

(** ** Loading the catalog of a map *)

Section LoadFromMapProperties.

Context `{PathLib}.

Variable path_parent : string → string.
Variable fs : string → source.

Lemma load_all_snoc calls src base :
  load_all (calls ++ [(src, base)]) = (load_from_xml (load_all calls) src base).1.
Proof. unfold load_all. by rewrite fold_left_app. Qed.

Lemma load_from_xml_count_nonneg self src base : 0 ≤ (load_from_xml self src base).2.
Proof.
  destruct src as [| |rt]; simpl; [done..|].
  set (es := findall _ _).
  pose proof (fold_add_tree_type_count base es (tree_types self) 0) as [[Hc _] _].
  by destruct (fold_left _ es _).
Qed.

Lemma load_first_existing_cases self map_dir paths total :
  (∃ p, p ∈ paths ∧ path_exists fs p = true ∧
        load_first_existing fs self map_dir paths total
        = ((load_from_xml self (fs p) (Some map_dir)).1,
           total + (load_from_xml self (fs p) (Some map_dir)).2)) ∨
  (Forall (λ p, path_exists fs p = false) paths ∧
   load_first_existing fs self map_dir paths total = (self, total)).
Proof.
  induction paths as [|p paths IH]; simpl; [by right|].
  destruct (path_exists fs p) eqn:Hp.
  - left. exists p. split; [by apply elem_of_cons; left|]. split; [done|].
    by destruct (load_from_xml self (fs p) (Some map_dir)).
  - destruct IH as [(p' & Hin & Hp' & E)|[Hall E]].
    + left. exists p'. split; [by apply elem_of_cons; right|done].
    + right. split; [by constructor|done].
Qed.

(** The first step of [load_from_map]: the base types of the game. *)
Local Abbreviation base_step self game_data_path :=
  (match game_data_path with
   | Some game_data =>
       if path_exists fs
            (path_join (path_join game_data "maps") "maps_treeTypes.xml")
       then
         let '(self', loaded) :=
           load_from_xml self
             (fs (path_join (path_join game_data "maps") "maps_treeTypes.xml"))
             (Some game_data) in
         (self', 0 + loaded)
       else (self, 0)
   | None => (self, 0)
   end).

Lemma base_step_cases self (g : option string) :
  (base_step self g = (self, 0)) ∨
  (∃ game_data,
     g = Some game_data ∧
     base_step self g
     = ((load_from_xml self
           (fs (path_join (path_join game_data "maps") "maps_treeTypes.xml"))
           (Some game_data)).1,
        (load_from_xml self
           (fs (path_join (path_join game_data "maps") "maps_treeTypes.xml"))
           (Some game_data)).2)).
Proof.
  destruct g as [game_data|]; [|by left].
  destruct (path_exists fs _); [|by left].
  right. exists game_data. split; [done|].
  by destruct (load_from_xml self _ (Some game_data)).
Qed.



End LoadFromMapProperties.


(** ** The namespace of the document *)

Lemma startswith_app (p s : string) : Str.startswith (p +:+ s) p = true.
Proof. induction p as [|a p IH]; simpl; [by destruct s|]. by rewrite Ascii.eqb_refl. Qed.

Lemma index_of_app_found (c : ascii) (u r : string) :
  index_of c u = None →
  index_of c (u +:+ String c r) = Some (String.length u).
Proof.
  induction u as [|d u IH]; simpl.
  - intros _. by rewrite Ascii.eqb_refl.
  - destruct (Ascii.eqb d c); [done|].
    destruct (index_of c u); [done|]. intros _. by rewrite IH.
Qed.

Lemma substring_prefix (u r : string) :
  String.substring 0 (String.length u) (u +:+ r) = u.
Proof.
  induction u as [|d u IH]; simpl; [by destruct r|]. by rewrite IH.
Qed.

Lemma remove_all_skip (old u r : string) :
  remove_all old (String.length u) (u +:+ r) = remove_all old 0 r.
Proof. induction u as [|d u IH]; simpl; [by destruct r|done]. Qed.

Lemma remove_all_absent (a : ascii) (old l : string) :
  index_of a l = None → remove_all (String a old) 0 l = l.
Proof.
  induction l as [|d l IH]; simpl; [done|].
  rewrite (Ascii.eqb_sym a d).
  destruct (Ascii.eqb d a); [done|]. simpl.
  destruct (index_of a l); [done|]. intros _. by rewrite IH.
Qed.

Lemma remove_all_prefix (a : ascii) (o r : string) :
  remove_all (String a o) 0 (String a o +:+ r) = remove_all (String a o) 0 r.
Proof.
  change (String a o +:+ r) with (String a (o +:+ r)). cbn [remove_all].
  change (String a (o +:+ r)) with (String a o +:+ r).
  rewrite startswith_app. cbn [String.length].
  replace (S (String.length o) - 1)%nat with (String.length o) by lia.
  apply remove_all_skip.
Qed.

Lemma append_assoc_s (u v w : string) : (u +:+ v) +:+ w = u +:+ v +:+ w.
Proof.
  induction u as [|d u IH]; [done|].
  change (String d ((u +:+ v) +:+ w) = String d (u +:+ v +:+ w)). by rewrite IH.
Qed.

(** X25. A root tag of the form [{uri}local], where [uri] has no closing
    brace, makes [__init__] keep [uri] as the namespace, and with it
    every tag [{uri}name] whose [name] has no opening brace is read as
    [name]: the namespaced scene nodes are scanned like plain ones, and
    the scene is looked up under its namespaced tag. *)
Theorem namespace_of_the_root_is_stripped (rt : Element) (uri l : string) :
  tag rt = "{" +:+ uri +:+ "}" +:+ l →
  index_of "}"%char uri = None →
  ∃ self,
    new_extractor rt = Some self ∧
    root self = rt ∧ ns self = Some uri ∧
    (∀ nm, index_of "{"%char nm = None →
           local_tag self ("{" +:+ uri +:+ "}" +:+ nm) = nm) ∧
    scanned_tag (local_tag self ("{" +:+ uri +:+ "}" +:+ "TransformGroup")) = true ∧
    scanned_tag (local_tag self ("{" +:+ uri +:+ "}" +:+ "Shape")) = true ∧
    scanned_tag (local_tag self ("{" +:+ uri +:+ "}" +:+ "ReferenceNode")) = true ∧
    find_element self "Scene"
    = find_descendant rt ("{" +:+ uri +:+ "}" +:+ "Scene").
Proof.
  intros Htag Huri.
  assert (get_namespace (tag rt) = Some (Some uri)) as Hns.
  { rewrite Htag. unfold get_namespace.
    change ("{" +:+ uri +:+ "}" +:+ l) with (String "{" (uri +:+ String "}" l)).
    cbn [Str.startswith Ascii.eqb Bool.eqb andb index_of].
    rewrite (index_of_app_found _ _ _ Huri). cbn [fmap option_fmap option_map].
    replace (S (String.length uri) - 1)%nat with (String.length uri) by lia.
    assert (Str.startswith (uri +:+ String "}" l) EmptyString = true) as ->
      by (by destruct (uri +:+ String "}" l)).
    change (String.substring 1 (String.length uri) (String "{" (uri +:+ String "}" l)))
      with (String.substring 0 (String.length uri) (uri +:+ String "}" l)).
    by rewrite substring_prefix. }
  eexists. unfold new_extractor. rewrite Hns. split; [done|].
  assert (∀ nm, index_of "{"%char nm = None →
                local_tag {| root := rt; ns := Some uri; tree_type_loader := None |}
                          ("{" +:+ uri +:+ "}" +:+ nm) = nm) as Hlocal.
  { intros nm Hnm. unfold local_tag. cbn [ns].
    assert ("{" +:+ uri +:+ "}" +:+ nm = String "{" (uri +:+ "}") +:+ nm) as ->.
    { change (String "{" (uri +:+ "}" +:+ nm) = String "{" ((uri +:+ "}") +:+ nm)).
      by rewrite append_assoc_s. }
    change ("{" +:+ uri +:+ "}") with (String "{" (uri +:+ "}")).
    rewrite remove_all_prefix. by apply remove_all_absent. }
  repeat split; try done.
  - by rewrite Hlocal.
  - by rewrite Hlocal.
  - by rewrite Hlocal.
Qed.

Lemma namespace_of_the_root_is_stripped_witness :
  ∃ self,
    new_extractor (Elem "{http://i3d.giants.ch}i3D" [] []) = Some self ∧
    root self = Elem "{http://i3d.giants.ch}i3D" [] [] ∧
    ns self = Some "http://i3d.giants.ch" ∧
    (∀ nm, index_of "{"%char nm = None →
           local_tag self ("{" +:+ "http://i3d.giants.ch" +:+ "}" +:+ nm) = nm) ∧
    scanned_tag (local_tag self ("{" +:+ "http://i3d.giants.ch" +:+ "}"
                                 +:+ "TransformGroup")) = true ∧
    scanned_tag (local_tag self ("{" +:+ "http://i3d.giants.ch" +:+ "}"
                                 +:+ "Shape")) = true ∧
    scanned_tag (local_tag self ("{" +:+ "http://i3d.giants.ch" +:+ "}"
                                 +:+ "ReferenceNode")) = true ∧
    find_element self "Scene"
    = find_descendant (Elem "{http://i3d.giants.ch}i3D" [] [])
                      ("{" +:+ "http://i3d.giants.ch" +:+ "}" +:+ "Scene").
Proof.
  apply (namespace_of_the_root_is_stripped
           (Elem "{http://i3d.giants.ch}i3D" [] []) "http://i3d.giants.ch" "i3D");
    reflexivity.
Defined.

(** ** Summary: the totals *)

Section SummaryTotals.

Context {T : Type} `{FloatFormat T}.

Local Abbreviation groups := (list (string * list (TreeInstance T))).

(** The trees of all groups. *)
Local Abbreviation flat G := (concat (snd <$> (G : groups))).

Lemma group_add_flat (t : TreeInstance T) (G : groups) :
  flat (group_add t G) ≡ₚ t :: flat G.
Proof.
  induction G as [|[k l] G IH]; simpl; [done|].
  destruct (String.eqb k (Tree.tree_type t)); simpl.
  - rewrite <- app_assoc. simpl. symmetry. apply Permutation_middle.
  - rewrite IH. symmetry. apply Permutation_middle.
Qed.

Lemma group_add_keys (t : TreeInstance T) (G : groups) :
  NoDup (fst <$> G) →
  Forall (λ g, Forall (λ t, Tree.tree_type t = g.1) g.2) G →
  NoDup (fst <$> group_add t G) ∧
  Forall (λ g, Forall (λ t, Tree.tree_type t = g.1) g.2) (group_add t G) ∧
  ∀ k, k ∈ fst <$> group_add t G → k = Tree.tree_type t ∨ k ∈ fst <$> G.
Proof.
  induction G as [|[k l] G IH]; simpl.
  - intros _ _. repeat split.
    + by apply NoDup_singleton.
    + by repeat constructor.
    + intros k [->|Hk]%elem_of_cons; [by left|by right].
  - intros [Hk Hnd]%NoDup_cons [Hl Hall]%Forall_cons.
    destruct (String.eqb_spec k (Tree.tree_type t)) as [E|E]; simpl.
    + repeat split.
      * by constructor.
      * constructor; [|done]. simpl. apply Forall_app. split; [done|].
        by repeat constructor.
      * intros k' Hk'. by right.
    + destruct (IH Hnd Hall) as (Hnd' & Hall' & Hkeys).
      repeat split.
      * constructor; [|done]. intros Hin.
        destruct (Hkeys k Hin) as [?|?]; done.
      * by constructor.
      * intros k' [->|Hk']%elem_of_cons; [right; by left|].
        destruct (Hkeys k' Hk') as [?|?]; [by left|right; by right].
Qed.

Lemma group_by_type_spec (trees : list (TreeInstance T)) :
  flat (group_by_type trees) ≡ₚ trees ∧
  NoDup (fst <$> group_by_type trees) ∧
  Forall (λ g, Forall (λ t, Tree.tree_type t = g.1) g.2) (group_by_type trees).
Proof.
  unfold group_by_type.
  cut (∀ G : groups,
         NoDup (fst <$> G) →
         Forall (λ g, Forall (λ t, Tree.tree_type t = g.1) g.2) G →
         flat (fold_left (λ by_type tree, group_add tree by_type) trees G)
         ≡ₚ trees ++ flat G ∧
         NoDup (fst <$> fold_left (λ by_type tree, group_add tree by_type) trees G) ∧
         Forall (λ g, Forall (λ t, Tree.tree_type t = g.1) g.2)
                (fold_left (λ by_type tree, group_add tree by_type) trees G)).
  { intros Hc. destruct (Hc []) as (Hp & Hnd & Hall); [constructor..|].
    rewrite app_nil_r in Hp. done. }
  induction trees as [|t trees IH]; intros G Hnd Hall; simpl; [done|].
  destruct (group_add_keys t G Hnd Hall) as (Hnd' & Hall' & _).
  destruct (IH _ Hnd' Hall') as (Hp & ? & ?). split; [|done].
  rewrite Hp, group_add_flat. by rewrite Permutation_middle.
Qed.

Lemma insert_sorted_perm (s : string) (l : list string) : insert_sorted s l ≡ₚ s :: l.
Proof.
  induction l as [|x l IH]; simpl; [done|].
  destruct (String.leb s x); [done|]. rewrite IH. apply Permutation_swap.
Qed.

Lemma sorted_perm (l : list string) : sorted l ≡ₚ l.
Proof.
  induction l as [|x l IH]; simpl; [done|]. by rewrite insert_sorted_perm, IH.
Qed.

Local Abbreviation sumZ f l := (foldr Z.add 0 (f <$> l)).

Lemma sumZ_perm {A : Type} (f : A → Z) (l k : list A) :
  l ≡ₚ k → sumZ f l = sumZ f k.
Proof. induction 1; rewrite ?fmap_cons; cbn [foldr]; lia. Qed.

Lemma fold_add_type_totals loader (G : groups) keys a b :
  fold_left (add_type_totals loader G) keys (a, b)
  = (a + sumZ (λ k, Z.of_nat (length (filter
                      (λ t, (final_stage loader k <=? Tree.growth_state t) = true)
                      (group_of G k)))) keys,
     b + sumZ (λ k, Z.of_nat (length (group_of G k))
                    - Z.of_nat (length (filter
                        (λ t, (final_stage loader k <=? Tree.growth_state t) = true)
                        (group_of G k)))) keys).
Proof.
  revert a b. induction keys as [|k keys IH]; intros a b.
  - simpl. f_equal; lia.
  - cbn [fold_left]. unfold add_type_totals at 2. rewrite IH.
    rewrite !fmap_cons. cbn [foldr]. f_equal; lia.
Qed.

Lemma sum_over_keys (h : string → list (TreeInstance T) → Z) (G : groups) :
  NoDup (fst <$> G) →
  sumZ (λ k, h k (group_of G k)) (fst <$> G) = sumZ (λ g, h g.1 g.2) G.
Proof.
  induction G as [|[k l] G IH]; [done|].
  rewrite !fmap_cons. cbn [fst snd]. intros [Hk Hnd]%NoDup_cons.
  cbn [foldr fst snd group_of]. rewrite String.eqb_refl. f_equal.
  rewrite <- (IH Hnd). f_equal. apply list_fmap_ext.
  intros i k' Hk'. cbn [group_of].
  destruct (String.eqb_spec k k') as [->|?]; [|done].
  destruct Hk. apply list_elem_of_lookup. eauto.
Qed.

Lemma sum_final_over_groups loader (G : groups) :
  Forall (λ g, Forall (λ t, Tree.tree_type t = g.1) g.2) G →
  sumZ (λ g, Z.of_nat (length (filter
               (λ t, (final_stage loader g.1 <=? Tree.growth_state t) = true) g.2))) G
  = Z.of_nat (length (filter (λ t, is_at_final_stage loader t = true) (flat G))) ∧
  sumZ (λ g, Z.of_nat (length g.2)) G = Z.of_nat (length (flat G)).
Proof.
  induction 1 as [|[k l] G Hl _ [IH1 IH2]]; [done|].
  rewrite !fmap_cons. cbn [foldr fst snd concat].
  rewrite filter_app, !length_app, IH1, IH2. split; [|lia].
  assert (filter (λ t, (final_stage loader k <=? Tree.growth_state t) = true) l
          = filter (λ t, is_at_final_stage loader t = true) l) as ->; [|lia].
  simpl in Hl. induction Hl as [|t l Ht _ IHl]; [done|].
  assert (is_at_final_stage loader t
          = (final_stage loader k <=? Tree.growth_state t)) as E
    by (unfold is_at_final_stage; by rewrite Ht).
  rewrite !filter_cons, E, IHl. done.
Qed.

Lemma sumZ_sub {A : Type} (f g : A → Z) (l : list A) :
  sumZ (λ a, f a - g a) l = sumZ f l - sumZ g l.
Proof. induction l as [|a l IH]; rewrite ?fmap_cons; cbn [foldr]; [done|lia]. Qed.

(** X26. The totals of the growth status summary that [print_summary] prints
    are the two counters that [generate_treeplant_xml] reports for the
    same trees and the same catalog, although the one counts type by type
    and the other tree by tree; on an empty list [print_summary] does not
    get that far: the percentage divides by zero. *)
Theorem summary_totals_agree_with_serializer
    (trees : list (TreeInstance T)) (loader : option TreeTypeLoader) :
  print_summary trees loader
  = match trees with
    | [] => ZeroDivisionError
    | _ => Totals (generate_treeplant_xml trees loader).1.2
                  (generate_treeplant_xml trees loader).2
    end.
Proof.
  unfold print_summary.
  destruct (group_by_type_spec trees) as (Hflat & Hnd & Hall).
  rewrite fold_add_type_totals.
  rewrite (sumZ_perm _ _ _ (sorted_perm (fst <$> group_by_type trees))).
  rewrite (sumZ_perm (λ k, _ - _) _ _ (sorted_perm (fst <$> group_by_type trees))).
  rewrite (sumZ_sub (λ k, Z.of_nat (length (group_of (group_by_type trees) k)))).
  rewrite (sum_over_keys
             (λ k l, Z.of_nat (length (filter
                       (λ t, (final_stage loader k <=? Tree.growth_state t) = true) l)))
             _ Hnd).
  rewrite (sum_over_keys (λ k l, Z.of_nat (length l)) _ Hnd).
  destruct (sum_final_over_groups loader _ Hall) as [-> ->].
  assert (length (filter (λ t, is_at_final_stage loader t = true)
                         (flat (group_by_type trees)))
          = length (filter (λ t, is_at_final_stage loader t = true) trees)) as ->
    by (by rewrite Hflat).
  assert (length (flat (group_by_type trees)) = length trees) as ->
    by (by rewrite Hflat).
  unfold generate_treeplant_xml.
  pose proof (emit_tree_counts loader trees [xml_declaration; "<treePlant>"] 0 0)
    as [Ef Eg].
  destruct (fold_left _ trees _) as [[lines f] g]. cbn [fst snd] in *. subst.
  pose proof (split_by_bool (is_at_final_stage loader) trees).
  destruct trees; [done|]. f_equal; lia.
Qed.

End SummaryTotals.

Lemma found_trees_are_in_document_order_witness :
  loc_lt (Tree.element demo_tree1_found)
         (Tree.element (make_tree "tree2" "oak" demo_world_tree2 (1, 1, 1)%R 5 1
                                  [1; 0]%nat [1]%nat)).
Proof.
  apply (found_trees_are_in_document_order demo None
           (demo_tree1_found :: demo_trees_inside) 0 1
           demo_tree1_found
           (make_tree "tree2" "oak" demo_world_tree2 (1, 1, 1)%R 5 1
                      [1; 0]%nat [1]%nat));
    [reflexivity|reflexivity|reflexivity|lia].
Defined.
